(** * Smart evacuation router: the routing engine

    A shallow embedding of the routing core of the repository
    ([data_processing.py], [evacuation_algorithm.py] and the membership test
    of [map_utils.py]) together with the properties its specification states
    about it.

    Modelling conventions.
    - Python floats are IEEE binary64 numbers, here the kernel's primitive
      [float]; the small integer literals of the source ([0], [1], [2], [100],
      [10000], [6371000]) are exactly representable and are written as floats.
    - The C library functions behind [math.sin], [math.cos], [math.asin]
      and the operator [**] on floats ([pow]) are parameters of the
      development (record [libm]); [math.sqrt] is the correctly rounded IEEE
      square root.  The wrappers of the [math] module turn a NaN produced
      from a non-NaN argument into [ValueError].
    - The network is the [MultiDiGraph] that osmnx builds and the application
      passes to the engine ([app.py], [ox.graph_from_point]).  It is the
      dictionary of its nodes, each carrying its attribute dictionary and
      its adjacency (neighbour to the attribute dictionary of the edge), in
      insertion order, with one edge, of key 0, from a node to a neighbour.
      [G.nodes], [G.neighbors], [G.edges(data=True)] and
      [G.edges(n, data=True)] give the nodes, the neighbours and the
      attribute dictionaries of the edges; [G.get_edge_data(u, v)] gives
      the dictionary of the edges from [u] to [v] by edge key.  A two-way
      street is an edge in each direction.
    - Attribute dictionaries are records with one optional field per key the
      engine reads or writes; [None] is an absent key.
    - The annotator copies the graph and then writes into the dictionaries of
      the copy.  It is modelled over a store of attribute dictionaries, where
      a graph holds references; the search and the exit discovery only read,
      and are modelled over the graph read out of the store ([snapshot]).
    - A Python [set] is the sequence of its insertions; the order in which it
      is iterated is a parameter ([set_iter]).
    - Exceptions and non-termination are explicit in the type [outcome]. *)

From Stdlib Require Import ZArith List Bool String Lia Floats.
From stdpp Require Import gmap strings list sorting.

#[local] Set Warnings "-inexact-float".
Local Open Scope float_scope.

(** ** Python outcomes *)

Inductive exn : Set :=
| KeyError
| ValueError
| ZeroDivisionError
| NetworkXError.

Inductive outcome (A : Type) : Type :=
| Return (a : A)
| Raise (e : exn)
| Diverge.

Arguments Return {A} a.
Arguments Raise {A} e.
Arguments Diverge {A}.

Definition obind {A B : Type} (f : A → outcome B) (m : outcome A) : outcome B :=
  match m with
  | Return a => f a
  | Raise e => Raise e
  | Diverge => Diverge
  end.

#[global] Instance outcome_ret : MRet outcome := @Return.
#[global] Instance outcome_bind : MBind outcome := @obind.

(** [for x in l: s = body s x], where the body may raise. *)
Fixpoint for_each {A S : Type} (body : S → A → outcome S) (l : list A) (s : S)
  : outcome S :=
  match l with
  | [] => Return s
  | a :: l' => s' ← body s a; for_each body l' s'
  end.

(** ** Floating point and the [math] module *)

Definition is_nan (f : float) : bool := negb (f =? f).
Definition is_inf (f : float) : bool := (abs f =? infinity).
Definition is_finite (f : float) : bool := negb (is_nan f) && negb (is_inf f).

(** CPython's [math_1] wrapper around a C function that cannot overflow. *)
Definition math_1 (func : float → float) (v : float) : outcome float :=
  let r := func v in
  if is_nan r && negb (is_nan v) then Raise ValueError
  else if is_inf r && is_finite v then Raise ValueError
  else Return r.

Record libm : Type := {
  c_sin : float → float;
  c_cos : float → float;
  c_asin : float → float;
  c_pow : float → float → float
}.

Definition math_pi : float := 0x1.921fb54442d18p+1.
Definition math_radians (v : float) : float := v * (math_pi / 180).
Definition math_sqrt : float → outcome float := math_1 sqrt.

(** Python's [min(a, b)]: the first argument unless the second is smaller. *)
Definition py_min (a b : float) : float := if b <? a then b else a.

(** Python's float division. *)
Definition py_div (a b : float) : outcome float :=
  if b =? 0 then Raise ZeroDivisionError else Return (a / b).

Section Haversine.
Context (m : libm).

Definition math_sin := math_1 (c_sin m).
Definition math_cos := math_1 (c_cos m).
Definition math_asin := math_1 (c_asin m).

(** [v ** 2] on a float: CPython's [float_pow] with the exponent 2.  It
    settles NaN, the infinities, zero and one itself and otherwise calls the
    C library's [pow] on the absolute value (the exponent is even, so the
    sign is dropped).  Its report of a result that overflows is left out:
    the base is a sine here. *)
Definition float_pow_2 (v : float) : float :=
  if is_nan v then v
  else if is_inf v then infinity
  else if v =? 0 then 0
  else
    let v := abs v in
    if v =? 1 then 1 else c_pow m v 2.

(** [haversine_distance] of both modules (the two copies are identical). *)
Definition haversine_distance (lat1 lon1 lat2 lon2 : float) : outcome float :=
  let lat1 := math_radians lat1 in
  let lon1 := math_radians lon1 in
  let lat2 := math_radians lat2 in
  let lon2 := math_radians lon2 in
  let dlon := lon2 - lon1 in
  let dlat := lat2 - lat1 in
  s1 ← math_sin (dlat / 2);
  c1 ← math_cos lat1;
  c2 ← math_cos lat2;
  s2 ← math_sin (dlon / 2);
  let a := float_pow_2 s1 + c1 * c2 * float_pow_2 s2 in
  q ← math_sqrt a;
  t ← math_asin q;
  let c := 2 * t in
  let r := 6371000 in
  Return (c * r).

(** [data_processing.check_if_in_radius] *)
Definition check_if_in_radius (point center : float * float) (radius : float)
  : outcome bool :=
  let '(lat1, lon1) := point in
  let '(lat2, lon2) := center in
  distance ← haversine_distance lat1 lon1 lat2 lon2;
  Return (distance <=? radius).
End Haversine.

(** ** The road network *)

Abbreviation node := Z.

(** Attribute dictionary of a node. *)
Module Node.
Record t : Type := mk {
  x : option float;
  y : option float;
  natural : option string;
  waterway : option string;
  water : option string;
  harbour : option string;
  dock : option string;
  landuse : option string;
  is_water : option bool
}.

Definition empty : t := mk None None None None None None None None None.

(** [data['is_water'] = b] *)
Definition set_is_water (b : bool) (d : t) : t :=
  mk (x d) (y d) (natural d) (waterway d) (water d) (harbour d) (dock d)
     (landuse d) (Some b).
End Node.

(** Attribute dictionary of an edge. *)
Module Edge.
Record t : Type := mk {
  length : option float;
  highway : option string;
  bridge : option string;
  waterway : option string;
  water : option string;
  natural : option string;
  is_water : option bool
}.

(** The dictionary without any of these keys. *)
Definition empty : t := mk None None None None None None None.

(** [data['is_water'] = b] *)
Definition set_is_water (b : bool) (d : t) : t :=
  mk (length d) (highway d) (bridge d) (waterway d) (water d) (natural d)
     (Some b).
End Edge.

(** A node entry: what the graph keeps for the node ([N]) and, per
    neighbour, for the edge to it ([E]). *)
Record vertex (N E : Type) : Type := Vertex {
  data : N;
  nbrs : list (node * E)
}.

Arguments Vertex {N E} data nbrs.
Arguments data {N E} v.
Arguments nbrs {N E} v.

Definition graph_of (N E : Type) : Type := list (node * vertex N E).

(** The graph as the search reads it: attribute dictionaries by value. *)
Abbreviation graph := (graph_of Node.t Edge.t).

(** Lookup in a dictionary kept in insertion order. *)
Fixpoint assoc {V : Type} (k : node) (l : list (node * V)) : option V :=
  match l with
  | [] => None
  | (k', v) :: l' => if bool_decide (k' = k) then Some v else assoc k l'
  end.

(** [d[k]] *)
Definition getitem {V : Type} (o : option V) : outcome V :=
  match o with
  | Some v => Return v
  | None => Raise KeyError
  end.

(** [G.nodes[n]] *)
Definition G_nodes {N E : Type} (G : graph_of N E) (n : node) : outcome N :=
  getitem (data <$> assoc n G).

(** [G.neighbors(n)] *)
Definition G_neighbors {N E : Type} (G : graph_of N E) (n : node)
  : outcome (list node) :=
  match assoc n G with
  | Some v => Return (fst <$> nbrs v)
  | None => Raise NetworkXError
  end.

(** [G.get_edge_data(u, v, default={})] on the multigraph: the dictionary of
    the edges from [u] to [v] by edge key, [{0: attributes}] for the one
    edge there is, or the default. *)
Definition G_get_edge_data (G : graph) (u v : node) : list (Z * Edge.t) :=
  match assoc u G with
  | Some vu =>
      match assoc v (nbrs vu) with
      | Some attributes => [(0%Z, attributes)]
      | None => []
      end
  | None => []
  end.

(** [edge_data.get(name, default)] on such a dictionary, for an attribute
    name: the keys are edge keys, integers, and a string equals none of
    them, so the lookup misses whatever the attributes of the edges are. *)
Definition keyed_get {V : Type} (edge_data : list (Z * Edge.t)) (name : string)
    (default : V) : V :=
  default.

(** [G.edges(n, data=True)], for a node [n] of the graph. *)
Definition G_edges_of (G : graph) (n : node) : list (node * node * Edge.t) :=
  match assoc n G with
  | Some v => (λ '(w, d), (n, w, d)) <$> nbrs v
  | None => []
  end.

(** [d.get('is_water', False)] on the attribute dictionary of a node. *)
Definition get_is_water_node (d : Node.t) : bool := default false (Node.is_water d).

(** [k in d and d[k] in values] *)
Definition tag_in (tag : option string) (values : list string) : bool :=
  match tag with
  | Some s => bool_decide (s ∈ values)
  | None => false
  end.

(** [k in d] *)
Definition has_key {V : Type} (o : option V) : bool :=
  match o with Some _ => true | None => false end.

(** ** The store of attribute dictionaries *)

Abbreviation loc := positive.

Record store : Type := Store {
  node_attrs : gmap loc Node.t;
  edge_attrs : gmap loc Edge.t
}.

(** A graph object: its entries refer to dictionaries of the store. *)
Abbreviation graph_ref := (graph_of loc loc).

(** Dereferencing; every reference of a graph object is allocated, the
    default stands for a reference that is not. *)
Definition node_dict (s : store) (l : loc) : Node.t :=
  default Node.empty (node_attrs s !! l).
Definition edge_dict (s : store) (l : loc) : Edge.t :=
  default Edge.empty (edge_attrs s !! l).

Definition write_node (l : loc) (d : Node.t) (s : store) : store :=
  Store (<[l := d]> (node_attrs s)) (edge_attrs s).
Definition write_edge (l : loc) (d : Edge.t) (s : store) : store :=
  Store (node_attrs s) (<[l := d]> (edge_attrs s)).

(** [d.copy()]: a new dictionary with the same items. *)
Definition copy_node_dict (s : store) (l : loc) : store * loc :=
  let l' := fresh (dom (node_attrs s)) in
  (write_node l' (node_dict s l) s, l').
Definition copy_edge_dict (s : store) (l : loc) : store * loc :=
  let l' := fresh (dom (edge_attrs s)) in
  (write_edge l' (edge_dict s l) s, l').

Fixpoint copy_nbrs (s : store) (es : list (node * loc))
  : store * list (node * loc) :=
  match es with
  | [] => (s, [])
  | (v, l) :: es' =>
      let '(s1, l') := copy_edge_dict s l in
      let '(s2, es'') := copy_nbrs s1 es' in
      (s2, (v, l') :: es'')
  end.

(** [G.copy()]: the same nodes and adjacency over copies of the attribute
    dictionaries. *)
Fixpoint G_copy (s : store) (G : graph_ref) : store * graph_ref :=
  match G with
  | [] => (s, [])
  | (n, vx) :: G' =>
      let '(s1, l') := copy_node_dict s (data vx) in
      let '(s2, es') := copy_nbrs s1 (nbrs vx) in
      let '(s3, G'') := G_copy s2 G' in
      (s3, (n, Vertex l' es') :: G'')
  end.

(** The graph a graph object stands for in a store. *)
Definition snapshot (s : store) (G : graph_ref) : graph :=
  (λ '(n, vx),
     (n, Vertex (node_dict s (data vx))
                ((λ '(v, l), (v, edge_dict s l)) <$> nbrs vx))) <$> G.

(** [G.edges(data=True)]: every adjacency entry, node by node. *)
Definition G_edges {N E : Type} (G : graph_of N E) : list (node * node * E) :=
  '(u, vx) ← G; (λ '(v, d), (u, v, d)) <$> nbrs vx.

(** ** [data_processing.filter_road_network] *)

(** The value the first loop stores under ['is_water'] of a node. *)
Definition node_is_water (data : Node.t) : bool :=
  let is_water := false in
  let is_water :=
    if tag_in (Node.natural data)
         ["water"; "coastline"; "wetland"; "bay"; "beach"; "marsh"]%string
    then true else is_water in
  let is_water :=
    if tag_in (Node.waterway data)
         ["river"; "canal"; "stream"; "ditch"; "dock"; "riverbank"]%string
    then true else is_water in
  let is_water :=
    if has_key (Node.water data) || has_key (Node.harbour data)
       || has_key (Node.dock data)
    then true else is_water in
  let is_water :=
    if tag_in (Node.landuse data) ["reservoir"; "basin"; "water"]%string
    then true else is_water in
  is_water.

(** ['bridge' in data and data['bridge'] not in ['no', 'false', '0']] *)
Definition edge_is_bridge (data : Edge.t) : bool :=
  match Edge.bridge data with
  | Some s => negb (bool_decide (s ∈ ["no"; "false"; "0"]%string))
  | None => false
  end.

(** The value the second loop leaves under ['is_water'] of an edge whose
    endpoints carry the flags [node_u_in_water] and [node_v_in_water]. *)
Definition edge_is_water (node_u_in_water node_v_in_water : bool) (data : Edge.t)
  : bool :=
  let is_bridge := edge_is_bridge data in
  let is_water :=
    if (node_u_in_water || node_v_in_water) && negb is_bridge
    then true else false in
  let is_water :=
    if has_key (Edge.waterway data) || has_key (Edge.water data)
       || has_key (Edge.natural data)
    then (if negb is_bridge then true else is_water)
    else is_water in
  is_water.

(** Body of the first loop. *)
Definition mark_node (s : store) (entry : node * vertex loc loc) : outcome store :=
  let l := data entry.2 in
  let data := node_dict s l in
  Return (write_node l (Node.set_is_water (node_is_water data) data) s).

(** Body of the second loop. *)
Definition mark_edge (G_filtered : graph_ref) (s : store)
    (edge : node * node * loc) : outcome store :=
  let '(u, v, l) := edge in
  let data := edge_dict s l in
  lu ← G_nodes G_filtered u;
  lv ← G_nodes G_filtered v;
  let node_u_in_water := get_is_water_node (node_dict s lu) in
  let node_v_in_water := get_is_water_node (node_dict s lv) in
  Return (write_edge l
            (Edge.set_is_water
               (edge_is_water node_u_in_water node_v_in_water data) data) s).

Definition filter_road_network (s : store) (G : graph_ref)
  : outcome (store * graph_ref) :=
  let '(s0, G_filtered) := G_copy s G in
  s1 ← for_each mark_node G_filtered s0;
  s2 ← for_each (mark_edge G_filtered) (G_edges G_filtered) s1;
  Return (s2, G_filtered).

(** ** [queue.PriorityQueue] of [(f, node)] tuples *)

(** Python's [<] on the tuples: the first components decide unless they are
    equal. *)
Definition tuple_lt (a b : float * node) : bool :=
  if a.1 =? b.1 then bool_decide (a.2 < b.2)%Z else a.1 <? b.1.

(** [put] *)
Definition pq_put (e : float * node) (q : list (float * node))
  : list (float * node) := q ++ [e].

(** [get] on a queue that is not empty: the least tuple leaves the queue.
    No two entries of the search's queue carry the same node, so the least
    tuple is unique whenever the priorities are comparable. *)
Fixpoint pq_get (q : list (float * node))
  : option ((float * node) * list (float * node)) :=
  match q with
  | [] => None
  | e :: q' =>
      match pq_get q' with
      | None => Some (e, [])
      | Some (e', r) => if tuple_lt e' e then Some (e', e :: r) else Some (e, q')
      end
  end.

(** ** [list.sort(key=lambda x: x[1], reverse=True)] *)

(** A stable sort by decreasing key: an element is placed before the first
    element whose key is not greater than its own.  The scores sorted here
    are never NaN ([scoring_total] below), so every stable sort gives this
    order. *)
Fixpoint insert_desc (e : node * float) (l : list (node * float))
  : list (node * float) :=
  match l with
  | [] => [e]
  | e' :: l' => if e.2 <? e'.2 then e' :: insert_desc e l' else e :: l
  end.

Definition sort_by_score_desc (l : list (node * float)) : list (node * float) :=
  foldr insert_desc [] l.

(** ** The state of the search *)

Record search : Type := Search {
  open_set : list (float * node);
  open_set_hash : gset node;
  came_from : gmap node node;
  g_score : gmap node float;
  f_score : gmap node float
}.

(** ** [evacuation_algorithm] *)

Definition buffer_distance : float := 100.
Definition max_exit_nodes : nat := 10.
Definition major_road_types : list string :=
  ["motorway"; "trunk"; "primary"; "secondary"; "tertiary"]%string.

(** The loop over [G.edges(node_id, data=True)] that stops at the first edge
    with a ['highway'] key. *)
Fixpoint first_highway (es : list (node * node * Edge.t)) : string :=
  match es with
  | [] => "unknown"
  | (_, _, edge_data) :: es' =>
      match Edge.highway edge_data with
      | Some h => h
      | None => first_highway es'
      end
  end.

Definition proximity_score (distance disaster_radius : float) : float :=
  let border_distance := distance - disaster_radius in
  1 - border_distance / buffer_distance.

Definition road_score (G : graph) (node_id : node) : float :=
  let highway_type := first_highway (G_edges_of G node_id) in
  if bool_decide (highway_type ∈ major_road_types) then 0.5 else 0.

(** [path] after the [while current in came_from] loop; the loop runs
    forever exactly when it does not leave within [size came_from + 1]
    rounds. *)
Fixpoint walk_back (fuel : nat) (came_from : gmap node node) (current : node)
    (path : list node) : outcome (list node) :=
  match fuel with
  | O => Diverge
  | S fuel' =>
      match came_from !! current with
      | Some previous => walk_back fuel' came_from previous (path ++ [current])
      | None => Return path
      end
  end.

Definition reconstruct_path (came_from : gmap node node) (start_node current : node)
  : outcome (list node) :=
  path ← walk_back (S (size came_from)) came_from current [];
  Return (reverse (path ++ [start_node])).

(** [s.remove(x)] *)
Definition set_remove (x : node) (s : gset node) : outcome (gset node) :=
  if bool_decide (x ∈ s) then Return (s ∖ {[x]}) else Raise KeyError.

Section Engine.
Context (m : libm) (set_iter : list node → list node).

Definition is_in_disaster_radius (point : node) (disaster_node : float * float)
    (radius : float) (G : graph) : outcome bool :=
  nd ← G_nodes G point;
  let '(disaster_lat, disaster_lon) := disaster_node in
  ny ← getitem (Node.y nd);
  nx ← getitem (Node.x nd);
  distance ← haversine_distance m ny nx disaster_lat disaster_lon;
  Return (distance <=? radius).

(** *** [get_disaster_exit_nodes] *)

(** First pass: the insertions into [inside_nodes] and [outside_nodes]. *)
Definition classify_node (disaster_node : float * float) (disaster_radius : float)
    (acc : list node * list node) (entry : node * vertex Node.t Edge.t)
  : outcome (list node * list node) :=
  let '(disaster_lat, disaster_lon) := disaster_node in
  let '(inside_nodes, outside_nodes) := acc in
  let '(node_id, vx) := entry in
  let node_data := data vx in
  match Node.x node_data, Node.y node_data with
  | Some nx, Some ny =>
      if get_is_water_node node_data then Return acc
      else
        distance ← haversine_distance m ny nx disaster_lat disaster_lon;
        if distance <=? disaster_radius
        then Return (inside_nodes ++ [node_id], outside_nodes)
        else if distance <=? disaster_radius + buffer_distance
        then Return (inside_nodes, outside_nodes ++ [node_id])
        else Return acc
  | _, _ => Return acc
  end.

(** Second pass, for one inside node. *)
Definition boundary_of (G : graph) (outside_nodes : list node)
    (boundary_nodes : list (node * node)) (inside_node : node)
  : outcome (list (node * node)) :=
  ns ← G_neighbors G inside_node;
  for_each
    (λ boundary_nodes neighbor,
       if bool_decide (neighbor ∈ outside_nodes) then
         let edge_data := G_get_edge_data G inside_node neighbor in
         if negb (keyed_get edge_data "is_water" false)
         then Return (boundary_nodes ++ [(inside_node, neighbor)])
         else Return boundary_nodes
       else Return boundary_nodes)
    ns boundary_nodes.

(** Scoring of one candidate. *)
Definition score_candidate (G : graph) (disaster_node : float * float)
    (disaster_radius : float) (exit_nodes_with_score : list (node * float))
    (node_id : node) : outcome (list (node * float)) :=
  let '(disaster_lat, disaster_lon) := disaster_node in
  node_data ← G_nodes G node_id;
  if get_is_water_node node_data then Return exit_nodes_with_score
  else
    ny ← getitem (Node.y node_data);
    nx ← getitem (Node.x node_data);
    distance ← haversine_distance m ny nx disaster_lat disaster_lon;
    let final_score :=
      proximity_score distance disaster_radius + road_score G node_id in
    Return (exit_nodes_with_score ++ [(node_id, final_score)]).

Definition exit_node_candidates (G : graph) (disaster_node : float * float)
    (disaster_radius : float) : outcome (list node) :=
  '(inside_nodes, outside_nodes) ←
    for_each (classify_node disaster_node disaster_radius) G ([], []);
  boundary_nodes ←
    for_each (boundary_of G outside_nodes) (set_iter inside_nodes) [];
  let exit_node_candidates := snd <$> boundary_nodes in
  Return (set_iter exit_node_candidates).

Definition get_disaster_exit_nodes (G : graph) (disaster_node : float * float)
    (disaster_radius : float) : outcome (list node) :=
  exit_node_candidates ← exit_node_candidates G disaster_node disaster_radius;
  exit_nodes_with_score ←
    for_each (score_candidate G disaster_node disaster_radius)
      exit_node_candidates [];
  let exit_nodes_with_score := sort_by_score_desc exit_nodes_with_score in
  let exit_nodes := fst <$> take max_exit_nodes exit_nodes_with_score in
  match exit_nodes, exit_node_candidates with
  | [], c :: _ => Return [c]
  | _, _ => Return exit_nodes
  end.

(** *** [a_star_evacuation] *)

Section Search.
Context (G : graph) (start_node : node) (disaster_node : float * float)
        (disaster_radius : float) (exit_nodes : list node).

Definition heuristic (n : node) : outcome float :=
  let '(disaster_lat, disaster_lon) := disaster_node in
  node_data ← G_nodes G n;
  match Node.x node_data, Node.y node_data with
  | Some nx, Some ny =>
      if get_is_water_node node_data then Return infinity
      else
        node_to_disaster_distance ←
          haversine_distance m ny nx disaster_lat disaster_lon;
        min_exit_distance ←
          for_each
            (λ min_exit_distance exit_node,
               exit_data ← G_nodes G exit_node;
               match Node.x exit_data, Node.y exit_data with
               | Some ex, Some ey =>
                   direct_distance ← haversine_distance m ny nx ey ex;
                   Return (py_min min_exit_distance direct_distance)
               | _, _ => Return min_exit_distance
               end)
            exit_nodes infinity;
        if node_to_disaster_distance <=? disaster_radius then
          border_factor ←
            py_div (1.5 * (disaster_radius - node_to_disaster_distance))
                   disaster_radius;
          Return (min_exit_distance * (1 + border_factor))
        else Return min_exit_distance
  | _, _ => Return infinity
  end.

(** The cost of reaching [neighbor] through [current]. *)
Definition tentative_g_score (g_current : float)
    (edge_data : list (Z * Edge.t)) : float :=
  let edge_length := keyed_get edge_data "length" 100 in
  let water_penalty :=
    if keyed_get edge_data "is_water" false then 10000 else 1 in
  g_current + edge_length * water_penalty.

(** Body of [for neighbor in G.neighbors(current)]. *)
Definition relax (current : node) (st : search) (neighbor : node)
  : outcome search :=
  neighbor_data ← G_nodes G neighbor;
  if get_is_water_node neighbor_data then Return st
  else
    let edge_data := G_get_edge_data G current neighbor in
    g_current ← getitem (g_score st !! current);
    let tentative := tentative_g_score g_current edge_data in
    g_neighbor ← getitem (g_score st !! neighbor);
    if tentative <? g_neighbor then
      h ← heuristic neighbor;
      let f_neighbor := tentative + h in
      let came_from' := <[neighbor := current]> (came_from st) in
      let g_score' := <[neighbor := tentative]> (g_score st) in
      let f_score' := <[neighbor := f_neighbor]> (f_score st) in
      if bool_decide (neighbor ∈ open_set_hash st)
      then Return (Search (open_set st) (open_set_hash st)
                          came_from' g_score' f_score')
      else Return (Search (pq_put (f_neighbor, neighbor) (open_set st))
                          (open_set_hash st ∪ {[neighbor]})
                          came_from' g_score' f_score')
    else Return st.

(** [while not open_set.empty()]; [Diverge] when the loop has not been
    left after [fuel] rounds. *)
Fixpoint a_star_loop (fuel : nat) (st : search) : outcome (option (list node)) :=
  match fuel with
  | O => Diverge
  | S fuel' =>
      match pq_get (open_set st) with
      | None => Return None
      | Some ((_, current), open_set') =>
          open_set_hash' ← set_remove current (open_set_hash st);
          if bool_decide (current ∈ exit_nodes) then
            path ← reconstruct_path (came_from st) start_node current;
            Return (Some path)
          else
            ns ← G_neighbors G current;
            st' ← for_each (relax current) ns
                    (Search open_set' open_set_hash' (came_from st)
                            (g_score st) (f_score st));
            a_star_loop fuel' st'
      end
  end.

(** The state when the loop is entered. *)
Definition initial_search (h_start : float) : search :=
  let all_inf : gmap node float :=
    list_to_map ((λ e, (e.1, infinity)) <$> G) in
  Search [(0, start_node)] {[start_node]} ∅
         (<[start_node := 0]> all_inf)
         (<[start_node := h_start]> all_inf).
End Search.

Definition a_star_evacuation (fuel : nat) (G : graph) (start_node : option node)
    (disaster_node : float * float) (disaster_radius : float)
  : outcome (option (list node)) :=
  match start_node with
  | None => Return None
  | Some start_node =>
      inside ← is_in_disaster_radius start_node disaster_node disaster_radius G;
      if negb inside then Return (Some [])
      else
        exit_nodes ← get_disaster_exit_nodes G disaster_node disaster_radius;
        match exit_nodes with
        | [] => Return None
        | _ =>
            h_start ← heuristic G disaster_node disaster_radius exit_nodes
                        start_node;
            a_star_loop G start_node disaster_node disaster_radius exit_nodes
              fuel (initial_search G start_node h_start)
        end
  end.
End Engine.

(** ** A platform and networks to run the engine on *)

(** A C library for the examples: Taylor polynomials, which agree with the
    usual C libraries to a dozen digits for the angles that occur there
    (below 0.01 radians), and a [pow] that squares ([2] is the only
    exponent of the engine) by the rounded product. *)
Definition taylor_sin (v : float) : float :=
  let v2 := v * v in
  v * (1 - v2 / 6 * (1 - v2 / 20 * (1 - v2 / 42))).
Definition taylor_cos (v : float) : float :=
  let v2 := v * v in
  1 - v2 / 2 * (1 - v2 / 12 * (1 - v2 / 30 * (1 - v2 / 56))).
Definition taylor_asin (v : float) : float :=
  let v2 := v * v in
  v * (1 + v2 / 6 * (1 + v2 * 9 / 20 * (1 + v2 * 25 / 42))).

Definition square_pow (v w : float) : float := v * v.

Definition small_angle_libm : libm :=
  {| c_sin := taylor_sin; c_cos := taylor_cos; c_asin := taylor_asin;
     c_pow := square_pow |}.

(** Iteration of a set of small integers: by increasing value, once each. *)
Definition set_iter_sorted (l : list node) : list node :=
  merge_sort Z.le (remove_dups l).

(** A node at [(lat, lon)] with its ['is_water'] flag. *)
Definition node_at (lat lon : float) (is_water : bool) : Node.t :=
  Node.mk (Some lon) (Some lat) None None None None None None (Some is_water).

(** An annotated road of the given class and length. *)
Definition road (highway : string) (length : float) (is_water : bool) : Edge.t :=
  Edge.mk (Some length) (Some highway) None None None None (Some is_water).

(** The hazard of the examples: centre [(0, 0)], radius 1000 m.  On the
    equator a longitude of 0.001 degrees is 111.2 m. *)
Definition hazard_center : float * float := (0, 0).
Definition hazard_radius : float := 1000.

(** A chain 1 - 2 - 3 at 445 m, 890 m and 1056 m from the centre; the
    person stands on node 1, which is flagged as water. *)
Definition chain_from_water : graph :=
  [ (1%Z, Vertex (node_at 0 0.004 true)
            [(2%Z, road "residential" 445 false)]);
    (2%Z, Vertex (node_at 0 0.008 false)
            [(1%Z, road "residential" 445 false);
             (3%Z, road "residential" 167 false)]);
    (3%Z, Vertex (node_at 0 0.0095 false)
            [(2%Z, road "residential" 167 false)]) ].

(** A junction: node 2, 1056 m from the centre, lies on a residential
    street towards node 1 (inside) and on a primary road towards node 3. *)
Definition junction : graph :=
  [ (1%Z, Vertex (node_at 0 0.008 false)
            [(2%Z, road "residential" 167 false)]);
    (2%Z, Vertex (node_at 0 0.0095 false)
            [(1%Z, road "residential" 167 false);
             (3%Z, road "primary" 500 false)]);
    (3%Z, Vertex (node_at 0 0.014 false)
            [(2%Z, road "primary" 500 false)]) ].

(** The chain again, all on land, where node 1 carries no coordinates. *)
Definition chain_without_coordinates : graph :=
  [ (1%Z, Vertex (Node.mk None None None None None None None None (Some false))
            [(2%Z, road "residential" 445 false)]);
    (2%Z, Vertex (node_at 0 0.008 false)
            [(1%Z, road "residential" 445 false);
             (3%Z, road "residential" 167 false)]);
    (3%Z, Vertex (node_at 0 0.0095 false)
            [(2%Z, road "residential" 167 false)]) ].

(** A raw network in the store: two nodes tagged as water, joined in both
    directions by a bridge that also carries a waterway tag. *)
Definition river_crossing_store : store :=
  Store
    {[ 1%positive := Node.mk (Some 0.004) (Some 0) (Some "water"%string)
                       None None None None None None;
       2%positive := Node.mk (Some 0.008) (Some 0) None (Some "river"%string)
                       None None None None None ]}
    {[ 1%positive := Edge.mk (Some 445) (Some "primary"%string)
                       (Some "yes"%string) (Some "river"%string) None None None;
       2%positive := Edge.mk (Some 445) (Some "primary"%string)
                       (Some "yes"%string) (Some "river"%string) None None None ]}.

Definition river_crossing : graph_ref :=
  [ (1%Z, Vertex 1%positive [(2%Z, 1%positive)]);
    (2%Z, Vertex 2%positive [(1%Z, 2%positive)]) ].

(** A single node inside the radius: there is no way out. *)
Definition isolated : graph :=
  [ (1%Z, Vertex (node_at 0 0.004 false) []) ].

(** A single node on the hazard centre: its distance from the centre is 0
    whatever the C library is. *)
Definition at_centre : graph :=
  [ (1%Z, Vertex (node_at 0 0 false) []) ].

(** A ford: node 1 (890 m) and node 2 (1056 m) are joined, in both
    directions, by a street of 167 m that is flagged as water. *)
Definition ford : graph :=
  [ (1%Z, Vertex (node_at 0 0.008 false)
            [(2%Z, road "residential" 167 true)]);
    (2%Z, Vertex (node_at 0 0.0095 false)
            [(1%Z, road "residential" 167 true)]) ].

(** The junction with the two streets of node 2 entered in the other
    order. *)
Definition junction_reordered : graph :=
  [ (1%Z, Vertex (node_at 0 0.008 false)
            [(2%Z, road "residential" 167 false)]);
    (2%Z, Vertex (node_at 0 0.0095 false)
            [(3%Z, road "primary" 500 false);
             (1%Z, road "residential" 167 false)]);
    (3%Z, Vertex (node_at 0 0.014 false)
            [(2%Z, road "primary" 500 false)]) ].

(** A fork: from node 1 (890 m) a residential street leads to node 2
    (1056 m) and a primary road to node 3 (1023 m). *)
Definition fork : graph :=
  [ (1%Z, Vertex (node_at 0 0.008 false)
            [(2%Z, road "residential" 167 false);
             (3%Z, road "primary" 133 false)]);
    (2%Z, Vertex (node_at 0 0.0095 false)
            [(1%Z, road "residential" 167 false)]);
    (3%Z, Vertex (node_at 0 0.0092 false)
            [(1%Z, road "primary" 133 false)]) ].

(** ** Predicates of the statements *)

(** The node is in the network and not flagged as water. *)
Definition on_land (G : graph) (n : node) : Prop :=
  ∃ d, G_nodes G n = Return d ∧ get_is_water_node d = false.

(** The node is in the network and flagged as water. *)
Definition in_water (G : graph) (n : node) : Prop :=
  ∃ d, G_nodes G n = Return d ∧ get_is_water_node d = true.

(** [b] is a neighbour of [a]. *)
Definition adjacent (G : graph) (a b : node) : Prop :=
  ∃ ns, G_neighbors G a = Return ns ∧ b ∈ ns.

(** Consecutive elements are related. *)
Definition linked (R : node → node → Prop) (l : list node) : Prop :=
  ∀ i a b, l !! i = Some a → l !! S i = Some b → R a b.

(** The route only follows edges of the network. *)
Definition follows_edges (G : graph) (path : list node) : Prop :=
  linked (adjacent G) path.

(** The nodes visited by the back-pointer walk from a node. *)
Inductive chain (cf : gmap node node) : node → list node → Prop :=
| chain_end c : cf !! c = None → chain cf c []
| chain_step c p l : cf !! c = Some p → chain cf p l → chain cf c (c :: l).

(** Invariant of the search: a back-pointer leads from a node on land to a
    node it is a neighbour of, and that node and every node of the frontier
    is the start node or has a back-pointer itself. *)
Definition search_inv (G : graph) (start_node : node) (st : search) : Prop :=
  (∀ k v, came_from st !! k = Some v →
     adjacent G v k ∧ on_land G k
     ∧ (v = start_node ∨ is_Some (came_from st !! v)))
  ∧ (∀ e, e ∈ open_set st →
       e.2 = start_node ∨ is_Some (came_from st !! e.2)).

(** Every dictionary of the first store is in the second one, unchanged. *)
Definition store_le (s t : store) : Prop :=
  node_attrs s ⊆ node_attrs t ∧ edge_attrs s ⊆ edge_attrs t.

(** Two edge dictionaries agree on every key but ['is_water']. *)
Definition same_tags (d d' : Edge.t) : Prop :=
  Edge.set_is_water false d = Edge.set_is_water false d'.

(** Every reference of the graph object is allocated. *)
Definition allocated (s : store) (G : graph_ref) : Prop :=
  Forall (λ e : node * vertex loc loc,
            is_Some (node_attrs s !! data e.2)
            ∧ Forall (λ f : node * loc, is_Some (edge_attrs s !! f.2))
                     (nbrs e.2)) G.

(** [es'] copies the adjacency [es] of store [s] into fresh dictionaries
    of store [t]. *)
Definition copied_nbrs (s t : store) (es es' : list (node * loc)) : Prop :=
  Forall2 (λ e e' : node * loc,
             e'.1 = e.1
             ∧ edge_attrs s !! e'.2 = None
             ∧ is_Some (edge_attrs t !! e'.2)
             ∧ ∀ d, edge_attrs s !! e.2 = Some d → edge_attrs t !! e'.2 = Some d)
          es es'.

(** [G'] copies the graph object [G] of store [s] into fresh dictionaries
    of store [t]. *)
Definition copied_graph (s t : store) (G G' : graph_ref) : Prop :=
  Forall2 (λ e e' : node * vertex loc loc,
             e'.1 = e.1
             ∧ node_attrs s !! data e'.2 = None
             ∧ is_Some (node_attrs t !! data e'.2)
             ∧ (∀ d, node_attrs s !! data e.2 = Some d →
                     node_attrs t !! data e'.2 = Some d)
             ∧ copied_nbrs s t (nbrs e.2) (nbrs e'.2))
          G G'.

(** The place of a number in the order of binary64: its class, then its
    exponent and mantissa. *)
Definition sf_key (v : spec_float) : Z * Z * Z :=
  match v with
  | S754_zero _ => (0, 0, 0)%Z
  | S754_infinity s => (if s then -2 else 2, 0, 0)%Z
  | S754_nan => (0, 0, 0)%Z
  | S754_finite s m e => if s then (-1, - e, Zneg m)%Z else (1, e, Zpos m)%Z
  end.

(** Comparison of two places. *)
Definition lex (a b : Z * Z * Z) : comparison :=
  match (a.1.1 ?= b.1.1)%Z with
  | Eq => match (a.1.2 ?= b.1.2)%Z with
          | Eq => (a.2 ?= b.2)%Z
          | c => c
          end
  | c => c
  end.

(** The float is a number or an infinity. *)
Definition not_nan (f : float) : Prop := Prim2SF f ≠ S754_nan.

(** Zero or a finite number. *)
Definition sf_real (v : spec_float) : Prop :=
  match v with
  | S754_zero _ | S754_finite _ _ _ => True
  | _ => False
  end.

(** The score of an exit candidate. *)
Definition exit_score (m : libm) (G : graph) (disaster_node : float * float)
    (disaster_radius : float) (node_id : node) : outcome float :=
  node_data ← G_nodes G node_id;
  ny ← getitem (Node.y node_data);
  nx ← getitem (Node.x node_data);
  distance ← haversine_distance m ny nx disaster_node.1 disaster_node.2;
  Return (proximity_score distance disaster_radius + road_score G node_id)%float.

(** The node is on land, with coordinates, behind the radius and within
    the buffer. *)
Definition in_buffer (m : libm) (G : graph) (disaster_node : float * float)
    (disaster_radius : float) (node_id : node) : Prop :=
  ∃ node_data ny nx distance,
    G_nodes G node_id = Return node_data
    ∧ Node.y node_data = Some ny
    ∧ Node.x node_data = Some nx
    ∧ get_is_water_node node_data = false
    ∧ haversine_distance m ny nx disaster_node.1 disaster_node.2
      = Return distance
    ∧ (distance <=? disaster_radius)%float = false
    ∧ (distance <=? disaster_radius + buffer_distance)%float = true.

(** Scores in decreasing order. *)
Definition by_score_desc (a b : node * float) : Prop :=
  (b.2 <=? a.2)%float = true.

(** ** The rest of the engine *)

(** [evacuation_algorithm.get_path_coordinates]; [path] is what
    [a_star_evacuation] returned. *)
Definition get_path_coordinates (G : graph) (path : option (list node))
  : outcome (list (float * float)) :=
  match path with
  | None | Some [] => Return []
  | Some path =>
      for_each
        (λ coordinates node_id,
           node_data ← G_nodes G node_id;
           match Node.x node_data, Node.y node_data with
           | Some nx, Some ny => Return (coordinates ++ [(ny, nx)])
           | _, _ => Return coordinates
           end)
        path []
  end.

(** The fallback of [data_processing.get_nearest_node]: a scan of the
    nodes that keeps the first node strictly closer than all before it. *)
Definition nearest_node_scan (m : libm) (G : graph) (lat lon : float)
  : outcome (option node) :=
  found ←
    for_each
      (λ (acc : float * option node) (entry : node * vertex Node.t Edge.t),
         let '(min_distance, nearest_node) := acc in
         let '(node_id, vx) := entry in
         let node_data := data vx in
         match Node.x node_data, Node.y node_data with
         | Some node_lon, Some node_lat =>
             distance ← haversine_distance m lat lon node_lat node_lon;
             if distance <? min_distance
             then Return (distance, Some node_id)
             else Return acc
         | _, _ => Return acc
         end)
      G (infinity, None);
  Return found.2.

(** [data_processing.get_nearest_node]; [ox_nearest_nodes] is the outcome
    of the call [ox.distance.nearest_nodes(G, lon, lat)] of the external
    library, and any exception of it leads to the scan. *)
Definition get_nearest_node (ox_nearest_nodes : outcome node) (m : libm)
    (G : graph) (lat lon : float) : outcome (option node) :=
  match ox_nearest_nodes with
  | Return nearest_node => Return (Some nearest_node)
  | Raise _ => nearest_node_scan m G lat lon
  | Diverge => Diverge
  end.

(** [data_processing.find_exit_nodes].  [G.edges()] is every adjacency
    entry; a two-way street is seen in both directions, which adds the same
    node to the set twice. *)
Definition find_exit_nodes (m : libm) (set_iter : list node → list node)
    (G : graph) (disaster_node : float * float) (disaster_radius : float)
  : outcome (list node) :=
  let '(disaster_lat, disaster_lon) := disaster_node in
  exit_nodes ←
    for_each
      (λ (exit_nodes : list node) (edge : node * node * Edge.t),
         let '(u, v, _) := edge in
         u_data ← G_nodes G u;
         v_data ← G_nodes G v;
         match Node.x u_data, Node.y u_data, Node.x v_data, Node.y v_data with
         | Some ux, Some uy, Some vx, Some vy =>
             u_distance ← haversine_distance m uy ux disaster_lat disaster_lon;
             v_distance ← haversine_distance m vy vx disaster_lat disaster_lon;
             if (u_distance <=? disaster_radius) && (disaster_radius <? v_distance)
             then Return (exit_nodes ++ [v])
             else if (v_distance <=? disaster_radius)
                     && (disaster_radius <? u_distance)
             then Return (exit_nodes ++ [u])
             else Return exit_nodes
         | _, _, _, _ => Return exit_nodes
         end)
      (G_edges G) [];
  Return (set_iter exit_nodes).

(** [map_utils.check_if_in_radius], which carries its own copy of the
    haversine formula. *)
Module MapUtils.
Definition check_if_in_radius (m : libm) (point center : float * float)
    (radius : float) : outcome bool :=
  let '(lat1, lon1) := point in
  let '(lat2, lon2) := center in
  let lat1 := math_radians lat1 in
  let lon1 := math_radians lon1 in
  let lat2 := math_radians lat2 in
  let lon2 := math_radians lon2 in
  let dlon := lon2 - lon1 in
  let dlat := lat2 - lat1 in
  s1 ← math_sin m (dlat / 2);
  c1 ← math_cos m lat1;
  c2 ← math_cos m lat2;
  s2 ← math_sin m (dlon / 2);
  let a := float_pow_2 m s1 + c1 * c2 * float_pow_2 m s2 in
  q ← math_sqrt a;
  t ← math_asin m q;
  let c := 2 * t in
  let r := 6371000 in
  let distance := c * r in
  Return (distance <=? radius).
End MapUtils.

(** ** Further predicates and networks *)

(** The coordinate [(lat, lon)] the materializer emits for a node. *)
Definition coordinates_of (G : graph) (n : node) : option (float * float) :=
  vx ← assoc n G;
  match Node.x (data vx), Node.y (data vx) with
  | Some nx, Some ny => Some (ny, nx)
  | _, _ => None
  end.

(** The node is on land, with coordinates, within the radius. *)
Definition inside_on_land (m : libm) (G : graph) (disaster_node : float * float)
    (disaster_radius : float) (node_id : node) : Prop :=
  ∃ node_data ny nx distance,
    G_nodes G node_id = Return node_data
    ∧ Node.y node_data = Some ny
    ∧ Node.x node_data = Some nx
    ∧ get_is_water_node node_data = false
    ∧ haversine_distance m ny nx disaster_node.1 disaster_node.2
      = Return distance
    ∧ (distance <=? disaster_radius)%float = true.

(** The flag the annotator computes for a node of a network. *)
Definition flag_of (G : graph) (n : node) : option bool :=
  (λ vx, node_is_water (data vx)) <$> assoc n G.

(** The edge carries one of the tags ['waterway'], ['water'], ['natural']. *)
Definition edge_has_water_tag (d : Edge.t) : bool :=
  has_key (Edge.waterway d) || has_key (Edge.water d) || has_key (Edge.natural d).

(** Two nodes 55 m apart, the first one on the hazard centre. *)
Definition doorstep : graph :=
  [ (1%Z, Vertex (node_at 0 0 false) [(2%Z, road "residential" 55 false)]);
    (2%Z, Vertex (node_at 0 0.0005 false)
            [(1%Z, road "residential" 55 false)]) ].

(** A node the scan can use, and its distance from the position. *)
Definition usable_at (m : libm) (G : graph) (lat lon : float) (n : node)
    (d : float) : Prop :=
  ∃ vx ny nx,
    (n, vx) ∈ G ∧ Node.y (data vx) = Some ny ∧ Node.x (data vx) = Some nx
    ∧ haversine_distance m lat lon ny nx = Return d.

(** How the entries [G'] read against the entries [G] they were made
    from, the flags of the end points being looked up in [G0]. *)
Definition annotated_within (G0 G G' : graph) : Prop :=
  Forall2
    (λ e e' : node * vertex Node.t Edge.t,
       e'.1 = e.1
       ∧ data e'.2 = Node.set_is_water (node_is_water (data e.2)) (data e.2)
       ∧ Forall2
           (λ f f' : node * Edge.t,
              f'.1 = f.1
              ∧ ∃ node_u_in_water node_v_in_water,
                  flag_of G0 e.1 = Some node_u_in_water
                  ∧ flag_of G0 f.1 = Some node_v_in_water
                  ∧ f'.2 = Edge.set_is_water
                             (edge_is_water node_u_in_water node_v_in_water f.2)
                             f.2)
           (nbrs e.2) (nbrs e'.2))
    G G'.

(** How the annotated network [G'] reads against the network [G] it was
    made from. *)
Definition annotated_from (G G' : graph) : Prop := annotated_within G G G'.

(** The node has coordinates and lies [d] metres from the centre. *)
Definition distance_from (m : libm) (G : graph) (disaster_node : float * float)
    (n : node) (d : float) : Prop :=
  ∃ nd ny nx,
    G_nodes G n = Return nd
    ∧ Node.y nd = Some ny
    ∧ Node.x nd = Some nx
    ∧ haversine_distance m ny nx disaster_node.1 disaster_node.2 = Return d.

(** [u] is within the radius and [v] strictly beyond it. *)
Definition straddles (m : libm) (G : graph) (disaster_node : float * float)
    (disaster_radius : float) (u v : node) : Prop :=
  ∃ u_distance v_distance,
    distance_from m G disaster_node u u_distance
    ∧ distance_from m G disaster_node v v_distance
    ∧ (u_distance <=? disaster_radius)%float = true
    ∧ (disaster_radius <? v_distance)%float = true.

(** [G.edges()] lists an edge from [u] to [v]. *)
Definition joined (G : graph) (u v : node) : Prop :=
  ∃ d, (u, v, d) ∈ G_edges G.

(** Every edge leads to a node of the network. *)
Definition closed {N E : Type} (G : graph_of N E) : Prop :=
  ∀ u v d, (u, v, d) ∈ G_edges G → is_Some (assoc v G).

(** The queue and its membership set hold the same nodes, each once. *)
Definition frontier_sync (st : search) : Prop :=
  NoDup (open_set st).*2 ∧ ∀ n, n ∈ (open_set st).*2 ↔ n ∈ open_set_hash st.

(** * Properties *)

Local Close Scope float_scope.

(** ** Outcomes and loops *)

Lemma bind_Return {A B : Type} (f : A → outcome B) (o : outcome A) (b : B) :
  o ≫= f = Return b ↔ ∃ a, o = Return a ∧ f a = Return b.
Proof.
  split.
  - destruct o as [a| |]; simpl; [eauto | discriminate | discriminate].
  - intros (a & -> & Hf). exact Hf.
Qed.

Lemma getitem_Return {V : Type} (o : option V) (v : V) :
  getitem o = Return v ↔ o = Some v.
Proof. destruct o; simpl; split; intros; simplify_eq; done. Qed.

(** Inversion of a computation that returned. *)
Ltac inv_ret H :=
  lazymatch type of H with
  | (_ ≫= _) = Return _ =>
      let a := fresh "a" in
      let Ha := fresh "Ha" in
      apply bind_Return in H as (a & Ha & H); inv_ret Ha; inv_ret H
  | getitem _ = Return _ => apply getitem_Return in H
  | Return _ = Return _ => injection H as H; try subst
  | Raise _ = Return _ => discriminate H
  | Diverge = Return _ => discriminate H
  | _ => idtac
  end.

(** The loop rule: an invariant of the traversed prefix and the state. *)
Lemma for_each_ind {A S : Type} (body : S → A → outcome S)
    (P : list A → S → Prop) (l : list A) (s0 s' : S) :
  P [] s0 →
  (∀ pre a s t, a ∈ l → P pre s → body s a = Return t → P (pre ++ [a]) t) →
  for_each body l s0 = Return s' →
  P l s'.
Proof.
  revert P s0. induction l as [|a l IH]; intros P s0 Hinit Hstep Hrun.
  - simpl in Hrun. by simplify_eq.
  - simpl in Hrun. apply bind_Return in Hrun as (s1 & Hbody & Hrun).
    apply (IH (λ pre s, P (a :: pre) s) s1); [| |done].
    + apply (Hstep [] a s0 s1); [left|done|done].
    + intros pre b s t Hb HP Hbd. apply (Hstep (a :: pre) b s t); [by right|done|done].
Qed.

(** The same rule for an invariant of the state alone. *)
Lemma for_each_inv {A S : Type} (body : S → A → outcome S) (P : S → Prop)
    (l : list A) (s0 s' : S) :
  P s0 →
  (∀ a s t, a ∈ l → P s → body s a = Return t → P t) →
  for_each body l s0 = Return s' →
  P s'.
Proof.
  intros Hinit Hstep. apply (for_each_ind body (λ _, P)); [done|].
  intros pre a s t. apply Hstep.
Qed.

(** ** Floating-point comparisons *)

Lemma eqb_leb (a b : float) : (a =? b)%float = true → (a <=? b)%float = true.
Proof.
  rewrite FloatAxioms.eqb_spec, leb_spec. unfold SFeqb, SFleb.
  by destruct (SFcompare _ _) as [[]|].
Qed.

(** ** The membership test (C6) *)

Section Membership.
Context (m : libm).

Lemma check_if_in_radius_spec (point center : float * float) (radius : float)
    (b : bool) :
  check_if_in_radius m point center radius = Return b ↔
  ∃ d, haversine_distance m point.1 point.2 center.1 center.2 = Return d
       ∧ b = (d <=? radius)%float.
Proof.
  destruct point as [lat1 lon1], center as [lat2 lon2]. unfold check_if_in_radius.
  rewrite bind_Return. simpl. split.
  - intros (d & Hd & Hb). exists d. by simplify_eq.
  - intros (d & Hd & ->). by exists d.
Qed.

Lemma is_in_disaster_radius_spec (G : graph) (point : node)
    (disaster_node : float * float) (radius : float) (b : bool) :
  is_in_disaster_radius m point disaster_node radius G = Return b ↔
  ∃ nd ny nx d,
    G_nodes G point = Return nd ∧ Node.y nd = Some ny ∧ Node.x nd = Some nx
    ∧ haversine_distance m ny nx disaster_node.1 disaster_node.2 = Return d
    ∧ b = (d <=? radius)%float.
Proof.
  destruct disaster_node as [lat lon]. unfold is_in_disaster_radius. simpl. split.
  - intros H. inv_ret H. eauto 10.
  - intros (nd & ny & nx & d & Hnd & Hy & Hx & Hd & ->).
    rewrite Hnd. simpl. rewrite Hy, Hx. simpl. by rewrite Hd.
Qed.
End Membership.

(** ** The search follows the network and stays on land (C1, C10) *)

Lemma pq_get_elem (q r : list (float * node)) (e : float * node) :
  pq_get q = Some (e, r) → e ∈ q ∧ r ⊆ q.
Proof.
  revert e r. induction q as [|a q IH]; intros e r H; [done|].
  simpl in H. destruct (pq_get q) as [[e' r']|] eqn:Hq.
  - destruct (IH _ _ eq_refl) as [He' Hr'].
    destruct (tuple_lt e' a); simplify_eq.
    + split; [by right|]. intros z Hz. apply elem_of_cons in Hz as [->|Hz]; [left|right; auto].
    + split; [left|]. intros z Hz. by right.
  - simplify_eq. split; [left|]. intros z Hz. by apply elem_of_nil in Hz.
Qed.

Lemma linked_snoc (R : node → node → Prop) (l : list node) (b : node) :
  linked R l → (∀ a, last l = Some a → R a b) → linked R (l ++ [b]).
Proof.
  intros Hl Hlast i a c Ha Hc.
  destruct (decide (S i < length l)) as [Hlt|Hge].
  - rewrite lookup_app_l in Ha by lia. rewrite lookup_app_l in Hc by lia. eauto.
  - assert (Hi : S i = length l).
    { apply lookup_lt_Some in Hc. rewrite length_app in Hc. simpl in Hc. lia. }
    rewrite lookup_app_l in Ha by lia.
    rewrite Hi, lookup_app_r in Hc by lia.
    replace (length l - length l) with 0 in Hc by lia. simpl in Hc. simplify_eq.
    apply Hlast. rewrite last_lookup. by replace (pred (length l)) with i by lia.
Qed.

Lemma walk_back_chain (cf : gmap node node) (fuel : nat) (c : node)
    (path r : list node) :
  walk_back fuel cf c path = Return r → ∃ l, r = path ++ l ∧ chain cf c l.
Proof.
  revert c path. induction fuel as [|fuel IH]; intros c path H; [done|].
  simpl in H. destruct (cf !! c) as [p|] eqn:Hc.
  - apply IH in H as (l & -> & Hl). exists (c :: l).
    split; [by rewrite <- app_assoc | by eapply chain_step].
  - simplify_eq. exists []. split; [by rewrite app_nil_r | by constructor].
Qed.

Section SearchInvariant.
Context (m : libm) (G : graph) (start_node : node)
        (disaster_node : float * float) (disaster_radius : float)
        (exit_nodes : list node).

Local Abbreviation relax' := (relax m G disaster_node disaster_radius exit_nodes).
Local Abbreviation a_star_loop' :=
  (a_star_loop m G start_node disaster_node disaster_radius exit_nodes).

Lemma search_inv_initial (h_start : float) :
  search_inv G start_node (initial_search G start_node h_start).
Proof.
  split; simpl.
  - intros k v Hk. by rewrite lookup_empty in Hk.
  - intros e He. apply list_elem_of_singleton in He as ->. by left.
Qed.

(** What one round of the neighbour loop does to the state. *)
Lemma relax_cases (current neighbor : node) (st st' : search) :
  relax' current st neighbor = Return st' →
  st' = st ∨
  (on_land G neighbor
   ∧ came_from st' = <[neighbor := current]> (came_from st)
   ∧ (∃ g_current,
        g_score st !! current = Some g_current
        ∧ g_score st' =
            <[neighbor := tentative_g_score g_current
                            (G_get_edge_data G current neighbor)]> (g_score st))
   ∧ (open_set st' = open_set st
      ∨ ∃ f, open_set st' = pq_put (f, neighbor) (open_set st))).
Proof.
  unfold relax. intros H.
  apply bind_Return in H as (nd & Hnd & H).
  destruct (get_is_water_node nd) eqn:Hw; [left; by simplify_eq|].
  apply bind_Return in H as (gc & Hgc & H). apply getitem_Return in Hgc.
  apply bind_Return in H as (gn & Hgn & H).
  destruct (_ <? gn)%float; [|left; by simplify_eq].
  apply bind_Return in H as (h & Hh & H).
  right. split; [by exists nd|].
  destruct (bool_decide _); simplify_eq; simpl; eauto 10.
Qed.

Lemma relax_inv (current neighbor : node) (st st' : search) :
  adjacent G current neighbor →
  search_inv G start_node st
  ∧ (current = start_node ∨ is_Some (came_from st !! current)) →
  relax' current st neighbor = Return st' →
  search_inv G start_node st'
  ∧ (current = start_node ∨ is_Some (came_from st' !! current)).
Proof.
  intros Hadj [[Hcf Hopen] Hcur] H.
  apply relax_cases in H as [->|(Hland & Hcf' & _ & Hopen')]; [done|].
  assert (Hkeep : ∀ v, v = start_node ∨ is_Some (came_from st !! v) →
                       v = start_node ∨ is_Some (came_from st' !! v)).
  { intros v [->|Hv]; [by left|right]. rewrite Hcf'.
    destruct (decide (neighbor = v)) as [->|Hne].
    - rewrite lookup_insert_eq. eauto.
    - by rewrite lookup_insert_ne. }
  split; [split|by apply Hkeep].
  - intros k v Hk. rewrite Hcf' in Hk.
    destruct (decide (neighbor = k)) as [->|Hne].
    + rewrite lookup_insert_eq in Hk. simplify_eq. auto.
    + rewrite lookup_insert_ne in Hk by done.
      destruct (Hcf _ _ Hk) as (? & ? & ?). auto.
  - intros e He. destruct Hopen' as [Heq|[f Heq]]; rewrite Heq in He.
    + apply Hkeep, Hopen, He.
    + unfold pq_put in He. apply elem_of_app in He as [He|He].
      * apply Hkeep, Hopen, He.
      * apply list_elem_of_singleton in He as ->. simpl. right.
        rewrite Hcf', lookup_insert_eq. eauto.
Qed.

(** The walk from a node of the frontier ends at the start node; read
    backwards it is a route over the network through nodes on land. *)
Lemma chain_route (st : search) (c : node) (l : list node) :
  search_inv G start_node st →
  c = start_node ∨ is_Some (came_from st !! c) →
  chain (came_from st) c l →
  head (l ++ [start_node]) = Some c
  ∧ Forall (on_land G) l
  ∧ follows_edges G (reverse (l ++ [start_node])).
Proof.
  intros [Hcf _] Hc Hchain. induction Hchain as [c Hnone|c p l Hp Hchain IH].
  - destruct Hc as [->|[? Hc]]; [|congruence].
    repeat split; [constructor|]. intros i a b Ha Hb.
    apply lookup_lt_Some in Hb. simpl in Hb. lia.
  - destruct (Hcf _ _ Hp) as (Hadj & Hland & Hp').
    destruct (IH Hp') as (Hhead & Hall & Hlinked).
    repeat split; [by constructor|].
    simpl. rewrite reverse_cons. apply linked_snoc; [done|].
    intros a Ha. rewrite last_reverse, Hhead in Ha. by simplify_eq.
Qed.

Lemma a_star_loop_route (fuel : nat) (st : search) (path : list node) :
  search_inv G start_node st →
  a_star_loop' fuel st = Return (Some path) →
  ∃ rest, path = start_node :: rest
          ∧ Forall (on_land G) rest
          ∧ follows_edges G path.
Proof.
  revert st. induction fuel as [|fuel IH]; intros st Hinv H; [done|].
  simpl in H. destruct (pq_get (open_set st)) as [[[f current] q']|] eqn:Hget;
    [|by simplify_eq].
  apply pq_get_elem in Hget as [Hin Hsub].
  apply bind_Return in H as (hash' & _ & H).
  assert (Hcur : current = start_node ∨ is_Some (came_from st !! current)).
  { destruct Hinv as [_ Hopen]. apply (Hopen _ Hin). }
  destruct (bool_decide (current ∈ exit_nodes)).
  - apply bind_Return in H as (p & Hp & H). simplify_eq.
    unfold reconstruct_path in Hp. apply bind_Return in Hp as (w & Hw & Hp).
    simplify_eq. apply walk_back_chain in Hw as (l & -> & Hl). simpl.
    destruct (chain_route st current l Hinv Hcur Hl) as (_ & Hall & Hlinked).
    exists (reverse l). rewrite reverse_app, reverse_singleton in Hlinked |- *.
    repeat split; [|done]. by apply Forall_reverse.
  - apply bind_Return in H as (ns & Hns & H).
    apply bind_Return in H as (st' & Hloop & H).
    apply (IH st'); [|done].
    refine (proj1 (for_each_inv (relax' current)
      (λ s, search_inv G start_node s
            ∧ (current = start_node ∨ is_Some (came_from s !! current)))
      ns _ st' _ _ Hloop)).
    + split; [|done]. destruct Hinv as [Hcf Hopen]. split; [done|].
      simpl. intros e He. apply Hopen, Hsub, He.
    + intros a s t Ha Hs Hrel. eapply relax_inv; [|done..]. by exists ns.
Qed.
End SearchInvariant.

Section Route.
Context (m : libm) (set_iter : list node → list node).

Local Abbreviation a_star_evacuation' := (a_star_evacuation m set_iter).

(** What [a_star_evacuation] returns for a start node inside the radius
    comes out of the search loop or is the absence value. *)
Lemma a_star_evacuation_inside (fuel : nat) (G : graph) (start_node : node)
    (disaster_node : float * float) (disaster_radius : float)
    (r : option (list node)) :
  is_in_disaster_radius m start_node disaster_node disaster_radius G = Return true →
  a_star_evacuation' fuel G (Some start_node) disaster_node disaster_radius = Return r →
  r = None ∨
  ∃ exit_nodes h_start,
    a_star_loop m G start_node disaster_node disaster_radius exit_nodes fuel
      (initial_search G start_node h_start) = Return r.
Proof.
  intros Hin H. unfold a_star_evacuation in H. rewrite Hin in H.
  simpl in H. apply bind_Return in H as (exits & Hexits & H).
  destruct exits as [|e exits]; [left; by simplify_eq|].
  apply bind_Return in H as (h & Hh & H). right. eauto.
Qed.

Lemma a_star_evacuation_route (fuel : nat) (G : graph) (start_node : node)
    (disaster_node : float * float) (disaster_radius : float)
    (path : list node) :
  a_star_evacuation' fuel G (Some start_node) disaster_node disaster_radius
  = Return (Some path) →
  path = [] ∨
  ∃ rest, path = start_node :: rest
          ∧ Forall (on_land G) rest
          ∧ follows_edges G path.
Proof.
  intros H. pose proof H as H'. unfold a_star_evacuation in H'.
  apply bind_Return in H' as ([|] & Hin & H').
  - right. destruct (a_star_evacuation_inside _ _ _ _ _ _ Hin H)
      as [?|(exits & h & Hloop)]; [done|].
    eapply a_star_loop_route; [apply search_inv_initial|done].
  - left. simpl in H'. by simplify_eq.
Qed.

(** C1, as the code has it: every node of a returned route after its first
    one is in the network and not flagged as water; the first node is the
    start node, whatever its flag. *)
Theorem route_avoids_water_after_start (fuel : nat) (G : graph)
    (start_node : node) (disaster_node : float * float)
    (disaster_radius : float) (path : list node) :
  a_star_evacuation' fuel G (Some start_node) disaster_node disaster_radius
  = Return (Some path) →
  path ≠ [] →
  ∃ rest, path = start_node :: rest ∧ Forall (on_land G) rest.
Proof.
  intros H Hne.
  destruct (a_star_evacuation_route _ _ _ _ _ _ H) as [?|(rest & ? & ? & _)];
    [done|eauto].
Qed.

(** C10: consecutive nodes of a returned route are joined by an edge of the
    network, from the earlier to the later one. *)
Theorem route_follows_edges (fuel : nat) (G : graph) (start_node : node)
    (disaster_node : float * float) (disaster_radius : float)
    (path : list node) (i : nat) (a b : node) :
  a_star_evacuation' fuel G (Some start_node) disaster_node disaster_radius
  = Return (Some path) →
  path !! i = Some a →
  path !! S i = Some b →
  ∃ ns, G_neighbors G a = Return ns ∧ b ∈ ns.
Proof.
  intros H Ha Hb.
  destruct (a_star_evacuation_route _ _ _ _ _ _ H) as [->|(rest & _ & _ & Hl)];
    [done|]. exact (Hl i a b Ha Hb).
Qed.

(** C3: the three early exits are taken before the search, in this order:
    no start node gives the absence value; a start node the membership test
    puts outside the radius gives the empty route; no exit node gives the
    absence value; otherwise the result is that of the search loop, entered
    with the heuristic of the start node. *)
Theorem early_exits_before_search (fuel : nat) (G : graph) (start_node : node)
    (disaster_node : float * float) (disaster_radius : float) :
  a_star_evacuation' fuel G None disaster_node disaster_radius = Return None
  ∧ (is_in_disaster_radius m start_node disaster_node disaster_radius G
     = Return false →
     a_star_evacuation' fuel G (Some start_node) disaster_node disaster_radius
     = Return (Some []))
  ∧ (is_in_disaster_radius m start_node disaster_node disaster_radius G
     = Return true →
     get_disaster_exit_nodes m set_iter G disaster_node disaster_radius
     = Return [] →
     a_star_evacuation' fuel G (Some start_node) disaster_node disaster_radius
     = Return None)
  ∧ (∀ exit_nodes,
       is_in_disaster_radius m start_node disaster_node disaster_radius G
       = Return true →
       get_disaster_exit_nodes m set_iter G disaster_node disaster_radius
       = Return exit_nodes →
       exit_nodes ≠ [] →
       a_star_evacuation' fuel G (Some start_node) disaster_node disaster_radius
       = h_start ← heuristic m G disaster_node disaster_radius exit_nodes
                     start_node;
         a_star_loop m G start_node disaster_node disaster_radius exit_nodes
           fuel (initial_search G start_node h_start)).
Proof.
  unfold a_star_evacuation. repeat split.
  - intros ->. done.
  - intros -> ->. done.
  - intros exits -> -> Hne. simpl. by destruct exits.
Qed.

(** C6, third part: a start node the membership test puts inside the
    radius never gets the empty route. *)
Lemma inside_never_already_safe (fuel : nat) (G : graph) (start_node : node)
    (disaster_node : float * float) (disaster_radius : float) :
  is_in_disaster_radius m start_node disaster_node disaster_radius G = Return true →
  a_star_evacuation' fuel G (Some start_node) disaster_node disaster_radius
  ≠ Return (Some []).
Proof.
  intros Hin H.
  destruct (a_star_evacuation_inside _ _ _ _ _ _ Hin H) as [?|(exits & h & Hloop)];
    [done|].
  apply a_star_loop_route in Hloop as (rest & ? & _); [done|].
  apply search_inv_initial.
Qed.

(** C6: the membership test returns true exactly when the haversine
    distance to the centre is at most the radius, and false exactly when
    the distance is not; a point at a distance equal to the radius is
    inside.  The test the engine applies to a node is this test on the
    coordinates of the node, and routing gives the empty route ("already
    safe") exactly when the test is false: from a node at a distance equal
    to the radius it does not. *)
Theorem membership_boundary_inclusive (fuel : nat) (G : graph)
    (start_node : node) (point center : float * float) (radius : float) :
  (check_if_in_radius m point center radius = Return true ↔
   ∃ d, haversine_distance m point.1 point.2 center.1 center.2 = Return d
        ∧ (d <=? radius)%float = true)
  ∧ (check_if_in_radius m point center radius = Return false ↔
     ∃ d, haversine_distance m point.1 point.2 center.1 center.2 = Return d
          ∧ (d <=? radius)%float = false)
  ∧ (∀ d, haversine_distance m point.1 point.2 center.1 center.2 = Return d →
          (d =? radius)%float = true →
          check_if_in_radius m point center radius = Return true)
  ∧ (∀ nd,
       G_nodes G start_node = Return nd →
       Node.y nd = Some point.1 → Node.x nd = Some point.2 →
       is_in_disaster_radius m start_node center radius G
       = check_if_in_radius m point center radius
       ∧ (a_star_evacuation' fuel G (Some start_node) center radius
          = Return (Some [])
          ↔ check_if_in_radius m point center radius = Return false)
       ∧ ∀ d,
           haversine_distance m point.1 point.2 center.1 center.2 = Return d →
           (d =? radius)%float = true →
           is_in_disaster_radius m start_node center radius G = Return true
           ∧ a_star_evacuation' fuel G (Some start_node) center radius
             ≠ Return (Some [])).
Proof.
  split_and!.
  - rewrite check_if_in_radius_spec. split.
    + intros (d & Hd & Hb). eauto.
    + intros (d & Hd & Hb). eauto.
  - rewrite check_if_in_radius_spec. split.
    + intros (d & Hd & Hb). eauto.
    + intros (d & Hd & Hb). eauto.
  - intros d Hd Heq. apply check_if_in_radius_spec. exists d.
    split; [done|]. symmetry. by apply eqb_leb.
  - intros nd Hnd Hy Hx.
    assert (Hsame : is_in_disaster_radius m start_node center radius G
                    = check_if_in_radius m point center radius).
    { destruct point as [lat1 lon1], center as [lat2 lon2]. simpl in *.
      unfold is_in_disaster_radius, check_if_in_radius.
      rewrite Hnd. simpl. by rewrite Hy, Hx. }
    split_and!; [done| |].
    + rewrite <- Hsame. split.
      * intros H. pose proof H as H'. unfold a_star_evacuation in H'.
        apply bind_Return in H' as ([|] & Hin & _); [|done].
        by destruct (inside_never_already_safe fuel _ _ _ _ Hin).
      * intros Hout. unfold a_star_evacuation. by rewrite Hout.
    + intros d Hd Heq.
      assert (Hin : is_in_disaster_radius m start_node center radius G
                    = Return true).
      { rewrite Hsame. apply check_if_in_radius_spec. exists d.
        split; [done|]. symmetry. by apply eqb_leb. }
      split; [done|]. by apply inside_never_already_safe.
Qed.

(** C8: on the multigraph of the application the cost the neighbour loop
    stores for [neighbor] is the cost of [current] plus 100 times 1,
    whatever length and ['is_water'] flag the edge carries:
    [G.get_edge_data(current, neighbor, default={})] is the dictionary of
    the edges by edge key, in which [.get('length', 100)] and
    [.get('is_water', False)] find nothing.  The length and the penalty of
    10000 that the claim states never enter the cost. *)
Theorem edge_cost_ignores_length_and_flag (G : graph)
    (disaster_node : float * float) (disaster_radius : float)
    (exit_nodes : list node) (current neighbor : node) (st st' : search) :
  relax m G disaster_node disaster_radius exit_nodes current st neighbor
  = Return st' →
  st' = st ∨
  ∃ g_current,
    g_score st !! current = Some g_current
    ∧ came_from st' !! neighbor = Some current
    ∧ g_score st' !! neighbor = Some (g_current + 100 * 1)%float.
Proof.
  intros H. apply relax_cases in H as [->|(_ & Hcf & (gc & Hgc & Hg) & _)];
    [by left|right].
  exists gc. by rewrite Hcf, Hg, !lookup_insert_eq.
Qed.
End Route.

(** The membership test reads the coordinates of the start node without
    testing for them. *)
Lemma start_without_coordinates_raises (m : libm)
    (set_iter : list node → list node) (fuel : nat) (G : graph)
    (start_node : node) (node_data : Node.t) (disaster_node : float * float)
    (disaster_radius : float) :
  G_nodes G start_node = Return node_data →
  Node.y node_data = None ∨ Node.x node_data = None →
  a_star_evacuation m set_iter fuel G (Some start_node) disaster_node
    disaster_radius
  = Raise KeyError.
Proof.
  intros Hnd Hmissing. unfold a_star_evacuation, is_in_disaster_radius.
  rewrite Hnd. destruct disaster_node as [lat lon]. simpl.
  destruct (Node.y node_data) as [ny|]; [|done].
  destruct Hmissing as [?| ->]; done.
Qed.

(** C4: routing from a node that carries no coordinates raises [KeyError]
    in the membership test, on every platform and before any search. *)
Theorem missing_start_coordinates_raise (m : libm)
    (set_iter : list node → list node) (fuel : nat) :
  a_star_evacuation m set_iter fuel chain_without_coordinates (Some 1%Z)
    hazard_center hazard_radius
  = Raise KeyError.
Proof. reflexivity. Qed.

(** C1, as stated, fails: the route from a start node flagged as water
    contains that node. *)
Lemma route_contains_water_start :
  a_star_evacuation small_angle_libm set_iter_sorted 10 chain_from_water
    (Some 1%Z) hazard_center hazard_radius
  = Return (Some [1; 2; 3]%Z)
  ∧ in_water chain_from_water 1%Z.
Proof.
  split; [vm_compute; reflexivity|].
  eexists. split; reflexivity.
Qed.

Lemma route_avoids_water_after_start_witness :
  ∃ rest, [1; 2; 3]%Z = 1%Z :: rest ∧ Forall (on_land chain_from_water) rest.
Proof.
  apply (route_avoids_water_after_start small_angle_libm set_iter_sorted 10
           chain_from_water 1%Z hazard_center hazard_radius [1; 2; 3]%Z).
  - vm_compute. reflexivity.
  - discriminate.
Defined.

Lemma route_follows_edges_witness :
  ∃ ns, G_neighbors chain_from_water 2%Z = Return ns ∧ 3%Z ∈ ns.
Proof.
  apply (route_follows_edges small_angle_libm set_iter_sorted 10
           chain_from_water 1%Z hazard_center hazard_radius [1; 2; 3]%Z 1
           2%Z 3%Z).
  - vm_compute. reflexivity.
  - reflexivity.
  - reflexivity.
Defined.

Lemma early_exits_before_search_witness :
  a_star_evacuation small_angle_libm set_iter_sorted 0 chain_from_water
    (Some 3%Z) hazard_center hazard_radius = Return (Some [])
  ∧ a_star_evacuation small_angle_libm set_iter_sorted 0 isolated
      (Some 1%Z) hazard_center hazard_radius = Return None.
Proof.
  split.
  - apply (early_exits_before_search small_angle_libm set_iter_sorted 0
             chain_from_water 3%Z hazard_center hazard_radius).
    vm_compute. reflexivity.
  - apply (early_exits_before_search small_angle_libm set_iter_sorted 0
             isolated 1%Z hazard_center hazard_radius).
    + vm_compute. reflexivity.
    + vm_compute. reflexivity.
Defined.

Lemma membership_boundary_inclusive_witness :
  check_if_in_radius small_angle_libm (0, 0)%float hazard_center 0
  = Return true
  ∧ is_in_disaster_radius small_angle_libm 1%Z hazard_center 0 at_centre
    = Return true
  ∧ a_star_evacuation small_angle_libm set_iter_sorted 10 at_centre
      (Some 1%Z) hazard_center 0 ≠ Return (Some [])
  ∧ a_star_evacuation small_angle_libm set_iter_sorted 10 chain_from_water
      (Some 3%Z) hazard_center hazard_radius = Return (Some []).
Proof.
  destruct (membership_boundary_inclusive small_angle_libm set_iter_sorted 10
              at_centre 1%Z (0, 0)%float hazard_center 0%float)
    as (_ & _ & Hcheck & Hnode).
  destruct (Hnode (node_at 0 0 false) eq_refl eq_refl eq_refl)
    as (_ & _ & Hroute).
  destruct (membership_boundary_inclusive small_angle_libm set_iter_sorted 10
              chain_from_water 3%Z (0, 0.0095)%float hazard_center
              hazard_radius) as (_ & _ & _ & Hnode').
  destruct (Hnode' (node_at 0 0.0095 false) eq_refl eq_refl eq_refl)
    as (_ & Hsafe & _).
  split_and!.
  - apply (Hcheck 0%float); vm_compute; reflexivity.
  - apply (Hroute 0%float); vm_compute; reflexivity.
  - apply (Hroute 0%float); vm_compute; reflexivity.
  - apply Hsafe. vm_compute. reflexivity.
Defined.

Lemma edge_cost_ignores_length_and_flag_witness :
  G_edges_of ford 1%Z = [(1%Z, 2%Z, road "residential" 167 true)]
  ∧ ∃ st',
      relax small_angle_libm ford hazard_center hazard_radius [2%Z] 1%Z
        (initial_search ford 1%Z 0%float) 2%Z = Return st'
      ∧ g_score st' !! 2%Z = Some (0 + 100 * 1)%float.
Proof.
  split; [reflexivity|].
  destruct (relax small_angle_libm ford hazard_center hazard_radius [2%Z] 1%Z
              (initial_search ford 1%Z 0%float) 2%Z)
    as [st'| |] eqn:Hrelax.
  - exists st'. split; [reflexivity|].
    destruct (edge_cost_ignores_length_and_flag small_angle_libm ford
                hazard_center hazard_radius [2%Z] 1%Z 2%Z _ _ Hrelax)
      as [->|(g & Hg & _ & Hcost)].
    + vm_compute in Hrelax. discriminate Hrelax.
    + vm_compute in Hg. injection Hg as <-. exact Hcost.
  - vm_compute in Hrelax. discriminate Hrelax.
  - vm_compute in Hrelax. discriminate Hrelax.
Defined.

(** ** Scoring of the exit candidates (C5) *)

Lemma first_highway_app (es1 es2 : list (node * node * Edge.t))
    (e : node * node * Edge.t) (h : string) :
  Forall (λ e', Edge.highway e'.2 = None) es1 →
  Edge.highway e.2 = Some h →
  first_highway (es1 ++ e :: es2) = h.
Proof.
  intros Hnone He. induction Hnone as [|[[u v] d] es1 Hd _ IH]; simpl.
  - destruct e as [[u v] d]. simpl in He. by rewrite He.
  - simpl in Hd. by rewrite Hd.
Qed.

Lemma first_highway_none (es : list (node * node * Edge.t)) :
  Forall (λ e', Edge.highway e'.2 = None) es →
  first_highway es = "unknown"%string.
Proof.
  intros Hnone. induction Hnone as [|[[u v] d] es Hd _ IH]; simpl; [done|].
  simpl in Hd. by rewrite Hd.
Qed.

(** What the scoring loop computes: a candidate on land with coordinates is
    scored [1 - (distance - radius) / 100] plus a road bonus; the bonus is
    0.5 when the first edge of the node that carries a road class, in the
    order of its adjacency, has one of the five major classes, and 0 when
    that edge has another class or no edge carries a class. *)
Lemma candidate_score_first_road_class (m : libm) (G : graph)
    (disaster_node : float * float) (disaster_radius : float)
    (scored : list (node * float)) (node_id : node) (node_data : Node.t)
    (ny nx distance : float) :
  G_nodes G node_id = Return node_data →
  get_is_water_node node_data = false →
  Node.y node_data = Some ny →
  Node.x node_data = Some nx →
  haversine_distance m ny nx disaster_node.1 disaster_node.2 = Return distance →
  ∃ bonus : float,
    score_candidate m G disaster_node disaster_radius scored node_id
    = Return (scored ++
              [(node_id,
                (1 - (distance - disaster_radius) / 100 + bonus)%float)])
    ∧ bonus = road_score G node_id
    ∧ (∀ es1 e es2 h,
         G_edges_of G node_id = es1 ++ e :: es2 →
         Forall (λ e', Edge.highway e'.2 = None) es1 →
         Edge.highway e.2 = Some h →
         bonus = if bool_decide (h ∈ major_road_types)
                 then 0.5%float else 0%float)
    ∧ (Forall (λ e', Edge.highway e'.2 = None) (G_edges_of G node_id) →
       bonus = 0%float).
Proof.
  intros Hnd Hland Hy Hx Hd. exists (road_score G node_id).
  destruct disaster_node as [lat lon]. simpl in Hd. repeat split.
  - unfold score_candidate. rewrite Hnd. simpl. rewrite Hland, Hy, Hx. simpl.
    rewrite Hd. reflexivity.
  - intros es1 e es2 h Hes Hnone He. unfold road_score.
    by rewrite Hes, (first_highway_app es1 es2 e h).
  - intros Hnone. unfold road_score. by rewrite first_highway_none.
Qed.

(** C5: the code does not give the bonus for any incident major road.
    Node 2 of the junction is the exit candidate and lies on a primary
    road, but the loop over its edges stops at the first edge with a road
    class, a residential street, and the node is scored without bonus on
    every platform; with the same two streets entered in the other order
    the same node gets the bonus. *)
Theorem junction_gets_no_road_bonus :
  exit_node_candidates small_angle_libm set_iter_sorted junction hazard_center
    hazard_radius = Return [2%Z]
  ∧ (2%Z, 3%Z, road "primary" 500 false) ∈ G_edges_of junction 2%Z
  ∧ "primary"%string ∈ major_road_types
  ∧ road_score junction 2%Z = 0%float
  ∧ (∀ (m : libm) (scored : list (node * float)) (distance : float),
       haversine_distance m 0 0.0095 hazard_center.1 hazard_center.2
       = Return distance →
       score_candidate m junction hazard_center hazard_radius scored 2%Z
       = Return (scored ++
                 [(2%Z, (1 - (distance - hazard_radius) / 100 + 0)%float)]))
  ∧ G_edges_of junction_reordered 2%Z ≡ₚ G_edges_of junction 2%Z
  ∧ road_score junction_reordered 2%Z = 0.5%float.
Proof.
  split; [vm_compute; reflexivity|].
  split; [right; left|].
  split; [unfold major_road_types; set_solver|].
  split; [reflexivity|].
  split.
  - intros m scored distance Hd. unfold score_candidate. simpl in *.
    by rewrite Hd.
  - split; [apply perm_swap|reflexivity].
Qed.

Lemma candidate_score_first_road_class_witness :
  ∃ bonus : float,
    score_candidate small_angle_libm junction hazard_center hazard_radius []
      2%Z
    = Return [(2%Z, (1 - (1056.3518031233079 - hazard_radius) / 100
                     + bonus)%float)]
    ∧ bonus = 0%float.
Proof.
  destruct (candidate_score_first_road_class small_angle_libm junction
              hazard_center hazard_radius [] 2%Z (node_at 0 0.0095 false)
              0%float 0.0095%float 1056.3518031233079%float)
    as (bonus & Hscore & Hbonus & _); try reflexivity.
  exists bonus. split; [exact Hscore|]. rewrite Hbonus. reflexivity.
Defined.

(** ** The annotator works on a copy (C2, C9) *)


#[local] Instance store_le_preorder : PreOrder store_le.
Proof.
  split.
  - intros s. by split.
  - intros s t u [Hn He] [Hn' He']. split; [by trans (node_attrs t)|by trans (edge_attrs t)].
Qed.

Lemma copy_node_dict_spec (t t' : store) (l l' : loc) :
  copy_node_dict t l = (t', l') →
  store_le t t'
  ∧ node_attrs t !! l' = None
  ∧ node_attrs t' !! l' = Some (node_dict t l).
Proof.
  unfold copy_node_dict. intros H. simplify_eq.
  assert (Hfresh : node_attrs t !! fresh (dom (node_attrs t)) = None).
  { apply not_elem_of_dom, is_fresh. }
  split_and!; simpl; [split; simpl; [by apply insert_subseteq|done]|done|by rewrite lookup_insert_eq].
Qed.

Lemma copy_edge_dict_spec (t t' : store) (l l' : loc) :
  copy_edge_dict t l = (t', l') →
  store_le t t'
  ∧ edge_attrs t !! l' = None
  ∧ edge_attrs t' !! l' = Some (edge_dict t l).
Proof.
  unfold copy_edge_dict. intros H. simplify_eq.
  assert (Hfresh : edge_attrs t !! fresh (dom (edge_attrs t)) = None).
  { apply not_elem_of_dom, is_fresh. }
  split_and!; simpl; [split; simpl; [done|by apply insert_subseteq]|done|by rewrite lookup_insert_eq].
Qed.

Lemma store_le_edge (s t : store) (l : loc) (d : Edge.t) :
  store_le s t → edge_attrs s !! l = Some d → edge_attrs t !! l = Some d.
Proof. intros [_ He] H. by eapply lookup_weaken. Qed.

Lemma store_le_node (s t : store) (l : loc) (d : Node.t) :
  store_le s t → node_attrs s !! l = Some d → node_attrs t !! l = Some d.
Proof. intros [Hn _] H. by eapply lookup_weaken. Qed.

Lemma store_le_edge_None (s t : store) (l : loc) :
  store_le s t → edge_attrs t !! l = None → edge_attrs s !! l = None.
Proof.
  intros Hle Ht. destruct (edge_attrs s !! l) as [d|] eqn:Hs; [|done].
  by rewrite (store_le_edge _ _ _ _ Hle Hs) in Ht.
Qed.

Lemma store_le_node_None (s t : store) (l : loc) :
  store_le s t → node_attrs t !! l = None → node_attrs s !! l = None.
Proof.
  intros Hle Ht. destruct (node_attrs s !! l) as [d|] eqn:Hs; [|done].
  by rewrite (store_le_node _ _ _ _ Hle Hs) in Ht.
Qed.

(** A copy stays a copy when the source store is smaller and the target
    store is larger. *)
Lemma copied_nbrs_mono (s s' t t' : store) (es es' : list (node * loc)) :
  store_le s' s → store_le t t' →
  copied_nbrs s t es es' → copied_nbrs s' t' es es'.
Proof.
  intros Hs Ht H. eapply Forall2_impl; [exact H|].
  intros e e' (Hk & Hnew & [d Hd] & Hcopy).
  split_and!; [done|by apply (store_le_edge_None s' s)| |].
  - exists d. by apply (store_le_edge t t').
  - intros d' Hd'. apply (store_le_edge t t'); [done|].
    by apply Hcopy, (store_le_edge s' s).
Qed.

Lemma copy_nbrs_spec (t t' : store) (es es' : list (node * loc)) :
  copy_nbrs t es = (t', es') →
  store_le t t' ∧ copied_nbrs t t' es es'.
Proof.
  revert t t' es'. induction es as [|[v l] es IH]; intros t t' es' H.
  - simpl in H. simplify_eq. split; [done|constructor].
  - change (copy_nbrs t ((v, l) :: es))
      with (let '(s1, l') := copy_edge_dict t l in
            let '(s2, es'') := copy_nbrs s1 es in (s2, (v, l') :: es'')) in H.
    destruct (copy_edge_dict t l) as [t1 l'] eqn:Hcopy.
    destruct (copy_nbrs t1 es) as [t2 es''] eqn:Hrest. simplify_eq.
    apply copy_edge_dict_spec in Hcopy as (Hle1 & Hnew & Hl').
    apply IH in Hrest as (Hle2 & Hes).
    split; [by trans t1|]. constructor.
    + simpl. split_and!; [done|done| |].
      * exists (edge_dict t l). by apply (store_le_edge t1 t').
      * intros d Hd. apply (store_le_edge t1 t'); [done|].
        rewrite Hl'. unfold edge_dict. by rewrite Hd.
    + by apply (copied_nbrs_mono t1 t t' t').
Qed.

Lemma copied_graph_mono (s s' t t' : store) (G G' : graph_ref) :
  store_le s' s → store_le t t' →
  copied_graph s t G G' → copied_graph s' t' G G'.
Proof.
  intros Hs Ht H. eapply Forall2_impl; [exact H|].
  intros e e' (Hk & Hnew & [d Hd] & Hcopy & Hes).
  split_and!; [done|by apply (store_le_node_None s' s)| |
               |by apply (copied_nbrs_mono s s' t t')].
  - exists d. by apply (store_le_node t t').
  - intros d' Hd'. apply (store_le_node t t'); [done|].
    by apply Hcopy, (store_le_node s' s).
Qed.

Lemma G_copy_spec (t t' : store) (G G' : graph_ref) :
  G_copy t G = (t', G') →
  store_le t t' ∧ copied_graph t t' G G'.
Proof.
  revert t t' G'. induction G as [|[n vx] G IH]; intros t t' G' H.
  - simpl in H. simplify_eq. split; [done|constructor].
  - change (G_copy t ((n, vx) :: G))
      with (let '(s1, l') := copy_node_dict t (data vx) in
            let '(s2, es') := copy_nbrs s1 (nbrs vx) in
            let '(s3, G'') := G_copy s2 G in
            (s3, (n, Vertex l' es') :: G'')) in H.
    destruct (copy_node_dict t (data vx)) as [t1 l'] eqn:Hnode.
    destruct (copy_nbrs t1 (nbrs vx)) as [t2 es'] eqn:Hnbrs.
    destruct (G_copy t2 G) as [t3 G''] eqn:Hrest. simplify_eq.
    apply copy_node_dict_spec in Hnode as (Hle1 & Hnew & Hl').
    apply copy_nbrs_spec in Hnbrs as (Hle2 & Hes).
    apply IH in Hrest as (Hle3 & HG).
    assert (Hle13 : store_le t1 t') by by trans t2.
    split; [by trans t1|]. constructor.
    + simpl. split_and!; [done|done| | |].
      * exists (node_dict t (data vx)). by apply (store_le_node t1 t').
      * intros d Hd. apply (store_le_node t1 t'); [done|].
        rewrite Hl'. unfold node_dict. by rewrite Hd.
      * by apply (copied_nbrs_mono t1 t t2 t').
    + apply (copied_graph_mono t2 t t' t'); [by trans t1|done|done].
Qed.

Lemma elem_of_G_edges {N E : Type} (G : graph_of N E) (u v : node) (d : E) :
  (u, v, d) ∈ G_edges G ↔ ∃ vx, (u, vx) ∈ G ∧ (v, d) ∈ nbrs vx.
Proof.
  unfold G_edges. rewrite list_elem_of_bind. split.
  - intros ([u' vx] & Hin & HG). apply list_elem_of_fmap in Hin as ([v' d'] & Heq & Hin).
    simplify_eq. eauto.
  - intros (vx & HG & Hin). exists (u, vx). split; [|done].
    apply list_elem_of_fmap. by exists (v, d).
Qed.

Lemma same_tags_bridge (d d' : Edge.t) :
  same_tags d d' → edge_is_bridge d = edge_is_bridge d'.
Proof.
  unfold same_tags, Edge.set_is_water, edge_is_bridge. intros H.
  injection H as _ _ -> _ _ _. done.
Qed.

Lemma same_tags_set_is_water (b : bool) (d d' : Edge.t) :
  same_tags d d' → same_tags (Edge.set_is_water b d) d'.
Proof. unfold same_tags. by destruct d, d'. Qed.

Lemma edge_is_water_bridge (node_u_in_water node_v_in_water : bool) (d : Edge.t) :
  edge_is_bridge d = true →
  edge_is_water node_u_in_water node_v_in_water d = false.
Proof.
  unfold edge_is_water. intros ->. simpl. rewrite andb_false_r.
  by destruct (_ || _ || _).
Qed.

(** The first loop writes the flag of every node of the copy and nothing
    else. *)
Lemma mark_nodes_spec (G' : graph_ref) (s0 s1 : store) :
  for_each mark_node G' s0 = Return s1 →
  edge_attrs s1 = edge_attrs s0
  ∧ (∀ l, (∀ e, e ∈ G' → data e.2 ≠ l) →
          node_attrs s1 !! l = node_attrs s0 !! l)
  ∧ (∀ e, e ∈ G' → is_Some (Node.is_water (node_dict s1 (data e.2)))).
Proof.
  intros H.
  refine (for_each_ind mark_node
    (λ pre t,
       edge_attrs t = edge_attrs s0
       ∧ (∀ l, (∀ e, e ∈ pre → data e.2 ≠ l) →
               node_attrs t !! l = node_attrs s0 !! l)
       ∧ (∀ e, e ∈ pre → is_Some (Node.is_water (node_dict t (data e.2)))))
    G' s0 s1 _ _ H).
  - split_and!; [done|done|]. intros e He. by apply elem_of_nil in He.
  - intros pre a t t' _ (Hedges & Hframe & Hset) Hbody.
    unfold mark_node in Hbody. simplify_eq. split_and!; simpl.
    + done.
    + intros l Hl. rewrite lookup_insert_ne.
      * apply Hframe. intros e He. apply Hl, elem_of_app. by left.
      * apply Hl, elem_of_app. right. by left.
    + intros e He. unfold node_dict at 1. simpl.
      destruct (decide (data a.2 = data e.2)) as [Heq|Hne].
      * rewrite Heq, lookup_insert_eq. simpl. eauto.
      * rewrite lookup_insert_ne by done.
        apply elem_of_app in He as [He|He]; [by apply Hset|].
        apply list_elem_of_singleton in He. by subst.
Qed.

(** The second loop writes the flag of every edge of the copy and nothing
    else; the flag of a bridge is [False]. *)
Lemma mark_edges_spec (G' : graph_ref) (es : list (node * node * loc))
    (s1 s2 : store) :
  for_each (mark_edge G') es s1 = Return s2 →
  node_attrs s2 = node_attrs s1
  ∧ (∀ l, (∀ e, e ∈ es → e.2 ≠ l) → edge_attrs s2 !! l = edge_attrs s1 !! l)
  ∧ (∀ l, same_tags (edge_dict s2 l) (edge_dict s1 l))
  ∧ (∀ e, e ∈ es →
       is_Some (Edge.is_water (edge_dict s2 e.2))
       ∧ (edge_is_bridge (edge_dict s1 e.2) = true →
          Edge.is_water (edge_dict s2 e.2) = Some false)).
Proof.
  intros H.
  refine (for_each_ind (mark_edge G')
    (λ pre t,
       node_attrs t = node_attrs s1
       ∧ (∀ l, (∀ e, e ∈ pre → e.2 ≠ l) →
               edge_attrs t !! l = edge_attrs s1 !! l)
       ∧ (∀ l, same_tags (edge_dict t l) (edge_dict s1 l))
       ∧ (∀ e, e ∈ pre →
            is_Some (Edge.is_water (edge_dict t e.2))
            ∧ (edge_is_bridge (edge_dict s1 e.2) = true →
               Edge.is_water (edge_dict t e.2) = Some false)))
    es s1 s2 _ _ H).
  - split_and!; [done|done|done|]. intros e He. by apply elem_of_nil in He.
  - intros pre [[u v] l] t t' _ (Hnodes & Hframe & Htags & Hset) Hbody.
    unfold mark_edge in Hbody.
    apply bind_Return in Hbody as (lu & _ & Hbody).
    apply bind_Return in Hbody as (lv & _ & Hbody). simplify_eq.
    set (b := edge_is_water _ _ _).
    assert (Hnew : ∀ l', edge_dict (write_edge l (Edge.set_is_water b (edge_dict t l)) t) l'
                         = if decide (l = l') then Edge.set_is_water b (edge_dict t l)
                           else edge_dict t l').
    { intros l'. unfold edge_dict at 1. simpl. destruct (decide (l = l')) as [->|Hne].
      - by rewrite lookup_insert_eq.
      - by rewrite lookup_insert_ne. }
    split_and!; simpl.
    + done.
    + intros l' Hl. rewrite lookup_insert_ne.
      * apply Hframe. intros e He. apply Hl, elem_of_app. by left.
      * apply (Hl (u, v, l)), elem_of_app. right. by left.
    + intros l'. rewrite Hnew. destruct (decide (l = l')) as [<-|Hne]; [|done].
      by apply same_tags_set_is_water.
    + intros e He. rewrite Hnew. destruct (decide (l = e.2)) as [Heq|Hne].
      * split; [simpl; eauto|]. intros Hbridge. simpl. f_equal.
        apply edge_is_water_bridge.
        by rewrite (same_tags_bridge _ _ (Htags l)), Heq.
      * apply elem_of_app in He as [He|He]; [by apply Hset|].
        apply list_elem_of_singleton in He. by subst.
Qed.

(** What [filter_road_network] returns, in terms of its three phases. *)
Lemma filter_road_network_phases (s s' : store) (G G' : graph_ref) :
  filter_road_network s G = Return (s', G') →
  ∃ s0 s1,
    store_le s s0 ∧ copied_graph s s0 G G'
    ∧ for_each mark_node G' s0 = Return s1
    ∧ for_each (mark_edge G') (G_edges G') s1 = Return s'.
Proof.
  unfold filter_road_network. intros H.
  destruct (G_copy s G) as [s0 G0] eqn:Hcopy.
  apply G_copy_spec in Hcopy as [Hle Hcopied].
  apply bind_Return in H as (s1 & H1 & H).
  apply bind_Return in H as (s2 & H2 & H). simplify_eq. eauto 10.
Qed.

Lemma copied_nbrs_fresh (s t : store) (es es' : list (node * loc)) :
  copied_nbrs s t es es' →
  Forall (λ f : node * loc, edge_attrs s !! f.2 = None) es'.
Proof.
  intros H. induction H as [|e e' es es' (_ & Hnew & _) _ IH]; by constructor.
Qed.

Lemma copied_graph_fresh (s t : store) (G G' : graph_ref) :
  copied_graph s t G G' →
  Forall (λ e' : node * vertex loc loc,
            node_attrs s !! data e'.2 = None
            ∧ Forall (λ f : node * loc, edge_attrs s !! f.2 = None) (nbrs e'.2))
         G'.
Proof.
  intros H. induction H as [|e e' G G' (_ & Hnew & _ & _ & Hes) _ IH];
    constructor; [|done].
  split; [done|]. by eapply copied_nbrs_fresh.
Qed.

Lemma copied_nbrs_keys (s t : store) (es es' : list (node * loc)) :
  copied_nbrs s t es es' → es'.*1 = es.*1.
Proof.
  intros H. induction H as [|e e' es es' (Hk & _) _ IH]; [done|].
  rewrite !fmap_cons. by f_equal.
Qed.

(** C9: the annotator leaves every dictionary of the store it is given as
    it was, so the source network reads as before the call; the network it
    returns has the same nodes and adjacency, over dictionaries that did
    not exist before, all of them with ['is_water'] set. *)
Theorem annotation_leaves_source_untouched (s s' : store) (G G' : graph_ref) :
  filter_road_network s G = Return (s', G') →
  store_le s s'
  ∧ (allocated s G → snapshot s' G = snapshot s G)
  ∧ Forall2 (λ e e' : node * vertex loc loc,
               e'.1 = e.1 ∧ (nbrs e'.2).*1 = (nbrs e.2).*1) G G'
  ∧ Forall (λ e' : node * vertex loc loc,
              node_attrs s !! data e'.2 = None
              ∧ is_Some (Node.is_water (node_dict s' (data e'.2)))
              ∧ Forall (λ f : node * loc,
                          edge_attrs s !! f.2 = None
                          ∧ is_Some (Edge.is_water (edge_dict s' f.2)))
                       (nbrs e'.2))
           G'.
Proof.
  intros H. apply filter_road_network_phases in H
    as (s0 & s1 & Hle0 & Hcopied & Hnodes & Hedges).
  apply mark_nodes_spec in Hnodes as (E1 & F1 & S1).
  apply mark_edges_spec in Hedges as (N2 & F2 & _ & S2).
  pose proof (copied_graph_fresh _ _ _ _ Hcopied) as Hfresh.
  rewrite Forall_forall in Hfresh.
  assert (Hle : store_le s s').
  { split; apply map_subseteq_spec; intros l d Hl.
    - rewrite N2, F1; [by apply (store_le_node s s0)|].
      intros e He Heq. destruct (Hfresh e He) as [Hnone _]. congruence.
    - rewrite F2, E1; [by apply (store_le_edge s s0)|].
      intros [[u v] l'] He Heq. simpl in Heq. subst l'.
      apply elem_of_G_edges in He as (vx & HG & Hin).
      destruct (Hfresh _ HG) as [_ Hes]. rewrite Forall_forall in Hes.
      specialize (Hes _ Hin). simpl in Hes. congruence. }
  split_and!; [done| | |].
  - intros Halloc. unfold snapshot. apply Forall_fmap_ext_1.
    eapply Forall_impl; [exact Halloc|]. intros [n vx] [[d Hd] Hes]. simpl in *.
    f_equal. f_equal.
    + unfold node_dict. by rewrite (store_le_node s s' _ _ Hle Hd), Hd.
    + apply Forall_fmap_ext_1. eapply Forall_impl; [exact Hes|].
      intros [v l] [d' Hd']. simpl in *. f_equal.
      unfold edge_dict. by rewrite (store_le_edge s s' _ _ Hle Hd'), Hd'.
  - eapply Forall2_impl; [exact Hcopied|].
    intros e e' (Hk & _ & _ & _ & Hes). split; [done|].
    by eapply copied_nbrs_keys.
  - apply Forall_forall. intros [n vx'] He'. destruct (Hfresh _ He') as [Hn Hes].
    simpl in *. split_and!; [done| |].
    + unfold node_dict. rewrite N2. apply (S1 _ He').
    + rewrite Forall_forall in Hes |- *. intros [v l] Hf. split; [by apply Hes|].
      apply (S2 (n, v, l)). apply elem_of_G_edges. eauto.
Qed.

(** C2: an edge whose ['bridge'] tag is present and is none of ['no'],
    ['false'], ['0'] is flagged [False] in the annotated network, whatever
    its endpoints and its other tags are. *)
Theorem bridge_edge_is_not_obstacle (s s' : store) (G G' : graph_ref)
    (i j : nat) (u v : node) (vx : vertex loc loc) (l : loc) (d : Edge.t)
    (tag : string) :
  filter_road_network s G = Return (s', G') →
  G !! i = Some (u, vx) →
  nbrs vx !! j = Some (v, l) →
  edge_attrs s !! l = Some d →
  Edge.bridge d = Some tag →
  tag ∉ ["no"; "false"; "0"]%string →
  ∃ vx' l',
    G' !! i = Some (u, vx')
    ∧ nbrs vx' !! j = Some (v, l')
    ∧ Edge.is_water (edge_dict s' l') = Some false.
Proof.
  intros H Hi Hj Hd Htag Hnot.
  assert (Hbridge : edge_is_bridge d = true).
  { unfold edge_is_bridge. rewrite Htag. by rewrite bool_decide_eq_false_2. }
  apply filter_road_network_phases in H
    as (s0 & s1 & Hle0 & Hcopied & Hnodes & Hedges).
  apply mark_nodes_spec in Hnodes as (E1 & _ & _).
  apply mark_edges_spec in Hedges as (_ & _ & _ & S2).
  destruct (Forall2_lookup_l _ _ _ _ _ Hcopied Hi)
    as ([u' vx'] & Hi' & Hk & _ & _ & _ & Hes).
  destruct (Forall2_lookup_l _ _ _ _ _ Hes Hj)
    as ([v' l'] & Hj' & Hk' & _ & _ & Hcopy).
  simpl in *. subst u' v'. exists vx', l'. split_and!; [done|done|].
  assert (Hin : (u, v, l') ∈ G_edges G').
  { apply elem_of_G_edges. exists vx'.
    split; by eapply list_elem_of_lookup_2. }
  apply (S2 _ Hin). simpl. unfold edge_dict. by rewrite E1, (Hcopy d Hd).
Qed.

Lemma annotation_leaves_source_untouched_witness :
  ∃ s' G',
    filter_road_network river_crossing_store river_crossing = Return (s', G')
    ∧ store_le river_crossing_store s'
    ∧ snapshot s' river_crossing = snapshot river_crossing_store river_crossing.
Proof.
  destruct (filter_road_network river_crossing_store river_crossing)
    as [[s' G']| |] eqn:Hrun.
  - exists s', G'. split; [reflexivity|].
    destruct (annotation_leaves_source_untouched _ _ _ _ Hrun)
      as (Hle & Hsnap & _).
    split; [exact Hle|]. apply Hsnap.
    repeat constructor; simpl; eexists; reflexivity.
  - vm_compute in Hrun. discriminate Hrun.
  - vm_compute in Hrun. discriminate Hrun.
Defined.

Lemma bridge_edge_is_not_obstacle_witness :
  ∃ s' G',
    filter_road_network river_crossing_store river_crossing = Return (s', G')
    ∧ ∃ vx' l',
        G' !! 0 = Some (1%Z, vx')
        ∧ nbrs vx' !! 0 = Some (2%Z, l')
        ∧ Edge.is_water (edge_dict s' l') = Some false.
Proof.
  destruct (filter_road_network river_crossing_store river_crossing)
    as [[s' G']| |] eqn:Hrun.
  - exists s', G'. split; [reflexivity|].
    apply (bridge_edge_is_not_obstacle river_crossing_store s' river_crossing
             G' 0 0 1%Z 2%Z (Vertex 1%positive [(2%Z, 1%positive)]) 1%positive
             (Edge.mk (Some 445%float) (Some "primary"%string)
                (Some "yes"%string) (Some "river"%string) None None None)
             "yes"%string Hrun); try reflexivity.
    intros Hin. repeat (apply elem_of_cons in Hin as [Hin|Hin]; [discriminate Hin|]).
    by apply elem_of_nil in Hin.
  - vm_compute in Hrun. discriminate Hrun.
  - vm_compute in Hrun. discriminate Hrun.
Defined.

(** ** The order of binary64 numbers *)

Lemma SFcompare_key (a b : spec_float) :
  a ≠ S754_nan → b ≠ S754_nan →
  SFcompare a b = Some (lex (sf_key a) (sf_key b)).
Proof.
  intros Ha Hb.
  destruct a as [sa|sa| |sa ma ea], b as [sb|sb| |sb mb eb]; try done;
    try (by destruct sa); try (by destruct sb); try (by destruct sa, sb).
  destruct sa, sb; simpl; unfold lex; simpl; try done.
  rewrite Z.compare_opp, (Z.compare_antisym ea eb).
  by destruct (ea ?= eb)%Z.
Qed.

Lemma SFcompare_None (a b : spec_float) :
  SFcompare a b = None ↔ a = S754_nan ∨ b = S754_nan.
Proof.
  split.
  - destruct a as [sa|sa| |sa ma ea], b as [sb|sb| |sb mb eb]; simpl; auto; discriminate.
  - intros [->| ->]; [done|]. by destruct a.
Qed.

Lemma lex_le_trans (a b c : Z * Z * Z) :
  lex a b ≠ Gt → lex b c ≠ Gt → lex a c ≠ Gt.
Proof.
  destruct a as [[a1 a2] a3], b as [[b1 b2] b3], c as [[c1 c2] c3].
  unfold lex. simpl.
  destruct (Z.compare_spec a1 b1), (Z.compare_spec b1 c1), (Z.compare_spec a1 c1);
    try lia; try done;
  destruct (Z.compare_spec a2 b2), (Z.compare_spec b2 c2), (Z.compare_spec a2 c2);
    try lia; try done;
  destruct (Z.compare_spec a3 b3), (Z.compare_spec b3 c3), (Z.compare_spec a3 c3);
    try lia; done.
Qed.

Lemma lex_antisym (a b : Z * Z * Z) : lex b a = CompOpp (lex a b).
Proof.
  destruct a as [[a1 a2] a3], b as [[b1 b2] b3]. unfold lex. simpl.
  rewrite (Z.compare_antisym a1 b1), (Z.compare_antisym a2 b2),
    (Z.compare_antisym a3 b3).
  by destruct (a1 ?= b1)%Z, (a2 ?= b2)%Z, (a3 ?= b3)%Z.
Qed.

Lemma lex_refl (a : Z * Z * Z) : lex a a = Eq.
Proof. destruct a as [[a1 a2] a3]. unfold lex. simpl. by rewrite !Z.compare_refl. Qed.

Lemma is_nan_false (f : float) : is_nan f = false ↔ not_nan f.
Proof.
  unfold is_nan, not_nan. rewrite negb_false_iff, FloatAxioms.eqb_spec. unfold SFeqb.
  split.
  - intros H Hnan. by rewrite Hnan in H.
  - intros H. by rewrite (SFcompare_key _ _ H H), lex_refl.
Qed.

Lemma leb_true (a b : float) :
  (a <=? b)%float = true ↔
  not_nan a ∧ not_nan b ∧ lex (sf_key (Prim2SF a)) (sf_key (Prim2SF b)) ≠ Gt.
Proof.
  rewrite leb_spec. unfold SFleb, not_nan. split.
  - intros H. destruct (SFcompare _ _) as [c|] eqn:Hc; [|done].
    assert (Ha : Prim2SF a ≠ S754_nan).
    { intros Hn. rewrite Hn in Hc. done. }
    assert (Hb : Prim2SF b ≠ S754_nan).
    { intros Hn. rewrite Hn in Hc. by destruct (Prim2SF a). }
    rewrite (SFcompare_key _ _ Ha Hb) in Hc. simplify_eq.
    split_and!; [done|done|]. by destruct (lex _ _).
  - intros (Ha & Hb & Hle). rewrite (SFcompare_key _ _ Ha Hb).
    by destruct (lex _ _).
Qed.

Lemma ltb_true (a b : float) :
  (a <? b)%float = true ↔
  not_nan a ∧ not_nan b ∧ lex (sf_key (Prim2SF a)) (sf_key (Prim2SF b)) = Lt.
Proof.
  rewrite ltb_spec. unfold SFltb, not_nan. split.
  - intros H. destruct (SFcompare _ _) as [c|] eqn:Hc; [|done].
    assert (Ha : Prim2SF a ≠ S754_nan).
    { intros Hn. rewrite Hn in Hc. done. }
    assert (Hb : Prim2SF b ≠ S754_nan).
    { intros Hn. rewrite Hn in Hc. by destruct (Prim2SF a). }
    rewrite (SFcompare_key _ _ Ha Hb) in Hc. simplify_eq.
    split_and!; [done|done|]. by destruct (lex _ _).
  - intros (Ha & Hb & Hle). rewrite (SFcompare_key _ _ Ha Hb).
    by rewrite Hle.
Qed.

Lemma leb_trans (a b c : float) :
  (a <=? b)%float = true → (b <=? c)%float = true → (a <=? c)%float = true.
Proof.
  rewrite !leb_true. intros (Ha & Hb & Hab) (_ & Hc & Hbc).
  split_and!; [done|done|]. by eapply lex_le_trans.
Qed.

Lemma ltb_leb (a b : float) : (a <? b)%float = true → (a <=? b)%float = true.
Proof.
  rewrite ltb_true, leb_true. intros (Ha & Hb & Hlt). by rewrite Hlt.
Qed.

Lemma not_ltb_leb (a b : float) :
  not_nan a → not_nan b → (a <? b)%float = false → (b <=? a)%float = true.
Proof.
  intros Ha Hb Hlt. apply leb_true. split_and!; [done|done|].
  rewrite lex_antisym. intros Hgt.
  assert ((a <? b)%float = true); [|congruence].
  apply ltb_true. split_and!; [done|done|]. by destruct (lex _ _).
Qed.

(** ** Arithmetic that does not produce NaN *)

Lemma shr_1_nonneg (mrs : shr_record) :
  (0 ≤ shr_m mrs)%Z → (0 ≤ shr_m (shr_1 mrs))%Z.
Proof. destruct mrs as [[|[p|p|]|p] r s]; simpl; lia. Qed.

Lemma iter_pos_shr_1_nonneg (p : positive) (mrs : shr_record) :
  (0 ≤ shr_m mrs)%Z → (0 ≤ shr_m (SpecFloat.iter_pos shr_1 p mrs))%Z.
Proof.
  revert mrs. induction p as [p IH|p IH|]; intros mrs H; simpl.
  - by apply IH, IH, shr_1_nonneg.
  - by apply IH, IH.
  - by apply shr_1_nonneg.
Qed.

Lemma shr_fexp_nonneg (prec emax mx ex : Z) (lx : location) :
  (0 ≤ mx)%Z → (0 ≤ shr_m (shr_fexp prec emax mx ex lx).1)%Z.
Proof.
  intros H. unfold shr_fexp, shr.
  assert (H0 : (0 ≤ shr_m (shr_record_of_loc mx lx))%Z).
  { by destruct lx as [|[]]. }
  destruct (_ - _)%Z; simpl; [done| |done].
  by apply iter_pos_shr_1_nonneg.
Qed.

Lemma round_nearest_even_nonneg (mx : Z) (lx : location) :
  (0 ≤ mx)%Z → (0 ≤ round_nearest_even mx lx)%Z.
Proof.
  intros H. destruct lx as [|[]]; simpl; try lia. destruct (Z.even mx); lia.
Qed.

Lemma binary_round_aux_not_nan (prec emax : Z) (sx : bool) (mx ex : Z)
    (lx : location) :
  (0 ≤ mx)%Z → binary_round_aux prec emax sx mx ex lx ≠ S754_nan.
Proof.
  intros H. unfold binary_round_aux.
  pose proof (shr_fexp_nonneg prec emax mx ex lx H) as H1.
  destruct (shr_fexp prec emax mx ex lx) as [mrs' e']. simpl in H1.
  pose proof (shr_fexp_nonneg prec emax _ e' loc_Exact
                (round_nearest_even_nonneg _ (loc_of_shr_record mrs') H1)) as H2.
  destruct (shr_fexp prec emax _ e' loc_Exact) as [mrs'' e'']. simpl in H2.
  destruct (shr_m mrs'') as [|p|p]; [done| |lia].
  by destruct (_ <=? _)%Z.
Qed.

Lemma binary_normalize_not_nan (prec emax mz ez : Z) (szero : bool) :
  binary_normalize prec emax mz ez szero ≠ S754_nan.
Proof.
  unfold binary_normalize, binary_round. destruct mz as [|p|p]; [done| |].
  - destruct (shl_align _ _ _). by apply binary_round_aux_not_nan.
  - destruct (shl_align _ _ _). by apply binary_round_aux_not_nan.
Qed.

(** Subtraction gives NaN only from NaN or from two equal infinities. *)
Lemma SFsub_nan (prec emax : Z) (a b : spec_float) :
  SFsub prec emax a b = S754_nan →
  a = S754_nan ∨ b = S754_nan ∨ ∃ s, a = S754_infinity s ∧ b = S754_infinity s.
Proof.
  destruct a as [sa|sa| |sa ma ea], b as [sb|sb| |sb mb eb]; simpl; auto;
    try discriminate.
  - destruct sa, sb; discriminate.
  - destruct sa, sb; try discriminate; eauto.
  - intros H. by apply binary_normalize_not_nan in H.
Qed.

(** Addition of a zero or finite number gives NaN only from NaN. *)
Lemma SFadd_real_nan (prec emax : Z) (a b : spec_float) :
  sf_real b → SFadd prec emax a b = S754_nan → a = S754_nan.
Proof.
  destruct a as [sa|sa| |sa ma ea], b as [sb|sb| |sb mb eb]; simpl; try done.
  - destruct sa, sb; discriminate.
  - intros _ H. by apply binary_normalize_not_nan in H.
Qed.

Lemma SFadd_nan_l (prec emax : Z) (a b : spec_float) :
  SFadd prec emax a b ≠ S754_nan → a ≠ S754_nan.
Proof. intros H ->. by apply H. Qed.

(** Subtraction from a finite number gives NaN only from NaN. *)
Lemma SFsub_finite_nan (prec emax : Z) (s : bool) (mm : positive) (e : Z)
    (b : spec_float) :
  SFsub prec emax (S754_finite s mm e) b = S754_nan → b = S754_nan.
Proof.
  intros H. apply SFsub_nan in H as [H|[H|(s' & H & _)]]; done.
Qed.

(** Division by a finite number gives NaN only from NaN. *)
Lemma SFdiv_finite_nan (prec emax : Z) (a : spec_float) (s : bool)
    (mm : positive) (e : Z) :
  SFdiv prec emax a (S754_finite s mm e) = S754_nan → a = S754_nan.
Proof.
  destruct a as [sa|sa| |sa ma ea]; simpl; try done.
  unfold SFdiv_core_binary.
  set (m' := match _ with Z.pos _ => _ | _ => _ end).
  assert (Hm' : (0 ≤ m')%Z).
  { unfold m'. destruct (_ - _ - _)%Z; try lia. by apply Z.shiftl_nonneg. }
  pose proof (Z.div_pos m' (Z.pos mm) Hm' eq_refl) as Hq.
  unfold Z.div in Hq. destruct (Z.div_eucl m' (Z.pos mm)) as [q r].
  intros H. by apply binary_round_aux_not_nan in H.
Qed.

Lemma Prim2SF_100 : Prim2SF 100 = S754_finite false 7036874417766400 (-46).
Proof. vm_compute. reflexivity. Qed.

Lemma Prim2SF_1 : Prim2SF 1 = S754_finite false 4503599627370496 (-52).
Proof. vm_compute. reflexivity. Qed.

Lemma Prim2SF_half : Prim2SF 0.5 = S754_finite false 4503599627370496 (-53).
Proof. vm_compute. reflexivity. Qed.

Lemma Prim2SF_0 : Prim2SF 0 = S754_zero false.
Proof. vm_compute. reflexivity. Qed.

(** A node at a distance in the buffer behind the radius has a score that
    is a number. *)
Lemma score_not_nan (distance disaster_radius bonus : float) :
  (distance <=? disaster_radius)%float = false →
  (distance <=? disaster_radius + buffer_distance)%float = true →
  bonus = 0.5%float ∨ bonus = 0%float →
  not_nan (proximity_score distance disaster_radius + bonus).
Proof.
  intros Hout Hnear Hbonus. apply leb_true in Hnear as (Hd & Hr & _).
  unfold not_nan, buffer_distance in *. rewrite add_spec, Prim2SF_100 in Hr.
  apply SFadd_nan_l in Hr.
  unfold proximity_score, buffer_distance.
  rewrite add_spec. intros Hnan.
  apply SFadd_real_nan in Hnan;
    [|destruct Hbonus as [-> | ->]; by rewrite ?Prim2SF_half, ?Prim2SF_0].
  rewrite sub_spec, Prim2SF_1 in Hnan. apply SFsub_finite_nan in Hnan.
  rewrite div_spec, Prim2SF_100 in Hnan. apply SFdiv_finite_nan in Hnan.
  rewrite sub_spec in Hnan.
  apply SFsub_nan in Hnan as [?|[?|(s & Hds & Hrs)]]; [done|done|].
  rewrite leb_spec, Hds, Hrs in Hout. by destruct s.
Qed.

Lemma road_score_cases (G : graph) (n : node) :
  road_score G n = 0.5%float ∨ road_score G n = 0%float.
Proof. unfold road_score. destruct (bool_decide _); auto. Qed.

(** ** Sorting by score *)

Lemma insert_desc_perm (e : node * float) (l : list (node * float)) :
  insert_desc e l ≡ₚ e :: l.
Proof.
  induction l as [|e' l IH]; simpl; [done|].
  destruct (_ <? _)%float; [|done]. rewrite IH. apply Permutation_swap.
Qed.

Lemma sort_by_score_desc_perm (l : list (node * float)) :
  sort_by_score_desc l ≡ₚ l.
Proof.
  induction l as [|e l IH]; simpl; [done|].
  by rewrite insert_desc_perm, IH.
Qed.

Lemma insert_desc_sorted (e : node * float) (l : list (node * float)) :
  not_nan e.2 → Forall (λ e', not_nan e'.2) l →
  StronglySorted by_score_desc l →
  StronglySorted by_score_desc (insert_desc e l).
Proof.
  intros He Hl Hsorted.
  induction Hsorted as [|e' l Hsorted IH Hall]; simpl.
  - repeat constructor.
  - apply Forall_cons in Hl as [He' Hl].
    destruct (_ <? _)%float eqn:Hlt.
    + constructor; [by apply IH|].
      rewrite insert_desc_perm. constructor; [|done].
      by apply ltb_leb.
    + assert (Hle : by_score_desc e e') by by apply not_ltb_leb.
      constructor; [by constructor|]. constructor; [done|].
      eapply Forall_impl; [exact Hall|]. intros e'' He''.
      unfold by_score_desc in *. by eapply leb_trans.
Qed.

Lemma sort_by_score_desc_sorted (l : list (node * float)) :
  Forall (λ e, not_nan e.2) l →
  StronglySorted by_score_desc (sort_by_score_desc l).
Proof.
  induction 1 as [|e l He Hl IH]; simpl; [constructor|].
  apply insert_desc_sorted; [done| |done].
  by rewrite sort_by_score_desc_perm.
Qed.

(** ** Exit-node discovery (C7) *)

Lemma assoc_elem_of {V : Type} (k : node) (v : V) (l : list (node * V)) :
  NoDup l.*1 → (k, v) ∈ l → assoc k l = Some v.
Proof.
  induction l as [|[k' v'] l IH]; intros Hnd Hin; [by apply elem_of_nil in Hin|].
  rewrite fmap_cons in Hnd. apply NoDup_cons in Hnd as [Hk' Hnd].
  simpl. apply elem_of_cons in Hin as [Heq|Hin].
  - simplify_eq. by rewrite bool_decide_eq_true_2.
  - rewrite bool_decide_eq_false_2; [by apply IH|].
    intros ->. apply Hk'. simpl. apply list_elem_of_fmap. by exists (k, v).
Qed.

Section ExitNodes.
Context (m : libm) (set_iter : list node → list node).
Context (G : graph) (disaster_node : float * float) (disaster_radius : float).
Hypothesis set_iter_sound : ∀ l x, x ∈ set_iter l → x ∈ l.
Hypothesis G_keys : NoDup G.*1.

Local Abbreviation in_buffer' := (in_buffer m G disaster_node disaster_radius).

Lemma classify_outside (inside_nodes outside_nodes : list node) :
  for_each (classify_node m disaster_node disaster_radius) G ([], [])
  = Return (inside_nodes, outside_nodes) →
  Forall in_buffer' outside_nodes.
Proof.
  intros H.
  refine (for_each_inv (classify_node m disaster_node disaster_radius)
            (λ acc, Forall in_buffer' acc.2) G _ _ _ _ H); [constructor|].
  intros [n vx] [ins outs] acc' Hin Hacc Hbody. simpl in *.
  unfold classify_node in Hbody. destruct disaster_node as [lat lon] eqn:Hdn.
  destruct (Node.x (data vx)) as [nx|] eqn:Hx; [|by simplify_eq].
  destruct (Node.y (data vx)) as [ny|] eqn:Hy; [|by simplify_eq].
  destruct (get_is_water_node (data vx)) eqn:Hw; [by simplify_eq|].
  apply bind_Return in Hbody as (d & Hd & Hbody).
  destruct (d <=? disaster_radius)%float eqn:Hle; [by simplify_eq|].
  destruct (d <=? disaster_radius + buffer_distance)%float eqn:Hnear;
    [|by simplify_eq].
  simplify_eq. simpl. apply Forall_app. split; [done|].
  constructor; [|constructor].
  exists (data vx), ny, nx, d. split_and!; try done.
  unfold G_nodes. by rewrite (assoc_elem_of _ _ _ G_keys Hin).
Qed.

Lemma boundary_outside (outside_nodes inside_nodes : list node)
    (boundary_nodes : list (node * node)) :
  for_each (boundary_of G outside_nodes) inside_nodes [] = Return boundary_nodes →
  Forall (λ pair, pair.2 ∈ outside_nodes) boundary_nodes.
Proof.
  intros H.
  refine (for_each_inv (boundary_of G outside_nodes)
            (Forall (λ pair, pair.2 ∈ outside_nodes)) inside_nodes _ _ _ _ H);
    [constructor|].
  intros inside_node acc acc' _ Hacc Hbody. unfold boundary_of in Hbody.
  apply bind_Return in Hbody as (ns & _ & Hbody).
  refine (for_each_inv _ (Forall (λ pair, pair.2 ∈ outside_nodes)) ns _ _ Hacc _ Hbody).
  intros neighbor b b' _ Hb Hstep. simpl in Hstep.
  destruct (bool_decide (neighbor ∈ outside_nodes)) eqn:Hout; [|by simplify_eq].
  apply bool_decide_eq_true_1 in Hout. simplify_eq.
  apply Forall_app. split; [done|]. by repeat constructor.
Qed.

Lemma candidates_in_buffer (candidates : list node) :
  exit_node_candidates m set_iter G disaster_node disaster_radius
  = Return candidates →
  Forall in_buffer' candidates.
Proof.
  unfold exit_node_candidates. intros H.
  apply bind_Return in H as ([ins outs] & Hclass & H).
  apply bind_Return in H as (bs & Hbs & H). simplify_eq.
  apply classify_outside in Hclass. apply boundary_outside in Hbs.
  rewrite Forall_forall in Hclass. rewrite Forall_forall in Hbs.
  apply Forall_forall. intros c Hc.
  apply set_iter_sound, list_elem_of_fmap in Hc as (pair & -> & Hpair).
  by apply Hclass, Hbs.
Qed.

(** Every candidate is scored, and its score is a number. *)
Lemma scoring_total (candidates : list node) (scored : list (node * float)) :
  Forall in_buffer' candidates →
  for_each (score_candidate m G disaster_node disaster_radius) candidates []
  = Return scored →
  scored.*1 = candidates
  ∧ Forall (λ e, exit_score m G disaster_node disaster_radius e.1 = Return e.2
                 ∧ not_nan e.2 ∧ on_land G e.1) scored.
Proof.
  intros Hcands H. rewrite Forall_forall in Hcands.
  refine (for_each_ind (score_candidate m G disaster_node disaster_radius)
    (λ pre acc,
       acc.*1 = pre
       ∧ Forall (λ e, exit_score m G disaster_node disaster_radius e.1 = Return e.2
                      ∧ not_nan e.2 ∧ on_land G e.1) acc)
    candidates [] scored _ _ H); [by split|].
  intros pre c acc acc' Hc [Hkeys Hacc] Hbody.
  destruct (Hcands c Hc) as (nd & ny & nx & d & Hnd & Hy & Hx & Hw & Hd & Hout & Hnear).
  unfold score_candidate in Hbody. destruct disaster_node as [lat lon] eqn:Hdn.
  rewrite Hnd in Hbody. simpl in Hbody. rewrite Hw, Hy, Hx in Hbody.
  simpl in Hbody, Hd. rewrite Hd in Hbody. simpl in Hbody. simplify_eq.
  split; [by rewrite fmap_app|].
  apply Forall_app. split; [done|]. constructor; [|constructor]. simpl.
  split_and!.
  - unfold exit_score. rewrite Hnd. simpl. rewrite Hy, Hx. simpl. by rewrite Hd.
  - apply score_not_nan; [done|done|apply road_score_cases].
  - by exists nd.
Qed.

Lemma get_disaster_exit_nodes_ranked (exit_nodes : list node) :
  get_disaster_exit_nodes m set_iter G disaster_node disaster_radius
  = Return exit_nodes →
  ∃ ranked : list (node * float),
    exit_nodes = ranked.*1
    ∧ length ranked ≤ max_exit_nodes
    ∧ StronglySorted by_score_desc ranked
    ∧ Forall (λ e, exit_score m G disaster_node disaster_radius e.1 = Return e.2
                   ∧ on_land G e.1) ranked.
Proof.
  unfold get_disaster_exit_nodes. intros H.
  apply bind_Return in H as (cands & Hcands & H).
  apply bind_Return in H as (scored & Hscored & H).
  apply candidates_in_buffer in Hcands.
  apply (scoring_total _ _ Hcands) in Hscored as [Hkeys Hgood].
  set (sorted := sort_by_score_desc scored) in *.
  assert (Hperm : sorted ≡ₚ scored) by apply sort_by_score_desc_perm.
  assert (Hsorted : StronglySorted by_score_desc sorted).
  { apply sort_by_score_desc_sorted. eapply Forall_impl; [exact Hgood|].
    by intros e (_ & He & _). }
  assert (Hret : exit_nodes = (take max_exit_nodes sorted).*1).
  { destruct ((take max_exit_nodes sorted).*1) as [|e es] eqn:Htake;
      [|by simplify_eq].
    destruct cands as [|c cands]; [by simplify_eq|]. exfalso.
    destruct scored as [|s scored]; [done|].
    destruct sorted as [|s' sorted']; [by apply Permutation_nil_cons in Hperm|].
    done. }
  exists (take max_exit_nodes sorted). split_and!; [done| | |].
  - rewrite length_take. lia.
  - rewrite <- (take_drop max_exit_nodes sorted) in Hsorted.
    by apply StronglySorted_app_1_l in Hsorted.
  - apply Forall_take. rewrite Hperm. eapply Forall_impl; [exact Hgood|].
    by intros e (He & _ & Hland).
Qed.
End ExitNodes.

Lemma set_iter_sorted_sound (l : list node) (x : node) :
  x ∈ set_iter_sorted l → x ∈ l.
Proof.
  unfold set_iter_sorted. rewrite merge_sort_Permutation.
  apply elem_of_remove_dups.
Qed.

(** C7: exit-node discovery returns at most 10 nodes, all of them in the
    network and not flagged as water, in the order of their scores, highest
    first.  The network is a dictionary (no node occurs twice) and iterating
    a set yields elements of the set.  The single-candidate fallback is
    never taken: every candidate is on land and gets a score. *)
Theorem exit_nodes_bounded_ranked_on_land (m : libm)
    (set_iter : list node → list node) (G : graph)
    (disaster_node : float * float) (disaster_radius : float)
    (exit_nodes : list node) :
  (∀ l x, x ∈ set_iter l → x ∈ l) →
  NoDup G.*1 →
  get_disaster_exit_nodes m set_iter G disaster_node disaster_radius
  = Return exit_nodes →
  length exit_nodes ≤ 10
  ∧ Forall (on_land G) exit_nodes
  ∧ ∃ scores : list float,
      Forall2 (λ n score,
                 exit_score m G disaster_node disaster_radius n = Return score)
              exit_nodes scores
      ∧ StronglySorted (λ a b, (b <=? a)%float = true) scores.
Proof.
  intros Hiter Hkeys H.
  apply get_disaster_exit_nodes_ranked in H
    as (ranked & -> & Hlen & Hsorted & Hgood); [|done|done].
  split_and!.
  - by rewrite length_fmap.
  - apply Forall_fmap. eapply Forall_impl; [exact Hgood|]. by intros e [_ He].
  - exists ranked.*2. split.
    + apply Forall2_fmap, Forall_Forall2_diag.
      eapply Forall_impl; [exact Hgood|]. by intros e [He _].
    + eapply StronglySorted_fmap; [|exact Hsorted]. by intros a b Hab.
Qed.

Lemma exit_nodes_bounded_ranked_on_land_witness :
  get_disaster_exit_nodes small_angle_libm set_iter_sorted fork hazard_center
    hazard_radius = Return [3; 2]%Z
  ∧ length [3; 2]%Z ≤ 10
  ∧ Forall (on_land fork) [3; 2]%Z
  ∧ ∃ scores : list float,
      Forall2 (λ n score,
                 exit_score small_angle_libm fork hazard_center hazard_radius n
                 = Return score)
              [3; 2]%Z scores
      ∧ StronglySorted (λ a b, (b <=? a)%float = true) scores.
Proof.
  assert (Hrun : get_disaster_exit_nodes small_angle_libm set_iter_sorted fork
                   hazard_center hazard_radius = Return [3; 2]%Z).
  { vm_compute. reflexivity. }
  split; [exact Hrun|].
  apply (exit_nodes_bounded_ranked_on_land small_angle_libm set_iter_sorted
           fork hazard_center hazard_radius [3; 2]%Z set_iter_sorted_sound).
  - apply (bool_decide_unpack _). vm_compute. exact I.
  - exact Hrun.
Defined.

(** * Further properties of the engine *)

(** ** The path materializer *)

Lemma G_nodes_Return {N E : Type} (G : graph_of N E) (n : node) (d : N) :
  G_nodes G n = Return d ↔ ∃ vx, assoc n G = Some vx ∧ data vx = d.
Proof.
  unfold G_nodes. destruct (assoc n G) as [vx|]; simpl; split.
  - intros H. simplify_eq. eauto.
  - intros (vx' & H & <-). by simplify_eq.
  - done.
  - by intros (vx' & H & _).
Qed.

Lemma G_nodes_Raise {N E : Type} (G : graph_of N E) (n : node) :
  assoc n G = None → G_nodes G n = Raise KeyError.
Proof. unfold G_nodes. by intros ->. Qed.

(** The loop of the materializer, started with some coordinates. *)
Lemma materialize_loop (G : graph) (path : list node)
    (coordinates : list (float * float)) :
  for_each
    (λ coordinates node_id,
       node_data ← G_nodes G node_id;
       match Node.x node_data, Node.y node_data with
       | Some nx, Some ny => Return (coordinates ++ [(ny, nx)])
       | _, _ => Return coordinates
       end)
    path coordinates
  = if bool_decide (Forall (λ n, is_Some (assoc n G)) path)
    then Return (coordinates ++ omap (coordinates_of G) path)
    else Raise KeyError.
Proof.
  revert coordinates. induction path as [|n path IH]; intros coordinates.
  - cbn [for_each]. case_bool_decide as H; [by rewrite app_nil_r|].
    destruct H. constructor.
  - cbn [for_each]. destruct (assoc n G) as [vx|] eqn:Hn.
    + assert (Hnd : G_nodes G n = Return (data vx)).
      { apply G_nodes_Return. eauto. }
      rewrite Hnd. cbn [mbind outcome_bind obind].
      assert (Hiff : Forall (λ n, is_Some (assoc n G)) (n :: path)
                     ↔ Forall (λ n, is_Some (assoc n G)) path).
      { rewrite Forall_cons. split; [by intros [_ ?]|]. intros ?. split; [|done].
        rewrite Hn. eauto. }
      rewrite (bool_decide_ext _ _ Hiff).
      assert (Hc : coordinates_of G n
                   = match Node.x (data vx), Node.y (data vx) with
                     | Some nx, Some ny => Some (ny, nx)
                     | _, _ => None
                     end).
      { unfold coordinates_of. by rewrite Hn. }
      change (omap (coordinates_of G) (n :: path))
        with (match coordinates_of G n with
              | Some c => c :: omap (coordinates_of G) path
              | None => omap (coordinates_of G) path
              end).
      rewrite Hc.
      destruct (Node.x (data vx)) as [nx|], (Node.y (data vx)) as [ny|];
        cbn [mbind outcome_bind obind];
        rewrite IH; destruct (bool_decide _); try done.
      by rewrite <- app_assoc.
    + rewrite (G_nodes_Raise _ _ Hn). simpl.
      rewrite bool_decide_eq_false_2; [done|].
      intros H. apply Forall_cons in H as [[? H] _]. congruence.
Qed.

Lemma get_path_coordinates_Some (G : graph) (path : list node) :
  get_path_coordinates G (Some path)
  = if bool_decide (Forall (λ n, is_Some (assoc n G)) path)
    then Return (omap (coordinates_of G) path)
    else Raise KeyError.
Proof.
  destruct path as [|n path].
  - cbn [get_path_coordinates]. case_bool_decide as H; [done|].
    destruct H. constructor.
  - unfold get_path_coordinates. by rewrite materialize_loop.
Qed.

(** X1: [get_path_coordinates] returns the empty list for [None] (and for
    the empty path); for a path it raises [KeyError] when some node of the
    path is not in the network, and otherwise returns the (lat, lon) pairs
    of the nodes that carry both coordinates, in the order of the path,
    silently leaving out the others. *)
Theorem get_path_coordinates_spec (G : graph) (path : list node) :
  get_path_coordinates G None = Return []
  ∧ get_path_coordinates G (Some path)
    = if bool_decide (Forall (λ n, is_Some (assoc n G)) path)
      then Return (omap (coordinates_of G) path)
      else Raise KeyError.
Proof. split; [done|apply get_path_coordinates_Some]. Qed.

(** ** The three membership tests *)

Lemma is_in_disaster_radius_as_check (m : libm) (G : graph) (point : node)
    (node_data : Node.t) (lat lon : float) (center : float * float)
    (radius : float) :
  G_nodes G point = Return node_data →
  Node.y node_data = Some lat →
  Node.x node_data = Some lon →
  is_in_disaster_radius m point center radius G
  = check_if_in_radius m (lat, lon) center radius.
Proof.
  destruct center as [lat2 lon2]. intros Hnd Hy Hx.
  unfold is_in_disaster_radius, check_if_in_radius.
  rewrite Hnd. simpl. by rewrite Hy, Hx.
Qed.

(** X2: the three membership tests of the repository agree:
    [map_utils.check_if_in_radius] (with its own copy of the haversine
    formula) computes what [data_processing.check_if_in_radius] computes,
    and [is_in_disaster_radius] on a node with coordinates computes what
    [check_if_in_radius] computes on the node's (lat, lon), exceptions
    included. *)
Theorem membership_tests_agree (m : libm) (G : graph) (point : node)
    (node_data : Node.t) (lat lon : float) (center : float * float)
    (radius : float) :
  MapUtils.check_if_in_radius m (lat, lon) center radius
  = check_if_in_radius m (lat, lon) center radius
  ∧ (G_nodes G point = Return node_data →
     Node.y node_data = Some lat →
     Node.x node_data = Some lon →
     is_in_disaster_radius m point center radius G
     = check_if_in_radius m (lat, lon) center radius).
Proof.
  destruct center as [lat2 lon2]. split.
  - unfold MapUtils.check_if_in_radius, check_if_in_radius, haversine_distance.
    repeat match goal with
           | |- context [?o ≫= _] =>
               is_var o || (destruct o; cbn [mbind outcome_bind obind]; try done)
           end.
  - apply is_in_disaster_radius_as_check.
Qed.

(** ** More on exit-node discovery *)

Lemma assoc_Some_elem_of {V : Type} (k : node) (v : V) (l : list (node * V)) :
  assoc k l = Some v → (k, v) ∈ l.
Proof.
  induction l as [|[k' v'] l IH]; [done|]. simpl.
  case_bool_decide; intros Hv; simplify_eq; [left|right; auto].
Qed.

Lemma G_neighbors_elem_of (G : graph) (a b : node) :
  adjacent G a b →
  ∃ vx d, (a, vx) ∈ G ∧ assoc a G = Some vx ∧ (b, d) ∈ nbrs vx.
Proof.
  intros (ns & Hns & Hb). unfold G_neighbors in Hns.
  destruct (assoc a G) as [vx|] eqn:Ha; [|done]. simplify_eq.
  apply list_elem_of_fmap in Hb as ([b' d] & -> & Hin).
  exists vx, d. split_and!; [|done|done].
  clear Hin. induction G as [|[k v] G IH]; [done|]. simpl in Ha.
  case_bool_decide; simplify_eq; [left|right; auto].
Qed.

Section ExitNodesMore.
Context (m : libm) (set_iter : list node → list node).
Context (G : graph) (disaster_node : float * float) (disaster_radius : float).

Local Abbreviation in_buffer' := (in_buffer m G disaster_node disaster_radius).
Local Abbreviation inside' := (inside_on_land m G disaster_node disaster_radius).

Lemma classify_inside (inside_nodes outside_nodes : list node) :
  NoDup G.*1 →
  for_each (classify_node m disaster_node disaster_radius) G ([], [])
  = Return (inside_nodes, outside_nodes) →
  Forall inside' inside_nodes.
Proof.
  intros G_keys H.
  refine (for_each_inv (classify_node m disaster_node disaster_radius)
            (λ acc, Forall inside' acc.1) G _ _ _ _ H); [constructor|].
  intros [n vx] [ins outs] acc' Hin Hacc Hbody. simpl in *.
  unfold classify_node in Hbody. destruct disaster_node as [lat lon] eqn:Hdn.
  destruct (Node.x (data vx)) as [nx|] eqn:Hx; [|by simplify_eq].
  destruct (Node.y (data vx)) as [ny|] eqn:Hy; [|by simplify_eq].
  destruct (get_is_water_node (data vx)) eqn:Hw; [by simplify_eq|].
  apply bind_Return in Hbody as (d & Hd & Hbody).
  destruct (d <=? disaster_radius)%float eqn:Hle.
  - simplify_eq. simpl. apply Forall_app. split; [done|].
    constructor; [|constructor].
    exists (data vx), ny, nx, d. split_and!; try done.
    unfold G_nodes. by rewrite (assoc_elem_of _ _ _ G_keys Hin).
  - by destruct (d <=? disaster_radius + buffer_distance)%float; simplify_eq.
Qed.

(** What the second pass records: pairs of an iterated inside node and a
    neighbour of it in [outside_nodes]. *)
Lemma boundary_pairs (outside_nodes inside_nodes : list node)
    (boundary_nodes : list (node * node)) :
  for_each (boundary_of G outside_nodes) inside_nodes [] = Return boundary_nodes →
  Forall (λ pair : node * node,
            pair.1 ∈ inside_nodes ∧ pair.2 ∈ outside_nodes
            ∧ adjacent G pair.1 pair.2)
         boundary_nodes.
Proof.
  intros H.
  set (P := λ pair : node * node,
              pair.1 ∈ inside_nodes ∧ pair.2 ∈ outside_nodes
              ∧ adjacent G pair.1 pair.2).
  refine (for_each_inv (boundary_of G outside_nodes) (Forall P)
            inside_nodes _ _ _ _ H); [constructor|].
  intros inside_node acc acc' Hin Hacc Hbody. unfold boundary_of in Hbody.
  apply bind_Return in Hbody as (ns & Hns & Hbody).
  refine (for_each_inv _ (Forall P) ns _ _ Hacc _ Hbody).
  intros neighbor b b' Hnb Hb Hstep. simpl in Hstep.
  destruct (bool_decide (neighbor ∈ outside_nodes)) eqn:Hout; [|by simplify_eq].
  apply bool_decide_eq_true_1 in Hout.
  unfold keyed_get in Hstep. simpl in Hstep. simplify_eq.
  apply Forall_app. split; [done|]. constructor; [|constructor].
  split_and!; simpl; [done|done|]. by exists ns.
Qed.

(** Every candidate lies in the buffer behind the radius and is a neighbour
    of a node on land within the radius. *)
Lemma candidates_on_boundary (candidates : list node) :
  (∀ l x, x ∈ set_iter l → x ∈ l) →
  NoDup G.*1 →
  exit_node_candidates m set_iter G disaster_node disaster_radius
  = Return candidates →
  Forall (λ c, in_buffer' c ∧ ∃ a, inside' a ∧ adjacent G a c) candidates.
Proof.
  intros set_iter_sound G_keys H. unfold exit_node_candidates in H.
  apply bind_Return in H as ([ins outs] & Hclass & H).
  apply bind_Return in H as (bs & Hbs & H). simplify_eq.
  pose proof (classify_inside _ _ G_keys Hclass) as Hins.
  pose proof (classify_outside m G disaster_node disaster_radius G_keys _ _ Hclass)
    as Houts.
  apply boundary_pairs in Hbs.
  rewrite Forall_forall in Hins. rewrite Forall_forall in Houts.
  rewrite Forall_forall in Hbs. apply Forall_forall. intros c Hc.
  apply set_iter_sound, list_elem_of_fmap in Hc as ([a c'] & -> & Hpair).
  destruct (Hbs _ Hpair) as (Ha & Hc' & Hadj). simpl in *.
  split; [by apply Houts|]. exists a. split; [|done].
  by apply Hins, set_iter_sound.
Qed.

(** The nodes that get a score are candidates, in the order of the
    candidates. *)
Lemma scored_sublist (candidates : list node) (scored : list (node * float)) :
  for_each (score_candidate m G disaster_node disaster_radius) candidates []
  = Return scored →
  scored.*1 `sublist_of` candidates.
Proof.
  intros H.
  refine (for_each_ind (score_candidate m G disaster_node disaster_radius)
            (λ pre acc, acc.*1 `sublist_of` pre) candidates [] scored _ _ H);
    [done|].
  intros pre c acc acc' _ Hacc Hbody. unfold score_candidate in Hbody.
  destruct disaster_node as [lat lon].
  apply bind_Return in Hbody as (nd & _ & Hbody).
  destruct (get_is_water_node nd).
  - simplify_eq. by apply sublist_inserts_r.
  - apply bind_Return in Hbody as (ny & _ & Hbody).
    apply bind_Return in Hbody as (nx & _ & Hbody).
    apply bind_Return in Hbody as (d & _ & Hbody). simplify_eq.
    rewrite fmap_app. by apply sublist_app.
Qed.

(** The exit nodes are candidates. *)
Lemma exit_nodes_are_candidates (exit_nodes : list node) :
  get_disaster_exit_nodes m set_iter G disaster_node disaster_radius
  = Return exit_nodes →
  ∃ candidates,
    exit_node_candidates m set_iter G disaster_node disaster_radius
    = Return candidates
    ∧ (∀ x, x ∈ exit_nodes → x ∈ candidates)
    ∧ (NoDup candidates → NoDup exit_nodes).
Proof.
  unfold get_disaster_exit_nodes. intros H.
  apply bind_Return in H as (cands & Hcands & H).
  apply bind_Return in H as (scored & Hscored & H).
  exists cands. split; [done|]. apply scored_sublist in Hscored.
  set (sorted := sort_by_score_desc scored) in *.
  assert (Hperm : sorted.*1 ≡ₚ scored.*1).
  { apply fmap_Permutation, sort_by_score_desc_perm. }
  assert (Htake : (take max_exit_nodes sorted).*1 `sublist_of` sorted.*1).
  { rewrite fmap_take. apply sublist_take. }
  destruct ((take max_exit_nodes sorted).*1) as [|e es] eqn:Heq.
  - destruct cands as [|c cands]; simplify_eq.
    + split; [done|]. intros _. constructor.
    + split.
      * intros x Hx. apply list_elem_of_singleton in Hx as ->. left.
      * intros _. apply NoDup_singleton.
  - assert (exit_nodes = e :: es) as -> by by destruct cands; simplify_eq.
    split.
    + intros x Hx. eapply elem_of_sublist; [|exact Hscored].
      rewrite <- Hperm. eapply elem_of_sublist; [exact Hx|exact Htake].
    + intros Hnd. eapply sublist_NoDup; [|exact Htake].
      rewrite Hperm. by eapply sublist_NoDup.
Qed.

Lemma exit_node_boundary (exit_nodes : list node) (c : node) :
  (∀ l x, x ∈ set_iter l → x ∈ l) →
  NoDup G.*1 →
  get_disaster_exit_nodes m set_iter G disaster_node disaster_radius
  = Return exit_nodes →
  c ∈ exit_nodes →
  in_buffer' c ∧ ∃ a, inside' a ∧ adjacent G a c.
Proof.
  intros Hiter Hkeys H Hc.
  apply exit_nodes_are_candidates in H as (cands & Hcands & Hsub & _).
  apply (candidates_on_boundary _ Hiter Hkeys) in Hcands.
  rewrite Forall_forall in Hcands. by apply Hcands, Hsub.
Qed.

(** The first pass misses no node: every node on land within the radius is
    in [inside_nodes], every node on land in the buffer in
    [outside_nodes]. *)
Lemma classify_complete (inside_nodes outside_nodes : list node) :
  for_each (classify_node m disaster_node disaster_radius) G ([], [])
  = Return (inside_nodes, outside_nodes) →
  (∀ a, inside' a → a ∈ inside_nodes) ∧ (∀ c, in_buffer' c → c ∈ outside_nodes).
Proof.
  intros H.
  assert (Hloop : ∀ n vx ny nx d,
            (n, vx) ∈ G →
            Node.y (data vx) = Some ny → Node.x (data vx) = Some nx →
            get_is_water_node (data vx) = false →
            haversine_distance m ny nx disaster_node.1 disaster_node.2
            = Return d →
            ((d <=? disaster_radius)%float = true → n ∈ inside_nodes)
            ∧ ((d <=? disaster_radius)%float = false →
               (d <=? disaster_radius + buffer_distance)%float = true →
               n ∈ outside_nodes)).
  { refine (for_each_ind (classify_node m disaster_node disaster_radius)
      (λ pre acc,
         ∀ n vx ny nx d,
           (n, vx) ∈ pre →
           Node.y (data vx) = Some ny → Node.x (data vx) = Some nx →
           get_is_water_node (data vx) = false →
           haversine_distance m ny nx disaster_node.1 disaster_node.2
           = Return d →
           ((d <=? disaster_radius)%float = true → n ∈ acc.1)
           ∧ ((d <=? disaster_radius)%float = false →
              (d <=? disaster_radius + buffer_distance)%float = true →
              n ∈ acc.2))
      G ([], []) (inside_nodes, outside_nodes) _ _ H).
    - intros n vx ny nx d Hin. by apply elem_of_nil in Hin.
    - intros pre [n0 vx0] [ins outs] acc' _ Hpre Hbody n vx ny nx d Hin Hy Hx Hw Hd.
      assert (Hmono : (∀ x, x ∈ ins → x ∈ acc'.1) ∧ (∀ x, x ∈ outs → x ∈ acc'.2)).
      { unfold classify_node in Hbody. destruct disaster_node as [lat lon].
        destruct (Node.x (data vx0)), (Node.y (data vx0)); simplify_eq; try done.
        destruct (get_is_water_node (data vx0)); simplify_eq; [done|].
        apply bind_Return in Hbody as (d0 & _ & Hbody).
        destruct (d0 <=? disaster_radius)%float;
          [|destruct (d0 <=? disaster_radius + buffer_distance)%float];
          simplify_eq; simpl; split; intros x Hx0; try done;
          apply elem_of_app; by left. }
      destruct Hmono as [Hm1 Hm2].
      apply elem_of_app in Hin as [Hin|Hin].
      + destruct (Hpre n vx ny nx d Hin Hy Hx Hw Hd) as [H1 H2]. simpl in *.
        split; [intros ?; by apply Hm1, H1|intros ? ?; by apply Hm2, H2].
      + apply list_elem_of_singleton in Hin. simplify_eq.
        unfold classify_node in Hbody. destruct disaster_node as [lat lon].
        simpl in Hd. rewrite Hx, Hy, Hw in Hbody.
        rewrite Hd in Hbody. cbn [mbind outcome_bind obind] in Hbody.
        destruct (d <=? disaster_radius)%float eqn:Hle.
        * simplify_eq. simpl. split; [|done]. intros _.
          apply elem_of_app. right. left.
        * destruct (d <=? disaster_radius + buffer_distance)%float eqn:Hbuf;
            simplify_eq; simpl; (split; [done|]); [|done].
          intros _ _. apply elem_of_app. right. left. }
  split.
  - intros a (nd & ny & nx & d & Hnd & Hy & Hx & Hw & Hd & Hle).
    apply G_nodes_Return in Hnd as (vx & Hvx & <-).
    apply assoc_Some_elem_of in Hvx.
    by apply (Hloop a vx ny nx d Hvx Hy Hx Hw Hd).
  - intros c (nd & ny & nx & d & Hnd & Hy & Hx & Hw & Hd & Hout & Hbuf).
    apply G_nodes_Return in Hnd as (vx & Hvx & <-).
    apply assoc_Some_elem_of in Hvx.
    by apply (Hloop c vx ny nx d Hvx Hy Hx Hw Hd).
Qed.

(** The second pass misses no pair, whatever the edge carries. *)
Lemma boundary_complete (outside_nodes inside_nodes : list node)
    (boundary_nodes : list (node * node)) :
  for_each (boundary_of G outside_nodes) inside_nodes [] = Return boundary_nodes →
  ∀ a c, a ∈ inside_nodes → adjacent G a c → c ∈ outside_nodes →
         (a, c) ∈ boundary_nodes.
Proof.
  intros H.
  refine (for_each_ind (boundary_of G outside_nodes)
    (λ pre acc, ∀ a c, a ∈ pre → adjacent G a c → c ∈ outside_nodes →
                       (a, c) ∈ acc)
    inside_nodes [] boundary_nodes _ _ H).
  - intros a c Ha. by apply elem_of_nil in Ha.
  - intros pre a0 acc acc' _ Hpre Hbody. unfold boundary_of in Hbody.
    apply bind_Return in Hbody as (ns & Hns & Hbody).
    assert (Hinner : (∀ p, p ∈ acc → p ∈ acc')
                     ∧ ∀ c, c ∈ ns → c ∈ outside_nodes → (a0, c) ∈ acc').
    { refine (for_each_ind _
        (λ pre' b, (∀ p, p ∈ acc → p ∈ b)
                   ∧ ∀ c, c ∈ pre' → c ∈ outside_nodes → (a0, c) ∈ b)
        ns acc acc' _ _ Hbody).
      - split; [done|]. intros c Hc. by apply elem_of_nil in Hc.
      - intros pre' nb b b' _ [Hsub Hdone] Hstep. simpl in Hstep.
        unfold keyed_get in Hstep. simpl in Hstep.
        case_bool_decide as Hout; simplify_eq.
        + split.
          * intros p Hp. apply elem_of_app. left. by apply Hsub.
          * intros c Hc Hc'. apply elem_of_app.
            apply elem_of_app in Hc as [Hc|Hc]; [left; by apply Hdone|].
            apply list_elem_of_singleton in Hc as ->. right. left.
        + split; [done|]. intros c Hc Hc'.
          apply elem_of_app in Hc as [Hc|Hc]; [by apply Hdone|].
          by apply list_elem_of_singleton in Hc as ->. }
    destruct Hinner as [Hsub Hnew].
    intros a c Ha Hadj Hc. apply elem_of_app in Ha as [Ha|Ha].
    + by apply Hsub, Hpre.
    + apply list_elem_of_singleton in Ha as ->.
      destruct Hadj as (ns' & Hns' & Hin).
      assert (ns' = ns) as -> by congruence. by apply Hnew.
Qed.

(** The candidates are the nodes on land in the buffer that are a neighbour
    of a node on land within the radius. *)
Lemma candidates_complete (candidates : list node) (c : node) :
  (∀ l x, x ∈ set_iter l ↔ x ∈ l) →
  exit_node_candidates m set_iter G disaster_node disaster_radius
  = Return candidates →
  in_buffer' c → (∃ a, inside' a ∧ adjacent G a c) → c ∈ candidates.
Proof.
  intros Hiter H Hbuf (a & Ha & Hadj). unfold exit_node_candidates in H.
  apply bind_Return in H as ([ins outs] & Hclass & H).
  apply bind_Return in H as (bs & Hbs & H). simplify_eq.
  apply classify_complete in Hclass as [Hins Houts].
  apply Hiter, list_elem_of_fmap. exists (a, c). split; [done|].
  apply (boundary_complete _ _ _ Hbs); [|done|by apply Houts].
  by apply Hiter, Hins.
Qed.

(** With fewer than ten exit nodes, every candidate is one. *)
Lemma exit_nodes_all_when_few (exit_nodes candidates : list node) :
  (∀ l x, x ∈ set_iter l → x ∈ l) →
  NoDup G.*1 →
  get_disaster_exit_nodes m set_iter G disaster_node disaster_radius
  = Return exit_nodes →
  exit_node_candidates m set_iter G disaster_node disaster_radius
  = Return candidates →
  length exit_nodes < 10 →
  ∀ c, c ∈ candidates → c ∈ exit_nodes.
Proof.
  intros Hiter Hkeys H Hcands Hlen c Hc. unfold get_disaster_exit_nodes in H.
  rewrite Hcands in H. cbn [mbind outcome_bind obind] in H.
  apply bind_Return in H as (scored & Hscored & H).
  pose proof (candidates_in_buffer m set_iter G disaster_node disaster_radius
                Hiter Hkeys _ Hcands) as Hbuf.
  destruct (scoring_total m G disaster_node disaster_radius _ _ Hbuf Hscored)
    as [Hkeys' _].
  pose proof (sort_by_score_desc_perm scored) as Hperm.
  assert (Hex : exit_nodes = (take max_exit_nodes (sort_by_score_desc scored)).*1).
  { destruct ((take max_exit_nodes (sort_by_score_desc scored)).*1)
      as [|e es] eqn:Heq.
    - destruct candidates as [|c0 cands]; [by simplify_eq|]. exfalso.
      destruct scored as [|sc scored]; [done|].
      destruct (sort_by_score_desc (sc :: scored)); [|done].
      by apply Permutation_nil_cons in Hperm.
    - by destruct candidates; simplify_eq. }
  assert (Hshort : length (sort_by_score_desc scored) < 10).
  { rewrite Hex, length_fmap, length_take in Hlen. unfold max_exit_nodes in Hlen.
    lia. }
  rewrite Hex, take_ge by (unfold max_exit_nodes; lia).
  rewrite Hperm, Hkeys'. done.
Qed.

(** X3: every exit node [get_disaster_exit_nodes] returns lies on land in
    the 100 m buffer behind the radius and is a neighbour of a node on land
    within the radius; and when fewer than ten exit nodes are returned,
    every such node is one of them.  The ['is_water'] flag of the edge
    that joins the two plays no part: the second pass reads it from
    [G.get_edge_data], which on the multigraph finds none. *)
Theorem exit_nodes_on_boundary (exit_nodes : list node) (c : node) :
  (∀ l x, x ∈ set_iter l ↔ x ∈ l) →
  NoDup G.*1 →
  get_disaster_exit_nodes m set_iter G disaster_node disaster_radius
  = Return exit_nodes →
  (c ∈ exit_nodes →
   in_buffer m G disaster_node disaster_radius c
   ∧ ∃ a, inside_on_land m G disaster_node disaster_radius a ∧ adjacent G a c)
  ∧ (length exit_nodes < 10 →
     in_buffer m G disaster_node disaster_radius c →
     (∃ a, inside_on_land m G disaster_node disaster_radius a
           ∧ adjacent G a c) →
     c ∈ exit_nodes).
Proof.
  intros Hiter Hkeys H.
  assert (Hsound : ∀ l x, x ∈ set_iter l → x ∈ l) by (intros l x; apply Hiter).
  split.
  - intros Hc. by apply (exit_node_boundary exit_nodes).
  - intros Hlen Hbuf Hnb.
    pose proof H as H'. unfold get_disaster_exit_nodes in H'.
    apply bind_Return in H' as (cands & Hcands & _).
    apply (exit_nodes_all_when_few _ _ Hsound Hkeys H Hcands Hlen).
    by apply (candidates_complete cands).
Qed.

(** X4: when the iteration of a set yields every element once, the exit
    nodes returned are pairwise distinct. *)
Theorem exit_nodes_distinct (exit_nodes : list node) :
  (∀ l, NoDup (set_iter l)) →
  get_disaster_exit_nodes m set_iter G disaster_node disaster_radius
  = Return exit_nodes →
  NoDup exit_nodes.
Proof.
  intros Hiter H.
  apply exit_nodes_are_candidates in H as (cands & Hcands & _ & Hnd).
  apply Hnd. unfold exit_node_candidates in Hcands.
  apply bind_Return in Hcands as ([ins outs] & _ & Hcands).
  apply bind_Return in Hcands as (bs & _ & Hcands). simplify_eq. apply Hiter.
Qed.

(** X5: every candidate gets a score, and the result is the first ten
    candidates in the order of the stable descending sort: as many exit
    nodes as candidates, up to ten.  The fallback to the first candidate
    ([if not exit_nodes and exit_node_candidates]) is therefore never
    taken. *)
Theorem exit_nodes_count (exit_nodes : list node) :
  (∀ l x, x ∈ set_iter l → x ∈ l) →
  NoDup G.*1 →
  get_disaster_exit_nodes m set_iter G disaster_node disaster_radius
  = Return exit_nodes →
  ∃ candidates scored,
    exit_node_candidates m set_iter G disaster_node disaster_radius
    = Return candidates
    ∧ for_each (score_candidate m G disaster_node disaster_radius) candidates []
      = Return scored
    ∧ scored.*1 = candidates
    ∧ exit_nodes = (take 10 (sort_by_score_desc scored)).*1
    ∧ length exit_nodes = length candidates `min` 10.
Proof.
  intros Hiter Hkeys H. unfold get_disaster_exit_nodes in H.
  apply bind_Return in H as (cands & Hcands & H).
  apply bind_Return in H as (scored & Hscored & H).
  pose proof (candidates_in_buffer m set_iter G disaster_node disaster_radius
                Hiter Hkeys _ Hcands) as Hbuf.
  destruct (scoring_total m G disaster_node disaster_radius _ _ Hbuf Hscored)
    as [Hkeys' _].
  assert (Hex : exit_nodes = (take max_exit_nodes (sort_by_score_desc scored)).*1).
  { destruct ((take max_exit_nodes (sort_by_score_desc scored)).*1)
      as [|e es] eqn:Heq.
    - destruct cands as [|c cands]; [by simplify_eq|]. exfalso.
      destruct scored as [|sc scored]; [done|].
      pose proof (sort_by_score_desc_perm (sc :: scored)) as Hperm.
      destruct (sort_by_score_desc (sc :: scored)); [|done].
      by apply Permutation_nil_cons in Hperm.
    - by destruct cands; simplify_eq. }
  exists cands, scored. split_and!; [done|done|done|done|].
  rewrite Hex, length_fmap, length_take, sort_by_score_desc_perm.
  rewrite <- Hkeys', length_fmap. unfold max_exit_nodes. lia.
Qed.
End ExitNodesMore.

(** ** Where a route starts and ends *)

Section RouteGoal.
Context (m : libm) (G : graph) (start_node : node)
        (disaster_node : float * float) (disaster_radius : float)
        (exit_nodes : list node).

(** The search returns a route only when it pops an exit node, and the
    route ends there. *)
Lemma a_star_loop_goal (fuel : nat) (st : search) (path : list node) :
  search_inv G start_node st →
  a_star_loop m G start_node disaster_node disaster_radius exit_nodes fuel st
  = Return (Some path) →
  ∃ goal, last path = Some goal ∧ goal ∈ exit_nodes.
Proof.
  revert st. induction fuel as [|fuel IH]; intros st Hinv H; [done|].
  simpl in H. destruct (pq_get (open_set st)) as [[[f current] q']|] eqn:Hget;
    [|by simplify_eq].
  apply pq_get_elem in Hget as [Hin Hsub].
  apply bind_Return in H as (hash' & _ & H).
  assert (Hcur : current = start_node ∨ is_Some (came_from st !! current)).
  { destruct Hinv as [_ Hopen]. apply (Hopen _ Hin). }
  destruct (bool_decide (current ∈ exit_nodes)) eqn:Hgoal.
  - apply bool_decide_eq_true_1 in Hgoal.
    apply bind_Return in H as (p & Hp & H). simplify_eq.
    unfold reconstruct_path in Hp. apply bind_Return in Hp as (w & Hw & Hp).
    simplify_eq. apply walk_back_chain in Hw as (l & -> & Hl). simpl.
    destruct (chain_route G start_node st current l Hinv Hcur Hl) as (Hhead & _).
    exists current. by rewrite last_reverse.
  - apply bind_Return in H as (ns & Hns & H).
    apply bind_Return in H as (st' & Hloop & H).
    apply (IH st'); [|done].
    refine (proj1 (for_each_inv
      (relax m G disaster_node disaster_radius exit_nodes current)
      (λ s, search_inv G start_node s
            ∧ (current = start_node ∨ is_Some (came_from s !! current)))
      ns _ st' _ _ Hloop)).
    + split; [|done]. destruct Hinv as [Hcf Hopen]. split; [done|].
      simpl. intros e He. apply Hopen, Hsub, He.
    + intros a s t Ha Hs Hrel.
      eapply (relax_inv m G start_node); [|done..]. by exists ns.
Qed.
End RouteGoal.

Lemma a_star_evacuation_goal (m : libm) (set_iter : list node → list node)
    (fuel : nat) (G : graph) (start_node : node)
    (disaster_node : float * float) (disaster_radius : float)
    (path : list node) :
  a_star_evacuation m set_iter fuel G (Some start_node) disaster_node
    disaster_radius = Return (Some path) →
  path ≠ [] →
  is_in_disaster_radius m start_node disaster_node disaster_radius G
  = Return true
  ∧ ∃ exit_nodes goal,
      get_disaster_exit_nodes m set_iter G disaster_node disaster_radius
      = Return exit_nodes
      ∧ head path = Some start_node
      ∧ last path = Some goal
      ∧ goal ∈ exit_nodes.
Proof.
  intros H Hne. unfold a_star_evacuation in H.
  apply bind_Return in H as ([|] & Hin & H); simpl in H; [|by simplify_eq].
  split; [done|].
  apply bind_Return in H as (exits & Hexits & H).
  destruct exits as [|e exits]; [by simplify_eq|].
  apply bind_Return in H as (h & _ & H).
  pose proof (search_inv_initial G start_node h) as Hinv.
  destruct (a_star_loop_goal _ _ _ _ _ _ _ _ _ Hinv H) as (goal & Hlast & Hgoal).
  destruct (a_star_loop_route _ _ _ _ _ _ _ _ _ Hinv H) as (rest & -> & _).
  eauto 10.
Qed.

(** A node within the radius is not in the buffer behind it. *)
Lemma inside_not_in_buffer (m : libm) (G : graph) (n : node)
    (disaster_node : float * float) (disaster_radius : float) :
  is_in_disaster_radius m n disaster_node disaster_radius G = Return true →
  ¬ in_buffer m G disaster_node disaster_radius n.
Proof.
  intros Hin Hbuf.
  apply is_in_disaster_radius_spec in Hin
    as (nd & ny & nx & d & Hnd & Hy & Hx & Hd & Hle).
  destruct Hbuf as (nd' & ny' & nx' & d' & Hnd' & Hy' & Hx' & _ & Hd' & Hle' & _).
  assert (nd' = nd) as -> by congruence. congruence.
Qed.

Lemma a_star_evacuation_ends (m : libm) (set_iter : list node → list node)
    (fuel : nat) (G : graph) (start_node : node)
    (disaster_node : float * float) (disaster_radius : float)
    (path : list node) :
  (∀ l x, x ∈ set_iter l → x ∈ l) →
  NoDup G.*1 →
  a_star_evacuation m set_iter fuel G (Some start_node) disaster_node
    disaster_radius = Return (Some path) →
  path ≠ [] →
  ∃ goal,
    head path = Some start_node
    ∧ last path = Some goal
    ∧ is_in_disaster_radius m start_node disaster_node disaster_radius G
      = Return true
    ∧ in_buffer m G disaster_node disaster_radius goal.
Proof.
  intros Hiter Hkeys H Hne.
  destruct (a_star_evacuation_goal _ _ _ _ _ _ _ _ H Hne)
    as (Hin & exits & goal & Hexits & Hhead & Hlast & Hgoal).
  destruct (exit_node_boundary _ _ _ _ _ _ _ Hiter Hkeys Hexits Hgoal)
    as [Hbuf _].
  by exists goal.
Qed.

(** X6: a route the search returns for a person inside the hazard starts
    at the start node, which is within the radius, and ends at a node on
    land in the 100 m buffer behind the radius; start and end differ, so
    the route has at least two nodes. *)
Theorem route_leads_out (m : libm) (set_iter : list node → list node)
    (fuel : nat) (G : graph) (start_node : node)
    (disaster_node : float * float) (disaster_radius : float)
    (path : list node) :
  (∀ l x, x ∈ set_iter l → x ∈ l) →
  NoDup G.*1 →
  a_star_evacuation m set_iter fuel G (Some start_node) disaster_node
    disaster_radius = Return (Some path) →
  path ≠ [] →
  ∃ goal,
    head path = Some start_node
    ∧ last path = Some goal
    ∧ is_in_disaster_radius m start_node disaster_node disaster_radius G
      = Return true
    ∧ in_buffer m G disaster_node disaster_radius goal
    ∧ goal ≠ start_node
    ∧ 2 ≤ length path.
Proof.
  intros Hiter Hkeys H Hne.
  destruct (a_star_evacuation_ends _ _ _ _ _ _ _ _ Hiter Hkeys H Hne)
    as (goal & Hhead & Hlast & Hin & Hbuf).
  pose proof (inside_not_in_buffer _ _ _ _ _ Hin) as Hout.
  exists goal. split_and!; [done|done|done|done|by intros ->|].
  destruct path as [|a [|b path]]; [done| |simpl; lia]. exfalso.
  simpl in Hhead, Hlast. by simplify_eq.
Qed.

(** ** Routes and the materializer *)

Lemma on_land_in_network (G : graph) (n : node) :
  on_land G n → is_Some (assoc n G).
Proof.
  intros (d & Hd & _). apply G_nodes_Return in Hd as (vx & -> & _). eauto.
Qed.

Lemma omap_length_le {A B : Type} (f : A → option B) (l : list A) :
  length (omap f l) ≤ length l.
Proof.
  induction l as [|a l IH]; [done|].
  change (omap f (a :: l))
    with (match f a with Some b => b :: omap f l | None => omap f l end).
  destruct (f a); simpl; lia.
Qed.

Lemma a_star_route_in_network (m : libm) (set_iter : list node → list node)
    (fuel : nat) (G : graph) (start_node : node)
    (disaster_node : float * float) (disaster_radius : float)
    (path : list node) :
  a_star_evacuation m set_iter fuel G (Some start_node) disaster_node
    disaster_radius = Return (Some path) →
  Forall (λ n, is_Some (assoc n G)) path.
Proof.
  intros H.
  destruct (decide (path = [])) as [->|Hne]; [constructor|].
  destruct (a_star_evacuation_goal _ _ _ _ _ _ _ _ H Hne) as (Hin & _).
  destruct (a_star_evacuation_route _ _ _ _ _ _ _ _ H)
    as [?|(rest & -> & Hland & _)]; [done|].
  constructor.
  - apply is_in_disaster_radius_spec in Hin as (nd & _ & _ & _ & Hnd & _).
    apply G_nodes_Return in Hnd as (vx & -> & _). eauto.
  - eapply Forall_impl; [exact Hland|]. apply on_land_in_network.
Qed.

(** X7: [get_path_coordinates] never raises on a route that
    [a_star_evacuation] returned for the same network: it returns the
    coordinates of the nodes of the route that carry some, so at most one
    point per node. *)
Theorem route_materializes (m : libm) (set_iter : list node → list node)
    (fuel : nat) (G : graph) (start_node : node)
    (disaster_node : float * float) (disaster_radius : float)
    (path : list node) :
  a_star_evacuation m set_iter fuel G (Some start_node) disaster_node
    disaster_radius = Return (Some path) →
  get_path_coordinates G (Some path) = Return (omap (coordinates_of G) path)
  ∧ length (omap (coordinates_of G) path) ≤ length path.
Proof.
  intros H. split; [|apply omap_length_le].
  rewrite get_path_coordinates_Some, bool_decide_eq_true_2; [done|].
  by eapply a_star_route_in_network.
Qed.

Lemma coordinates_of_Some (G : graph) (n : node) (nd : Node.t) (ny nx : float) :
  G_nodes G n = Return nd → Node.y nd = Some ny → Node.x nd = Some nx →
  coordinates_of G n = Some (ny, nx).
Proof.
  intros Hnd Hy Hx. apply G_nodes_Return in Hnd as (vx & Hvx & <-).
  unfold coordinates_of. rewrite Hvx. simpl. by rewrite Hx, Hy.
Qed.

(** X8: the engine and the materializer composed: the coordinate list of
    a route out of the hazard starts at the coordinates of the start node
    and ends at the coordinates of the exit node reached, and has at least
    two points. *)
Theorem materialized_route_endpoints (m : libm)
    (set_iter : list node → list node) (fuel : nat) (G : graph)
    (start_node : node) (disaster_node : float * float)
    (disaster_radius : float) (path : list node) :
  (∀ l x, x ∈ set_iter l → x ∈ l) →
  NoDup G.*1 →
  a_star_evacuation m set_iter fuel G (Some start_node) disaster_node
    disaster_radius = Return (Some path) →
  path ≠ [] →
  ∃ coordinates goal first_point last_point,
    get_path_coordinates G (Some path) = Return coordinates
    ∧ last path = Some goal
    ∧ coordinates_of G start_node = Some first_point
    ∧ coordinates_of G goal = Some last_point
    ∧ head coordinates = Some first_point
    ∧ last coordinates = Some last_point
    ∧ 2 ≤ length coordinates.
Proof.
  intros Hiter Hkeys H Hne.
  assert (Hcoords : get_path_coordinates G (Some path)
                    = Return (omap (coordinates_of G) path)).
  { rewrite get_path_coordinates_Some, bool_decide_eq_true_2; [done|].
    by eapply a_star_route_in_network. }
  destruct (a_star_evacuation_ends _ _ _ _ _ _ _ _ Hiter Hkeys H Hne)
    as (goal & Hhead & Hlast & Hin & Hbuf).
  assert (Hneq : goal ≠ start_node).
  { intros ->. by apply (inside_not_in_buffer _ _ _ _ _ Hin). }
  apply is_in_disaster_radius_spec in Hin
    as (nd & ny & nx & d & Hnd & Hy & Hx & _ & _).
  destruct Hbuf as (nd' & ny' & nx' & d' & Hnd' & Hy' & Hx' & _).
  pose proof (coordinates_of_Some _ _ _ _ _ Hnd Hy Hx) as Hfirst.
  pose proof (coordinates_of_Some _ _ _ _ _ Hnd' Hy' Hx') as Hgoal.
  exists (omap (coordinates_of G) path), goal, (ny, nx), (ny', nx').
  destruct path as [|a path]; [done|]. simpl in Hhead. simplify_eq.
  apply last_Some in Hlast as (init & Hinit).
  destruct init as [|a' init]; simpl in Hinit; injection Hinit as Ha Hpath;
    subst path; [by destruct Hneq|]. subst a'.
  assert (Heq : omap (coordinates_of G) (start_node :: init ++ [goal])
                = (ny, nx) :: omap (coordinates_of G) init ++ [(ny', nx')]).
  { change (omap (coordinates_of G) (start_node :: init ++ [goal]))
      with (match coordinates_of G start_node with
            | Some c => c :: omap (coordinates_of G) (init ++ [goal])
            | None => omap (coordinates_of G) (init ++ [goal])
            end).
    rewrite Hfirst, omap_app.
    change (omap (coordinates_of G) [goal])
      with (match coordinates_of G goal with Some c => [c] | None => [] end).
    by rewrite Hgoal. }
  rewrite Heq. split_and!; try done.
  - by rewrite <- Heq.
  - by rewrite app_comm_cons, last_snoc.
  - by rewrite app_comm_cons, last_snoc.
  - simpl. rewrite length_app. simpl. lia.
Qed.

(** ** A hazard without extent *)

Lemma math_1_not_Diverge (func : float → float) (v : float) :
  math_1 func v ≠ Diverge.
Proof. unfold math_1. by repeat case_match. Qed.

Lemma haversine_distance_not_Diverge (m : libm) (lat1 lon1 lat2 lon2 : float) :
  haversine_distance m lat1 lon1 lat2 lon2 ≠ Diverge.
Proof.
  unfold haversine_distance, math_sin, math_cos, math_asin, math_sqrt.
  repeat match goal with
         | |- context [math_1 ?f ?v ≫= _] =>
             let H := fresh in
             pose proof (math_1_not_Diverge f v) as H;
             destruct (math_1 f v); cbn [mbind outcome_bind obind]; try done
         end.
Qed.

Lemma for_each_not_Diverge {A S : Type} (body : S → A → outcome S)
    (l : list A) (s : S) :
  (∀ s a, body s a ≠ Diverge) → for_each body l s ≠ Diverge.
Proof.
  intros Hbody. revert s. induction l as [|a l IH]; intros s; [done|].
  simpl. pose proof (Hbody s a). destruct (body s a); simpl; try done.
Qed.

(** X9: with a radius of zero the search does not return: a person
    standing on land on the centre itself, with an exit node in reach,
    gets an exception (the heuristic divides by the radius). *)
Theorem zero_radius_raises (m : libm) (set_iter : list node → list node)
    (fuel : nat) (G : graph) (start_node : node)
    (disaster_node : float * float) (disaster_radius : float)
    (exit_nodes : list node) :
  (disaster_radius =? 0)%float = true →
  is_in_disaster_radius m start_node disaster_node disaster_radius G
  = Return true →
  on_land G start_node →
  get_disaster_exit_nodes m set_iter G disaster_node disaster_radius
  = Return exit_nodes →
  exit_nodes ≠ [] →
  ∃ e, a_star_evacuation m set_iter fuel G (Some start_node) disaster_node
         disaster_radius = Raise e.
Proof.
  intros Hzero Hin (nd' & Hnd' & Hland) Hexits Hne.
  unfold a_star_evacuation. rewrite Hin. cbn [mbind outcome_bind obind negb].
  rewrite Hexits. cbn [mbind outcome_bind obind].
  destruct exit_nodes as [|e0 exits]; [done|].
  generalize (e0 :: exits). intros exit_nodes.
  apply is_in_disaster_radius_spec in Hin
    as (nd & ny & nx & d & Hnd & Hy & Hx & Hd & Hle).
  assert (nd' = nd) as -> by congruence.
  unfold heuristic. destruct disaster_node as [lat lon].
  rewrite Hnd. cbn [mbind outcome_bind obind]. rewrite Hx, Hy, Hland.
  simpl in Hd. rewrite Hd. cbn [mbind outcome_bind obind].
  match goal with
  | |- context [for_each ?body ?l ?s] =>
      pose proof (for_each_not_Diverge body l s) as Hdiv;
      destruct (for_each body l s) as [min_exit|e|]
  end.
  - simpl. rewrite <- Hle. simpl. unfold py_div. rewrite Hzero. simpl. eauto.
  - simpl. eauto.
  - exfalso. apply Hdiv; [|done]. intros s a.
    unfold G_nodes. destruct (assoc a G) as [avx|]; simpl; [|done].
    destruct (Node.x (data avx)), (Node.y (data avx)); try done.
    pose proof (haversine_distance_not_Diverge m ny nx f0 f).
    by destruct (haversine_distance m ny nx f0 f).
Qed.

(** ** The position resolver *)

Lemma lex_lt_trans (a b c : Z * Z * Z) :
  lex a b = Lt → lex b c = Lt → lex a c = Lt.
Proof.
  destruct a as [[a1 a2] a3], b as [[b1 b2] b3], c as [[c1 c2] c3].
  unfold lex. simpl.
  destruct (Z.compare_spec a1 b1), (Z.compare_spec b1 c1), (Z.compare_spec a1 c1);
    try lia; try done;
  destruct (Z.compare_spec a2 b2), (Z.compare_spec b2 c2), (Z.compare_spec a2 c2);
    try lia; try done;
  destruct (Z.compare_spec a3 b3), (Z.compare_spec b3 c3), (Z.compare_spec a3 c3);
    try lia; done.
Qed.

Lemma ltb_trans (a b c : float) :
  (a <? b)%float = true → (b <? c)%float = true → (a <? c)%float = true.
Proof.
  rewrite !ltb_true. intros (Ha & Hb & Hab) (_ & Hc & Hbc).
  split_and!; [done|done|]. by eapply lex_lt_trans.
Qed.

Lemma ltb_irrefl (a : float) : (a <? a)%float = false.
Proof.
  destruct (a <? a)%float eqn:H; [|done].
  apply ltb_true in H as (_ & _ & H). by rewrite lex_refl in H.
Qed.

Lemma haversine_distance_Raise (m : libm) (lat1 lon1 lat2 lon2 : float) (e : exn) :
  haversine_distance m lat1 lon1 lat2 lon2 = Raise e → e = ValueError.
Proof.
  assert (Hm : ∀ f v, math_1 f v = Raise e → e = ValueError).
  { intros f v. unfold math_1. repeat case_match; congruence. }
  unfold haversine_distance, math_sin, math_cos, math_asin, math_sqrt.
  repeat match goal with
         | |- context [math_1 ?f ?v ≫= _] =>
             let H := fresh in
             pose proof (Hm f v) as H;
             destruct (math_1 f v); cbn [mbind outcome_bind obind]; auto
         end; done.
Qed.

Section Scan.
Context (m : libm) (lat lon : float).

Local Abbreviation scan_body :=
  (λ (acc : float * option node) (entry : node * vertex Node.t Edge.t),
     let '(min_distance, nearest_node) := acc in
     let '(node_id, vx) := entry in
     let node_data := data vx in
     match Node.x node_data, Node.y node_data with
     | Some node_lon, Some node_lat =>
         distance ← haversine_distance m lat lon node_lat node_lon;
         if (distance <? min_distance)%float
         then Return (distance, Some node_id)
         else Return acc
     | _, _ => Return acc
     end).

Lemma scan_invariant (G : graph) (found : float * option node) :
  for_each scan_body G (infinity, None) = Return found →
  match found.2 with
  | None => found.1 = infinity
  | Some n => usable_at m G lat lon n found.1
              ∧ (found.1 <? infinity)%float = true
  end
  ∧ ∀ k dk, usable_at m G lat lon k dk → (dk <? found.1)%float = false.
Proof.
  intros H.
  refine (for_each_ind scan_body
    (λ pre acc,
       match acc.2 with
       | None => acc.1 = infinity
       | Some n => usable_at m pre lat lon n acc.1
                   ∧ (acc.1 <? infinity)%float = true
       end
       ∧ ∀ k dk, usable_at m pre lat lon k dk → (dk <? acc.1)%float = false)
    G _ _ _ _ H).
  - split; [done|]. intros k dk (vx & ny & nx & Hin & _).
    by apply elem_of_nil in Hin.
  - intros pre [id vx] [mn nn] acc' _ [Hbest Hmin] Hbody. simpl in *.
    assert (Hmono : ∀ k dk, usable_at m pre lat lon k dk →
                            usable_at m (pre ++ [(id, vx)]) lat lon k dk).
    { intros k dk (vk & ky & kx & Hin & Hrest). exists vk, ky, kx.
      split; [|done]. apply elem_of_app. by left. }
    assert (Hold : ∀ k dk, usable_at m (pre ++ [(id, vx)]) lat lon k dk →
                           usable_at m pre lat lon k dk
                           ∨ (k = id ∧ ∃ ny nx,
                                Node.y (data vx) = Some ny
                                ∧ Node.x (data vx) = Some nx
                                ∧ haversine_distance m lat lon ny nx = Return dk)).
    { intros k dk (vk & ky & kx & Hin & Hy & Hx & Hd).
      apply elem_of_app in Hin as [Hin|Hin].
      - left. by exists vk, ky, kx.
      - apply list_elem_of_singleton in Hin. simplify_eq. right. eauto 10. }
    destruct (Node.x (data vx)) as [nx|] eqn:Hx;
      [destruct (Node.y (data vx)) as [ny|] eqn:Hy|].
    + apply bind_Return in Hbody as (d & Hd & Hbody).
      destruct (d <? mn)%float eqn:Hlt; simplify_eq; simpl.
      * split.
        -- split; [exists vx, ny, nx; split; [|done]; apply elem_of_app; right; left|].
           destruct nn as [n|]; [|by subst].
           destruct Hbest as [_ Hinf]. by eapply ltb_trans.
        -- intros k dk Hk. apply Hold in Hk as [Hk|(-> & ky & kx & ? & ? & Hdk)].
           ++ destruct (dk <? d)%float eqn:Hdk; [|done].
              rewrite <- (Hmin _ _ Hk). symmetry. by eapply ltb_trans.
           ++ simplify_eq. assert (dk = d) as -> by congruence.
              apply ltb_irrefl.
      * split.
        -- destruct nn as [n|]; [|done]. destruct Hbest as [Hn Hinf].
           split; [by apply Hmono|done].
        -- intros k dk Hk. apply Hold in Hk as [Hk|(-> & ky & kx & ? & ? & Hdk)];
             [by eapply Hmin|]. simplify_eq. by assert (dk = d) as -> by congruence.
    + simplify_eq. split.
      * destruct nn as [n|]; [|done]. destruct Hbest as [Hn Hinf].
        split; [by apply Hmono|done].
      * intros k dk Hk. apply Hold in Hk as [Hk|(-> & ky & kx & ? & ? & Hdk)];
          [by eapply Hmin|]. by simplify_eq.
    + simplify_eq. split.
      * destruct nn as [n|]; [|done]. destruct Hbest as [Hn Hinf].
        split; [by apply Hmono|done].
      * intros k dk Hk. apply Hold in Hk as [Hk|(-> & ky & kx & ? & ? & Hdk)];
          [by eapply Hmin|]. by simplify_eq.
Qed.
End Scan.

Lemma nearest_node_scan_best (m : libm) (G : graph) (lat lon : float)
    (e : exn) (n : node) :
  get_nearest_node (Raise e) m G lat lon = Return (Some n) →
  ∃ d, usable_at m G lat lon n d
       ∧ (d <? infinity)%float = true
       ∧ ∀ k dk, usable_at m G lat lon k dk → (dk <? d)%float = false.
Proof.
  unfold get_nearest_node, nearest_node_scan. intros H.
  apply bind_Return in H as ([mn nn] & Hscan & H). simpl in H. simplify_eq.
  apply scan_invariant in Hscan as [[Hn Hinf] Hmin]. simpl in *. eauto.
Qed.

(** X10: when the library lookup fails, the fallback scan of
    [get_nearest_node] returns a node with coordinates, at a finite
    distance that is not NaN, and no node with coordinates is strictly
    closer to the position. *)
Theorem nearest_node_is_nearest (m : libm) (G : graph) (lat lon : float)
    (e : exn) (n : node) :
  get_nearest_node (Raise e) m G lat lon = Return (Some n) →
  ∃ d, usable_at m G lat lon n d
       ∧ (d <? infinity)%float = true
       ∧ ∀ k dk, usable_at m G lat lon k dk → (dk <? d)%float = false.
Proof. apply nearest_node_scan_best. Qed.

(** X11: the fallback scan returns [None] on a network where no node
    carries both coordinates; and when it returns [None], no node with
    coordinates lies at a distance below infinity. *)
Theorem nearest_node_absent (m : libm) (G : graph) (lat lon : float) (e : exn) :
  (Forall (λ entry : node * vertex Node.t Edge.t,
             Node.x (data entry.2) = None ∨ Node.y (data entry.2) = None) G →
   get_nearest_node (Raise e) m G lat lon = Return None)
  ∧ (get_nearest_node (Raise e) m G lat lon = Return None →
     ∀ k dk, usable_at m G lat lon k dk → (dk <? infinity)%float = false).
Proof.
  unfold get_nearest_node, nearest_node_scan. split.
  - intros Hall.
    assert (Hscan : ∀ acc, for_each
              (λ (acc : float * option node) (entry : node * vertex Node.t Edge.t),
                 let '(min_distance, nearest_node) := acc in
                 let '(node_id, vx) := entry in
                 let node_data := data vx in
                 match Node.x node_data, Node.y node_data with
                 | Some node_lon, Some node_lat =>
                     distance ← haversine_distance m lat lon node_lat node_lon;
                     if (distance <? min_distance)%float
                     then Return (distance, Some node_id)
                     else Return acc
                 | _, _ => Return acc
                 end) G acc = Return acc).
    { induction Hall as [|[id vx] G Hno _ IH]; intros [mn nn]; [done|].
      cbn [for_each]. simpl in Hno.
      destruct Hno as [-> | Hy]; [by rewrite <- IH at 2|].
      rewrite Hy. destruct (Node.x (data vx)); by rewrite <- IH at 2. }
    by rewrite Hscan.
  - intros H. apply bind_Return in H as ([mn nn] & Hscan & H). simpl in H.
    simplify_eq. apply scan_invariant in Hscan as [Hn Hmin]. simpl in *.
    by subst.
Qed.

(** X12: the node the fallback scan returns carries both coordinates, so
    the membership test of the engine on it is the test on its
    coordinates and does not raise [KeyError]. *)
Theorem nearest_node_has_coordinates (m : libm) (G : graph) (lat lon : float)
    (e : exn) (n : node) (center : float * float) (radius : float) :
  NoDup G.*1 →
  get_nearest_node (Raise e) m G lat lon = Return (Some n) →
  ∃ ny nx,
    coordinates_of G n = Some (ny, nx)
    ∧ is_in_disaster_radius m n center radius G
      = check_if_in_radius m (ny, nx) center radius
    ∧ is_in_disaster_radius m n center radius G ≠ Raise KeyError.
Proof.
  intros Hkeys H.
  apply nearest_node_scan_best in H
    as (d & (vx & ny & nx & Hin & Hy & Hx & _) & _).
  assert (Hnd : G_nodes G n = Return (data vx)).
  { apply G_nodes_Return. exists vx. split; [|done]. by apply assoc_elem_of. }
  assert (Heq : is_in_disaster_radius m n center radius G
                = check_if_in_radius m (ny, nx) center radius).
  { by apply (is_in_disaster_radius_as_check m G n (data vx)). }
  exists ny, nx. split_and!; [by eapply coordinates_of_Some|done|].
  rewrite Heq. destruct center as [lat2 lon2]. unfold check_if_in_radius.
  destruct (haversine_distance m ny nx lat2 lon2) as [dd|e'|] eqn:Hd; simpl;
    [done| |done].
  apply haversine_distance_Raise in Hd. by subst.
Qed.

(** ** What the annotator computes *)

(** The loop rule with the position of the element in the list. *)
Lemma for_each_ind_split {A S : Type} (body : S → A → outcome S)
    (P : list A → S → Prop) (l : list A) (s0 s' : S) :
  P [] s0 →
  (∀ pre a post s t,
     l = pre ++ a :: post → P pre s → body s a = Return t → P (pre ++ [a]) t) →
  for_each body l s0 = Return s' →
  P l s'.
Proof.
  revert P s0. induction l as [|a l IH]; intros P s0 Hinit Hstep Hrun.
  - simpl in Hrun. by simplify_eq.
  - simpl in Hrun. apply bind_Return in Hrun as (s1 & Hbody & Hrun).
    apply (IH (λ pre s, P (a :: pre) s) s1); [| |done].
    + by apply (Hstep [] a l s0 s1).
    + intros pre b post s t -> HP Hbd. by apply (Hstep (a :: pre) b post s t).
Qed.

Lemma node_is_water_set_is_water (b : bool) (d : Node.t) :
  node_is_water (Node.set_is_water b d) = node_is_water d.
Proof. done. Qed.

Lemma edge_is_water_set_is_water (wu wv b : bool) (d : Edge.t) :
  edge_is_water wu wv (Edge.set_is_water b d) = edge_is_water wu wv d.
Proof. done. Qed.

Lemma node_dict_write (s : store) (l l' : loc) (d : Node.t) :
  node_dict (write_node l d s) l' = if decide (l = l') then d else node_dict s l'.
Proof.
  unfold node_dict. simpl. destruct (decide (l = l')) as [->|Hne].
  - by rewrite lookup_insert_eq.
  - by rewrite lookup_insert_ne.
Qed.

Lemma edge_dict_write (s : store) (l l' : loc) (d : Edge.t) :
  edge_dict (write_edge l d s) l' = if decide (l = l') then d else edge_dict s l'.
Proof.
  unfold edge_dict. simpl. destruct (decide (l = l')) as [->|Hne].
  - by rewrite lookup_insert_eq.
  - by rewrite lookup_insert_ne.
Qed.

(** After the first loop every node dictionary of the copy is the one
    before the loop with its flag set. *)
Lemma mark_nodes_values (G' : graph_ref) (s0 s1 : store) :
  for_each mark_node G' s0 = Return s1 →
  ∀ e, e ∈ G' →
    node_dict s1 (data e.2)
    = Node.set_is_water (node_is_water (node_dict s0 (data e.2)))
        (node_dict s0 (data e.2)).
Proof.
  intros H.
  set (marked := λ l, Node.set_is_water (node_is_water (node_dict s0 l))
                        (node_dict s0 l)).
  refine (proj2 (for_each_ind mark_node
    (λ pre t,
       (∀ l, node_dict t l = node_dict s0 l ∨ node_dict t l = marked l)
       ∧ ∀ e, e ∈ pre → node_dict t (data e.2) = marked (data e.2))
    G' s0 s1 _ _ H)).
  - split; [by left|]. intros e He. by apply elem_of_nil in He.
  - intros pre a t t' _ [Hall Hpre] Hbody. unfold mark_node in Hbody.
    simplify_eq.
    assert (Hnew : Node.set_is_water (node_is_water (node_dict t (data a.2)))
                     (node_dict t (data a.2)) = marked (data a.2)).
    { destruct (Hall (data a.2)) as [-> | ->]; [done|].
      unfold marked. by destruct (node_dict s0 (data a.2)). }
    split.
    + intros l. rewrite node_dict_write. case_decide; [subst; by right|done].
    + intros e He. rewrite node_dict_write. case_decide as Heq; [by rewrite <- Heq|].
      apply elem_of_app in He as [He|He]; [by apply Hpre|].
      apply list_elem_of_singleton in He. by subst.
Qed.

(** After the second loop every edge dictionary of the copy, when no two
    edges share one, is the one before the loop with the flag the rule
    gives for the flags of its endpoints. *)
Lemma mark_edges_values (G' : graph_ref) (es : list (node * node * loc))
    (s1 s2 : store) :
  NoDup es.*2 →
  for_each (mark_edge G') es s1 = Return s2 →
  ∀ u v l, (u, v, l) ∈ es →
    ∃ lu lv,
      G_nodes G' u = Return lu ∧ G_nodes G' v = Return lv
      ∧ edge_dict s2 l
        = Edge.set_is_water
            (edge_is_water (get_is_water_node (node_dict s1 lu))
               (get_is_water_node (node_dict s1 lv)) (edge_dict s1 l))
            (edge_dict s1 l).
Proof.
  intros Hnd H.
  refine (proj2 (proj2 (for_each_ind_split (mark_edge G')
    (λ pre t,
       node_attrs t = node_attrs s1
       ∧ (∀ l, l ∉ pre.*2 → edge_dict t l = edge_dict s1 l)
       ∧ ∀ u v l, (u, v, l) ∈ pre →
           ∃ lu lv,
             G_nodes G' u = Return lu ∧ G_nodes G' v = Return lv
             ∧ edge_dict t l
               = Edge.set_is_water
                   (edge_is_water (get_is_water_node (node_dict s1 lu))
                      (get_is_water_node (node_dict s1 lv)) (edge_dict s1 l))
                   (edge_dict s1 l))
    es s1 s2 _ _ H))).
  - split_and!; [done|done|]. intros u v l He. by apply elem_of_nil in He.
  - intros pre [[u v] l] post t t' Hes (Hnodes & Hrest & Hpre) Hbody.
    assert (Hfresh : l ∉ pre.*2).
    { rewrite Hes, fmap_app, fmap_cons in Hnd.
      apply NoDup_app in Hnd as (_ & Hdisj & _). intros Hin.
      apply (Hdisj _ Hin). left. }
    unfold mark_edge in Hbody.
    apply bind_Return in Hbody as (lu & Hlu & Hbody).
    apply bind_Return in Hbody as (lv & Hlv & Hbody). simplify_eq.
    assert (Hn : ∀ l', node_dict t l' = node_dict s1 l').
    { intros l'. unfold node_dict. by rewrite Hnodes. }
    split_and!; [done| |].
    + intros l' Hl'. rewrite edge_dict_write. rewrite fmap_app in Hl'.
      case_decide as Heq.
      * exfalso. apply Hl', elem_of_app. right. subst. left.
      * apply Hrest. intros Hin. apply Hl', elem_of_app. by left.
    + intros u' v' l' He. rewrite edge_dict_write.
      apply elem_of_app in He as [He|He].
      * case_decide as Heq; [|by apply Hpre].
        exfalso. apply Hfresh. subst l'.
        apply list_elem_of_fmap. by exists (u', v', l).
      * apply list_elem_of_singleton in He. simplify_eq.
        rewrite decide_True by done. exists lu, lv.
        by rewrite !Hn, (Hrest _ Hfresh).
Qed.

(** The copy shares no edge dictionary between two adjacency entries. *)
Lemma copy_nbrs_NoDup (t t' : store) (es es' : list (node * loc)) :
  copy_nbrs t es = (t', es') →
  NoDup es'.*2 ∧ Forall (λ l, is_Some (edge_attrs t' !! l)) es'.*2.
Proof.
  revert t t' es'. induction es as [|[v l] es IH]; intros t t' es' H.
  - simpl in H. simplify_eq. split; constructor.
  - change (copy_nbrs t ((v, l) :: es))
      with (let '(s1, l') := copy_edge_dict t l in
            let '(s2, es'') := copy_nbrs s1 es in (s2, (v, l') :: es'')) in H.
    destruct (copy_edge_dict t l) as [t1 l'] eqn:Hcopy.
    destruct (copy_nbrs t1 es) as [t2 es''] eqn:Hrest. simplify_eq.
    apply copy_edge_dict_spec in Hcopy as (Hle1 & Hnew & Hl').
    pose proof (copy_nbrs_spec _ _ _ _ Hrest) as [Hle2 Hcopied].
    apply IH in Hrest as [Hnd Hall].
    apply copied_nbrs_fresh in Hcopied. rewrite fmap_cons. simpl. split.
    + constructor; [|done]. intros Hin.
      apply list_elem_of_fmap in Hin as (f & Hf & Hin).
      rewrite Forall_forall in Hcopied. specialize (Hcopied _ Hin).
      simpl in Hcopied. rewrite <- Hf in Hcopied. congruence.
    + constructor; [|done]. exists (edge_dict t l). by apply (store_le_edge t1 t').
Qed.

Lemma G_edges_cons {N E : Type} (n : node) (vx : vertex N E) (G : graph_of N E) :
  G_edges ((n, vx) :: G) = ((λ '(v, d), (n, v, d)) <$> nbrs vx) ++ G_edges G.
Proof. done. Qed.

Lemma G_edges_locs_cons (n : node) (vx : vertex loc loc) (G : graph_ref) :
  (G_edges ((n, vx) :: G)).*2 = (nbrs vx).*2 ++ (G_edges G).*2.
Proof.
  rewrite G_edges_cons, fmap_app. f_equal.
  rewrite <- list_fmap_compose. apply list_fmap_ext. by intros i [v d].
Qed.

Lemma G_copy_NoDup (t t' : store) (G G' : graph_ref) :
  G_copy t G = (t', G') → NoDup (G_edges G').*2.
Proof.
  revert t t' G'. induction G as [|[n vx] G IH]; intros t t' G' H.
  - simpl in H. simplify_eq. constructor.
  - change (G_copy t ((n, vx) :: G))
      with (let '(s1, l') := copy_node_dict t (data vx) in
            let '(s2, es') := copy_nbrs s1 (nbrs vx) in
            let '(s3, G'') := G_copy s2 G in
            (s3, (n, Vertex l' es') :: G'')) in H.
    destruct (copy_node_dict t (data vx)) as [t1 l'] eqn:Hnode.
    destruct (copy_nbrs t1 (nbrs vx)) as [t2 es'] eqn:Hnbrs.
    destruct (G_copy t2 G) as [t3 G''] eqn:Hrest. simplify_eq.
    apply copy_nbrs_NoDup in Hnbrs as [Hnd Halloc].
    pose proof (G_copy_spec _ _ _ _ Hrest) as [_ Hcopied].
    apply copied_graph_fresh in Hcopied. apply IH in Hrest.
    rewrite G_edges_locs_cons. simpl. apply NoDup_app. split_and!; [done| |done].
    intros l Hl Hin. rewrite Forall_forall in Halloc.
    destruct (Halloc _ Hl) as [d Hd].
    apply list_elem_of_fmap in Hin as ([[u v] l''] & Heq & Hin). simpl in Heq.
    subst l''. apply elem_of_G_edges in Hin as (vx' & HG & Hf).
    rewrite Forall_forall in Hcopied. destruct (Hcopied _ HG) as [_ Hes].
    rewrite Forall_forall in Hes. specialize (Hes _ Hf). simpl in Hes. congruence.
Qed.

Lemma assoc_fmap {V W : Type} (f : V → W) (k : node) (l : list (node * V)) :
  assoc k ((λ '(n, v), (n, f v)) <$> l) = f <$> assoc k l.
Proof.
  induction l as [|[k' v'] l IH]; [done|]. simpl. by case_bool_decide.
Qed.

Lemma flag_of_snapshot (s : store) (G : graph_ref) (n : node) (lu : loc) :
  G_nodes G n = Return lu →
  flag_of (snapshot s G) n = Some (node_is_water (node_dict s lu)).
Proof.
  intros H. apply G_nodes_Return in H as (vx & Hvx & <-).
  unfold flag_of, snapshot.
  rewrite (assoc_fmap (λ vx, Vertex (node_dict s (data vx))
                               ((λ '(v, l), (v, edge_dict s l)) <$> nbrs vx))).
  by rewrite Hvx.
Qed.

Lemma filter_road_network_run (s s' : store) (G G' : graph_ref) :
  filter_road_network s G = Return (s', G') →
  ∃ s0 s1,
    G_copy s G = (s0, G')
    ∧ for_each mark_node G' s0 = Return s1
    ∧ for_each (mark_edge G') (G_edges G') s1 = Return s'.
Proof.
  unfold filter_road_network. intros H.
  destruct (G_copy s G) as [s0 G0] eqn:Hcopy.
  apply bind_Return in H as (s1 & H1 & H).
  apply bind_Return in H as (s2 & H2 & H). simplify_eq. eauto.
Qed.

(** The copy reads as the source. *)
Lemma copied_graph_snapshot (s s0 : store) (G G' : graph_ref) :
  allocated s G → copied_graph s s0 G G' → snapshot s0 G' = snapshot s G.
Proof.
  intros Halloc Hcopied. unfold snapshot.
  induction Hcopied as [|[n vx] [n' vx'] G G' (Hk & _ & _ & Hd & Hes) _ IH];
    [done|].
  apply Forall_cons in Halloc as [[[d Hdv] Hesa] Halloc].
  cbn [fmap list_fmap]. rewrite <- (IH Halloc). cbn [fst snd] in *.
  f_equal. subst n'. f_equal. f_equal.
  - unfold node_dict. by rewrite (Hd _ Hdv), Hdv.
  - clear IH. induction Hes as [|[v l] [v' l'] es es' (Hk' & _ & _ & Hd') _ IH];
      [done|].
    apply Forall_cons in Hesa as [[d' Hdl] Hesa].
    cbn [fmap list_fmap]. rewrite <- (IH Hesa). cbn [fst snd] in *.
    f_equal. subst v'. f_equal.
    unfold edge_dict. by rewrite (Hd' _ Hdl), Hdl.
Qed.

Lemma filter_road_network_annotated (s s' : store) (G G' : graph_ref) :
  allocated s G →
  filter_road_network s G = Return (s', G') →
  annotated_from (snapshot s G) (snapshot s' G').
Proof.
  intros Halloc H.
  pose proof (filter_road_network_run _ _ _ _ H) as (s0 & s1 & Hcopy & Hnodes & Hedges).
  pose proof (G_copy_NoDup _ _ _ _ Hcopy) as Hnd.
  apply G_copy_spec in Hcopy as [_ Hcopied].
  rewrite <- (copied_graph_snapshot _ _ _ _ Halloc Hcopied).
  pose proof (mark_nodes_values _ _ _ Hnodes) as Hmarked.
  pose proof (mark_edges_values _ _ _ _ Hnd Hedges) as Hflags.
  apply mark_nodes_spec in Hnodes as (E1 & _ & _).
  apply mark_edges_spec in Hedges as (N2 & _ & _ & _).
  unfold annotated_from, annotated_within, snapshot at 2 3.
  apply Forall2_fmap, Forall_Forall2_diag, Forall_forall.
  intros [n vx] He. simpl. split_and!; [done| |].
  - unfold node_dict at 1. rewrite N2. apply (Hmarked _ He).
  - apply Forall2_fmap, Forall_Forall2_diag, Forall_forall.
    intros [v l] Hf. simpl. split; [done|].
    assert (Hin : (n, v, l) ∈ G_edges G') by (apply elem_of_G_edges; eauto).
    destruct (Hflags _ _ _ Hin) as (lu & lv & Hlu & Hlv & Hval).
    assert (Hflag : ∀ k lk, G_nodes G' k = Return lk →
                            get_is_water_node (node_dict s1 lk)
                            = node_is_water (node_dict s0 lk)).
    { intros k lk Hk. apply G_nodes_Return in Hk as (vk & Hvk & <-).
      apply assoc_Some_elem_of in Hvk. pose proof (Hmarked _ Hvk) as Hm.
      simpl in Hm. by rewrite Hm. }
    exists (node_is_water (node_dict s0 lu)), (node_is_water (node_dict s0 lv)).
    split_and!; [by apply flag_of_snapshot|by apply flag_of_snapshot|].
    rewrite Hval, !(Hflag _ _ Hlu), !(Hflag _ _ Hlv).
    unfold edge_dict. by rewrite E1.
Qed.

(** The rule of the second loop in one formula. *)
Lemma edge_is_water_formula (node_u_in_water node_v_in_water : bool) (d : Edge.t) :
  edge_is_water node_u_in_water node_v_in_water d
  = negb (edge_is_bridge d)
    && (node_u_in_water || node_v_in_water || edge_has_water_tag d).
Proof.
  unfold edge_is_water, edge_has_water_tag.
  by destruct (edge_is_bridge d), node_u_in_water, node_v_in_water,
    (has_key (Edge.waterway d)), (has_key (Edge.water d)),
    (has_key (Edge.natural d)).
Qed.

(** X13: the annotated copy keeps every node at its place, with its
    attributes, and sets its ['is_water'] to what the tag rules of the
    first loop give on the attributes of the source node. *)
Theorem node_flag_rule (s s' : store) (G G' : graph_ref) (i : nat)
    (u : node) (vx : vertex Node.t Edge.t) :
  allocated s G →
  filter_road_network s G = Return (s', G') →
  snapshot s G !! i = Some (u, vx) →
  ∃ vx',
    snapshot s' G' !! i = Some (u, vx')
    ∧ data vx' = Node.set_is_water (node_is_water (data vx)) (data vx)
    ∧ Node.is_water (data vx') = Some (node_is_water (data vx))
    ∧ (nbrs vx').*1 = (nbrs vx).*1.
Proof.
  intros Halloc H Hi.
  pose proof (filter_road_network_annotated _ _ _ _ Halloc H) as Hann.
  destruct (Forall2_lookup_l _ _ _ _ _ Hann Hi) as ([u' vx'] & Hi' & Hk & Hd & Hes).
  simpl in *. subst u'. exists vx'. split_and!; [done|done|by rewrite Hd|].
  clear Hi Hi' Hd. induction Hes as [|f f' es es' [Hf _] _ IH]; [done|].
  rewrite !fmap_cons. by f_equal.
Qed.

(** X14: the annotated copy keeps every edge at its place, with its tags,
    and flags it as water exactly when it is not a bridge and one of its
    end points is flagged as water by the first loop or the edge carries
    a ['waterway'], ['water'] or ['natural'] tag. *)
Theorem edge_flag_rule (s s' : store) (G G' : graph_ref) (i j : nat)
    (u v : node) (vx : vertex Node.t Edge.t) (d : Edge.t) :
  allocated s G →
  filter_road_network s G = Return (s', G') →
  snapshot s G !! i = Some (u, vx) →
  nbrs vx !! j = Some (v, d) →
  ∃ vx' d' node_u_in_water node_v_in_water,
    snapshot s' G' !! i = Some (u, vx')
    ∧ nbrs vx' !! j = Some (v, d')
    ∧ flag_of (snapshot s G) u = Some node_u_in_water
    ∧ flag_of (snapshot s G) v = Some node_v_in_water
    ∧ Edge.is_water d'
      = Some (negb (edge_is_bridge d)
              && (node_u_in_water || node_v_in_water || edge_has_water_tag d))
    ∧ same_tags d' d.
Proof.
  intros Halloc H Hi Hj.
  pose proof (filter_road_network_annotated _ _ _ _ Halloc H) as Hann.
  destruct (Forall2_lookup_l _ _ _ _ _ Hann Hi) as ([u' vx'] & Hi' & Hk & _ & Hes).
  destruct (Forall2_lookup_l _ _ _ _ _ Hes Hj)
    as ([v' d'] & Hj' & Hk' & wu & wv & Hwu & Hwv & Hd').
  simpl in *. subst u' v' d'.
  exists vx', (Edge.set_is_water (edge_is_water wu wv d) d), wu, wv.
  split_and!; [done|done|done|done| |].
  - simpl. by rewrite edge_is_water_formula.
  - unfold same_tags. by destruct d.
Qed.

(** The annotated copy is allocated in the store the annotator returns. *)
Lemma filter_road_network_allocated (s s' : store) (G G' : graph_ref) :
  filter_road_network s G = Return (s', G') → allocated s' G'.
Proof.
  intros H. apply filter_road_network_phases in H
    as (s0 & s1 & _ & _ & Hnodes & Hedges).
  apply mark_nodes_spec in Hnodes as (_ & _ & S1).
  apply mark_edges_spec in Hedges as (N2 & _ & _ & S2).
  apply Forall_forall. intros [n vx] He. simpl. split.
  - destruct (S1 _ He) as [b Hb]. simpl in Hb. unfold node_dict in Hb.
    rewrite N2. by destruct (node_attrs s1 !! data vx).
  - apply Forall_forall. intros [v l] Hf. simpl.
    assert (Hin : (n, v, l) ∈ G_edges G') by (apply elem_of_G_edges; eauto).
    destruct (S2 _ Hin) as [[b Hb] _]. simpl in Hb. unfold edge_dict in Hb.
    by destruct (edge_attrs s' !! l).
Qed.

Lemma annotated_flag_of (G0 G G' : graph) (n : node) :
  annotated_within G0 G G' → flag_of G' n = flag_of G n.
Proof.
  unfold flag_of.
  induction 1 as [|[k vx] [k' vx'] G G' (Hk & Hd & _) _ IH]; [done|].
  simpl in *. subst k'. case_bool_decide; [|done].
  simpl. by rewrite Hd, node_is_water_set_is_water.
Qed.

Lemma Node_set_is_water_twice (b b' : bool) (d : Node.t) :
  Node.set_is_water b (Node.set_is_water b' d) = Node.set_is_water b d.
Proof. by destruct d. Qed.

Lemma Edge_set_is_water_twice (b b' : bool) (d : Edge.t) :
  Edge.set_is_water b (Edge.set_is_water b' d) = Edge.set_is_water b d.
Proof. by destruct d. Qed.

Lemma annotated_within_twice (G0 G0' G G' G'' : graph) :
  (∀ n, flag_of G0' n = flag_of G0 n) →
  annotated_within G0 G G' → annotated_within G0' G' G'' → G'' = G'.
Proof.
  intros Hflag H1. revert G''.
  induction H1 as [|[k vx] [k' vx'] G G' (Hk & Hd & Hes) _ IH]; intros G'' H2.
  - by apply Forall2_nil_inv_l in H2.
  - apply Forall2_cons_inv_l in H2 as ([k'' vx''] & G2 & (Hk2 & Hd2 & Hes2) & H2 & ->).
    simpl in *. f_equal; [|by apply IH].
    subst k' k''. f_equal. destruct vx' as [d' es'], vx'' as [d'' es''].
    simpl in *. f_equal.
    + by rewrite Hd2, Hd, node_is_water_set_is_water, Node_set_is_water_twice.
    + clear IH Hd Hd2 H2. revert es'' Hes2.
      induction Hes as [|[v f] [v' f'] es es' (Hv & wu & wv & Hwu & Hwv & Hf) _ IH];
        intros es'' Hes2.
      * by apply Forall2_nil_inv_l in Hes2.
      * apply Forall2_cons_inv_l in Hes2
          as ([v'' f''] & es2 & (Hv2 & wu' & wv' & Hwu' & Hwv' & Hf2) & Hes2 & ->).
        simpl in *. f_equal; [|by apply IH]. subst v' v''. f_equal.
        rewrite Hflag, Hwu in Hwu'. rewrite Hflag, Hwv in Hwv'. simplify_eq.
        by rewrite edge_is_water_set_is_water, Edge_set_is_water_twice.
Qed.

(** X15: annotating an annotated network changes nothing: the second
    copy reads as the first. *)
Theorem annotation_idempotent (s s' s'' : store) (G G' G'' : graph_ref) :
  allocated s G →
  filter_road_network s G = Return (s', G') →
  filter_road_network s' G' = Return (s'', G'') →
  snapshot s'' G'' = snapshot s' G'.
Proof.
  intros Halloc H1 H2.
  pose proof (filter_road_network_annotated _ _ _ _ Halloc H1) as Hfirst.
  apply (annotated_within_twice (snapshot s G) (snapshot s' G') (snapshot s G)).
  - intros n. by apply (annotated_flag_of (snapshot s G)).
  - done.
  - apply filter_road_network_annotated; [|done].
    by apply (filter_road_network_allocated s s' G).
Qed.

Lemma leb_not_ltb (a b : float) :
  (a <=? b)%float = true → (b <? a)%float = false.
Proof.
  rewrite leb_true. intros (Ha & Hb & Hle).
  destruct (b <? a)%float eqn:Hlt; [|done].
  apply ltb_true in Hlt as (_ & _ & Hlt). rewrite lex_antisym in Hle.
  by rewrite Hlt in Hle.
Qed.

Lemma not_leb_ltb (a b : float) :
  not_nan a → not_nan b → (a <=? b)%float = false → (b <? a)%float = true.
Proof.
  intros Ha Hb Hle. apply ltb_true. split_and!; [done|done|].
  destruct (lex (sf_key (Prim2SF b)) (sf_key (Prim2SF a))) eqn:Hc; [|done|].
  - assert ((a <=? b)%float = true); [|congruence].
    apply leb_true. split_and!; [done|done|]. rewrite lex_antisym. by rewrite Hc.
  - assert ((a <=? b)%float = true); [|congruence].
    apply leb_true. split_and!; [done|done|]. rewrite lex_antisym. by rewrite Hc.
Qed.

Section Border.
Context (m : libm) (set_iter : list node → list node).
Context (G : graph) (disaster_node : float * float) (disaster_radius : float).

Local Abbreviation distance_from' := (distance_from m G disaster_node).
Local Abbreviation straddles' := (straddles m G disaster_node disaster_radius).

Lemma distance_from_inj (n : node) (d d' : float) :
  distance_from' n d → distance_from' n d' → d = d'.
Proof.
  intros (nd & ny & nx & Hn & Hy & Hx & Hd) (nd' & ny' & nx' & Hn' & Hy' & Hx' & Hd').
  congruence.
Qed.

Lemma straddles_one_way (u v : node) : straddles' u v → ¬ straddles' v u.
Proof.
  intros (du & dv & Hu & Hv & Hin & Hout) (dv' & du' & Hv' & Hu' & Hin' & Hout').
  rewrite (distance_from_inj _ _ _ Hu' Hu) in Hout'.
  apply leb_not_ltb in Hin. congruence.
Qed.

Local Abbreviation border_body :=
  (λ (exit_nodes : list node) (edge : node * node * Edge.t),
     let '(u, v, _) := edge in
     u_data ← G_nodes G u;
     v_data ← G_nodes G v;
     match Node.x u_data, Node.y u_data, Node.x v_data, Node.y v_data with
     | Some ux, Some uy, Some vx, Some vy =>
         u_distance ← haversine_distance m uy ux disaster_node.1 disaster_node.2;
         v_distance ← haversine_distance m vy vx disaster_node.1 disaster_node.2;
         if (u_distance <=? disaster_radius)%float
            && (disaster_radius <? v_distance)%float
         then Return (exit_nodes ++ [v])
         else if (v_distance <=? disaster_radius)%float
                 && (disaster_radius <? u_distance)%float
         then Return (exit_nodes ++ [u])
         else Return exit_nodes
     | _, _, _, _ => Return exit_nodes
     end).

Lemma border_step (exit_nodes t : list node) (u v : node) (d : Edge.t) :
  border_body exit_nodes (u, v, d) = Return t →
  (straddles' u v ∧ t = exit_nodes ++ [v])
  ∨ (straddles' v u ∧ t = exit_nodes ++ [u])
  ∨ (¬ straddles' u v ∧ ¬ straddles' v u ∧ t = exit_nodes).
Proof.
  intros H. cbn beta iota in H.
  apply bind_Return in H as (ud & Hu & H).
  apply bind_Return in H as (vd & Hv & H).
  assert (Hno_u : ∀ w, (Node.x ud = None ∨ Node.y ud = None) →
                       ¬ straddles' u w ∧ ¬ straddles' w u).
  { intros w Hnone.
    split; [intros (? & ? & (nd & ? & ? & Hn & ? & ? & _) & _)
           |intros (? & ? & _ & (nd & ? & ? & Hn & ? & ? & _) & _)];
      (assert (nd = ud) as -> by congruence); destruct Hnone; congruence. }
  assert (Hno_v : ∀ w, (Node.x vd = None ∨ Node.y vd = None) →
                       ¬ straddles' v w ∧ ¬ straddles' w v).
  { intros w Hnone.
    split; [intros (? & ? & (nd & ? & ? & Hn & ? & ? & _) & _)
           |intros (? & ? & _ & (nd & ? & ? & Hn & ? & ? & _) & _)];
      (assert (nd = vd) as -> by congruence); destruct Hnone; congruence. }
  destruct (Node.x ud) as [ux|] eqn:Hux;
    [|simplify_eq; right; right; destruct (Hno_u v); auto].
  destruct (Node.y ud) as [uy|] eqn:Huy;
    [|simplify_eq; right; right; destruct (Hno_u v); auto].
  destruct (Node.x vd) as [vx|] eqn:Hvx;
    [|simplify_eq; right; right; destruct (Hno_v u); auto].
  destruct (Node.y vd) as [vy|] eqn:Hvy;
    [|simplify_eq; right; right; destruct (Hno_v u); auto].
  apply bind_Return in H as (du & Hdu & H).
  apply bind_Return in H as (dv & Hdv & H).
  assert (Hfu : distance_from' u du) by (exists ud, uy, ux; done).
  assert (Hfv : distance_from' v dv) by (exists vd, vy, vx; done).
  destruct ((du <=? disaster_radius)%float && (disaster_radius <? dv)%float)
    eqn:Hfirst.
  { apply andb_true_iff in Hfirst as [Hin Hout]. simplify_eq. left.
    split; [|done]. by exists du, dv. }
  destruct ((dv <=? disaster_radius)%float && (disaster_radius <? du)%float)
    eqn:Hsecond.
  { apply andb_true_iff in Hsecond as [Hin Hout]. simplify_eq. right. left.
    split; [|done]. by exists dv, du. }
  simplify_eq. right. right. split_and!; [| |done].
  - intros (du' & dv' & Hu' & Hv' & Hin & Hout).
    rewrite (distance_from_inj _ _ _ Hu' Hfu) in Hin.
    rewrite (distance_from_inj _ _ _ Hv' Hfv) in Hout.
    by rewrite Hin, Hout in Hfirst.
  - intros (dv' & du' & Hv' & Hu' & Hin & Hout).
    rewrite (distance_from_inj _ _ _ Hv' Hfv) in Hin.
    rewrite (distance_from_inj _ _ _ Hu' Hfu) in Hout.
    by rewrite Hin, Hout in Hsecond.
Qed.

Lemma border_loop (edges : list (node * node * Edge.t)) (exit_nodes : list node) :
  for_each border_body edges [] = Return exit_nodes →
  ∀ x, x ∈ exit_nodes ↔
       ∃ u v d, (u, v, d) ∈ edges
                ∧ ((x = v ∧ straddles' u v) ∨ (x = u ∧ straddles' v u)).
Proof.
  intros H.
  refine (for_each_ind border_body
    (λ pre acc,
       ∀ x, x ∈ acc ↔
            ∃ u v d, (u, v, d) ∈ pre
                     ∧ ((x = v ∧ straddles' u v) ∨ (x = u ∧ straddles' v u)))
    edges [] exit_nodes _ _ H).
  - intros x. split; [by intros ?%elem_of_nil|].
    by intros (? & ? & ? & ?%elem_of_nil & _).
  - intros pre [[u v] d] acc t _ IH Hbody x.
    assert (Hsplit :
      (∃ u0 v0 d0, (u0, v0, d0) ∈ pre ++ [(u, v, d)]
                   ∧ ((x = v0 ∧ straddles' u0 v0) ∨ (x = u0 ∧ straddles' v0 u0)))
      ↔ x ∈ acc ∨ (x = v ∧ straddles' u v) ∨ (x = u ∧ straddles' v u)).
    { rewrite IH. split.
      - intros (u0 & v0 & d0 & Hin & Hx). apply elem_of_app in Hin as [Hin|Hin].
        + left. eauto 6.
        + apply list_elem_of_singleton in Hin. simplify_eq. by right.
      - intros [(u0 & v0 & d0 & Hin & Hx)|Hx].
        + exists u0, v0, d0. split; [|done]. apply elem_of_app. by left.
        + exists u, v, d. split; [|done]. apply elem_of_app. right.
          by apply list_elem_of_singleton. }
    rewrite Hsplit. clear Hsplit.
    destruct (border_step acc t u v d Hbody)
      as [[Hs ->]|[[Hs ->]|(Hn1 & Hn2 & ->)]].
    + pose proof (straddles_one_way _ _ Hs) as Hn.
      rewrite elem_of_app, list_elem_of_singleton. tauto.
    + pose proof (straddles_one_way _ _ Hs) as Hn.
      rewrite elem_of_app, list_elem_of_singleton. tauto.
    + tauto.
Qed.

Lemma find_exit_nodes_border (exit_nodes : list node) :
  (∀ l x, x ∈ set_iter l ↔ x ∈ l) →
  find_exit_nodes m set_iter G disaster_node disaster_radius = Return exit_nodes →
  ∀ x, x ∈ exit_nodes ↔
       ∃ w, (joined G w x ∨ joined G x w) ∧ straddles' w x.
Proof.
  intros Hiter H.
  assert (Hunfold :
    find_exit_nodes m set_iter G disaster_node disaster_radius
    = for_each border_body (G_edges G) [] ≫= λ acc, Return (set_iter acc)).
  { unfold find_exit_nodes. by destruct disaster_node. }
  rewrite Hunfold in H.
  apply bind_Return in H as (acc & Hloop & H). simplify_eq.
  intros x. rewrite Hiter, (border_loop _ _ Hloop). unfold joined. split.
  - intros (u & v & d & Hin & [[-> Hs]|[-> Hs]]); eauto 6.
  - intros (w & [[d Hin]|[d Hin]] & Hs); eauto 10.
Qed.
End Border.

(** X16: [find_exit_nodes] returns exactly the nodes with coordinates
    strictly beyond the radius that share an edge, in either direction,
    with a node with coordinates within the radius. *)
Theorem find_exit_nodes_spec (m : libm) (set_iter : list node → list node)
    (G : graph) (disaster_node : float * float) (disaster_radius : float)
    (exit_nodes : list node) :
  (∀ l x, x ∈ set_iter l ↔ x ∈ l) →
  find_exit_nodes m set_iter G disaster_node disaster_radius = Return exit_nodes →
  ∀ x, x ∈ exit_nodes ↔
       ∃ w, (joined G w x ∨ joined G x w)
            ∧ straddles m G disaster_node disaster_radius w x.
Proof. apply find_exit_nodes_border. Qed.

(** X17: the two exit finders of the repository agree one way: every
    exit node of [get_disaster_exit_nodes] is among the nodes
    [find_exit_nodes] returns for the same network and hazard. *)
Theorem exit_nodes_are_border_nodes (m : libm) (set_iter : list node → list node)
    (G : graph) (disaster_node : float * float) (disaster_radius : float)
    (exit_nodes border : list node) :
  (∀ l x, x ∈ set_iter l ↔ x ∈ l) →
  NoDup G.*1 →
  get_disaster_exit_nodes m set_iter G disaster_node disaster_radius
  = Return exit_nodes →
  find_exit_nodes m set_iter G disaster_node disaster_radius = Return border →
  exit_nodes ⊆ border.
Proof.
  intros Hiter Hkeys Hexits Hborder c Hc.
  apply (find_exit_nodes_border _ _ _ _ _ _ Hiter Hborder).
  assert (Hsound : ∀ l x, x ∈ set_iter l → x ∈ l) by (intros l x; apply Hiter).
  destruct (exit_node_boundary _ _ _ _ _ _ _ Hsound Hkeys Hexits Hc) as [(cd & cy & cx & dc & Hcn & Hcy & Hcx & _ & Hdc & Hout & Hbuf)
                           (a & (ad & ay & ax & da & Han & Hay & Hax & _ & Hda & Hin)
                              & Hadj)].
  exists a. split.
  - left. apply G_neighbors_elem_of in Hadj as (vx & d & HG & _ & Hnb).
    exists d. apply elem_of_G_edges. eauto.
  - exists da, dc. split_and!; [by exists ad, ay, ax|by exists cd, cy, cx|done|].
    apply leb_true in Hin as (_ & Hr & _). apply leb_true in Hbuf as (Hdcn & _ & _).
    by apply not_leb_ltb.
Qed.

(** ** When the annotator returns *)

Lemma for_each_returns {A S : Type} (body : S → A → outcome S) (l : list A)
    (s : S) :
  (∀ s a, a ∈ l → ∃ t, body s a = Return t) →
  ∃ s', for_each body l s = Return s'.
Proof.
  revert s. induction l as [|a l IH]; intros s Hbody; [by exists s|].
  simpl. destruct (Hbody s a) as [t ->]; [left|]. simpl.
  apply IH. intros s' b Hb. apply Hbody. by right.
Qed.

Lemma for_each_failure {A S : Type} (body : S → A → outcome S) (l : list A)
    (s : S) (P : exn → Prop) :
  (∀ s a, a ∈ l → (∃ t, body s a = Return t) ∨ (∃ e, body s a = Raise e ∧ P e)) →
  (∃ s', for_each body l s = Return s')
  ∨ (∃ e, for_each body l s = Raise e ∧ P e).
Proof.
  revert s. induction l as [|a l IH]; intros s Hbody; [left; by exists s|].
  simpl. destruct (Hbody s a) as [[t ->]|(e & -> & He)]; [left| |].
  - simpl. apply IH. intros s' b Hb. apply Hbody. by right.
  - right. by exists e.
Qed.

Lemma assoc_is_Some {V : Type} (k : node) (l : list (node * V)) :
  is_Some (assoc k l) ↔ k ∈ l.*1.
Proof.
  induction l as [|[k' v'] l IH]; simpl.
  - split; [by intros [? ?]|by intros ?%elem_of_nil].
  - rewrite elem_of_cons. case_bool_decide as Hk; simpl.
    + split; [by left|eauto].
    + rewrite IH. split; [by right|]. by intros [?|?].
Qed.

Lemma copied_graph_keys (s t : store) (G G' : graph_ref) :
  copied_graph s t G G' → G'.*1 = G.*1.
Proof.
  intros H. induction H as [|e e' G G' (Hk & _) _ IH]; [done|].
  rewrite !fmap_cons. by f_equal.
Qed.

Lemma copied_nbrs_elem_of (s t : store) (es es' : list (node * loc)) (v : node) :
  copied_nbrs s t es es' → (∃ l, (v, l) ∈ es) ↔ (∃ l', (v, l') ∈ es').
Proof.
  intros H. apply copied_nbrs_keys in H.
  assert (Hfst : ∀ xs : list (node * loc), (∃ l, (v, l) ∈ xs) ↔ v ∈ xs.*1).
  { intros xs. rewrite list_elem_of_fmap. split.
    - intros (l & Hl). by exists (v, l).
    - intros ([v' l] & -> & Hl). by exists l. }
  by rewrite !Hfst, H.
Qed.

Lemma copied_graph_edges (s t : store) (G G' : graph_ref) (u v : node) :
  copied_graph s t G G' →
  (∃ l, (u, v, l) ∈ G_edges G) ↔ (∃ l', (u, v, l') ∈ G_edges G').
Proof.
  intros H. split.
  - intros (l & Hl). apply elem_of_G_edges in Hl as (vx & HG & Hnb).
    apply list_elem_of_lookup in HG as [i Hi].
    destruct (Forall2_lookup_l _ _ _ _ _ H Hi) as ([u' vx'] & Hi' & Hk & _ & _ & _ & Hes).
    simpl in *. subst u'.
    destruct (proj1 (copied_nbrs_elem_of _ _ _ _ v Hes)) as [l' Hl']; [eauto|].
    exists l'. apply elem_of_G_edges. exists vx'. split; [|done].
    by eapply list_elem_of_lookup_2.
  - intros (l' & Hl'). apply elem_of_G_edges in Hl' as (vx' & HG & Hnb).
    apply list_elem_of_lookup in HG as [i Hi].
    destruct (Forall2_lookup_r _ _ _ _ _ H Hi) as ([u' vx] & Hi' & Hk & _ & _ & _ & Hes).
    simpl in *. subst u'.
    destruct (proj2 (copied_nbrs_elem_of _ _ _ _ v Hes)) as [l Hl]; [eauto|].
    exists l. apply elem_of_G_edges. exists vx. split; [|done].
    by eapply list_elem_of_lookup_2.
Qed.

Lemma copied_graph_closed (s t : store) (G G' : graph_ref) :
  copied_graph s t G G' → closed G ↔ closed G'.
Proof.
  intros H. unfold closed.
  pose proof (copied_graph_keys _ _ _ _ H) as Hkeys.
  split; intros Hc u v d Hd; apply assoc_is_Some.
  - rewrite Hkeys. destruct (proj2 (copied_graph_edges _ _ _ _ u v H)) as [l Hl];
      [eauto|]. apply assoc_is_Some. eauto.
  - rewrite <- Hkeys. destruct (proj1 (copied_graph_edges _ _ _ _ u v H)) as [l Hl];
      [eauto|]. apply assoc_is_Some. eauto.
Qed.

Lemma mark_edge_cases (G' : graph_ref) (s : store) (u v : node) (l : loc) :
  (u, v, l) ∈ G_edges G' →
  match assoc v G' with
  | Some _ => ∃ t, mark_edge G' s (u, v, l) = Return t
  | None => mark_edge G' s (u, v, l) = Raise KeyError
  end.
Proof.
  intros Hin. apply elem_of_G_edges in Hin as (vx & HG & _).
  assert (Hu : is_Some (assoc u G')).
  { apply assoc_is_Some, list_elem_of_fmap. by exists (u, vx). }
  destruct Hu as [vu Hu]. unfold mark_edge, G_nodes. rewrite Hu. simpl.
  destruct (assoc v G'); simpl; eauto.
Qed.

(** X18: the annotator returns exactly on a network where every edge
    leads to a node of the network (which networkx maintains), and on any
    other network it raises [KeyError]; it raises nothing else and always
    terminates. *)
Theorem annotation_returns_iff_closed (s : store) (G : graph_ref) :
  ((∃ s' G', filter_road_network s G = Return (s', G')) ↔ closed G)
  ∧ (¬ closed G → filter_road_network s G = Raise KeyError).
Proof.
  unfold filter_road_network.
  destruct (G_copy s G) as [s0 G'] eqn:Hcopy.
  pose proof (G_copy_NoDup _ _ _ _ Hcopy) as Hnd.
  apply G_copy_spec in Hcopy as [_ Hcopied].
  rewrite (copied_graph_closed _ _ _ _ Hcopied).
  destruct (for_each_returns mark_node G' s0) as [s1 Hnodes].
  { intros t a _. unfold mark_node. eauto. }
  rewrite Hnodes. cbn [mbind outcome_bind obind].
  assert (Hiff : (∃ s2, for_each (mark_edge G') (G_edges G') s1 = Return s2)
                 ↔ closed G').
  { split.
    - intros [s2 Hedges] u v l Hin.
      destruct (mark_edges_values _ _ _ _ Hnd Hedges _ _ _ Hin)
        as (lu & lv & _ & Hv & _).
      apply G_nodes_Return in Hv as (vx & -> & _). eauto.
    - intros Hc. apply for_each_returns. intros t [[u v] l] Hin.
      pose proof (mark_edge_cases G' t u v l Hin) as Hcase.
      destruct (Hc _ _ _ Hin) as [vx Hvx]. by rewrite Hvx in Hcase. }
  split.
  - rewrite <- Hiff. split.
    + intros (s' & G'' & H). apply bind_Return in H as (s2 & H2 & _). eauto.
    + intros [s2 ->]. simpl. eauto.
  - intros Hopen.
    destruct (for_each_failure (mark_edge G') (G_edges G') s1 (λ e, e = KeyError))
      as [Hret|(e & -> & ->)]; [|by destruct Hopen; apply Hiff|done].
    intros t [[u v] l] Hin. pose proof (mark_edge_cases G' t u v l Hin) as Hcase.
    destruct (assoc v G'); [by left|right; eauto].
Qed.

(** ** How exit-node discovery fails *)

Section ExitNodesFail.
Context (m : libm) (set_iter : list node → list node).
Context (G : graph) (disaster_node : float * float) (disaster_radius : float).
Hypothesis set_iter_sound : ∀ l x, x ∈ set_iter l → x ∈ l.
Hypothesis G_keys : NoDup G.*1.

Lemma classify_node_cases (acc : list node * list node)
    (entry : node * vertex Node.t Edge.t) :
  (∃ t, classify_node m disaster_node disaster_radius acc entry = Return t)
  ∨ (∃ e, classify_node m disaster_node disaster_radius acc entry = Raise e
          ∧ e = ValueError).
Proof.
  unfold classify_node. destruct disaster_node as [lat lon], acc as [ins outs],
    entry as [n vx].
  destruct (Node.x (data vx)) as [nx|]; [|eauto].
  destruct (Node.y (data vx)) as [ny|]; [|eauto].
  destruct (get_is_water_node (data vx)); [eauto|].
  pose proof (haversine_distance_not_Diverge m ny nx lat lon) as Hdiv.
  destruct (haversine_distance m ny nx lat lon) as [d|e|] eqn:Hd; [| |done].
  - simpl. left. by repeat case_match; eauto.
  - right. exists e. split; [done|]. by eapply haversine_distance_Raise.
Qed.

Lemma boundary_of_returns (outside_nodes : list node)
    (acc : list (node * node)) (inside_node : node) :
  is_Some (assoc inside_node G) →
  ∃ t, boundary_of G outside_nodes acc inside_node = Return t.
Proof.
  intros [vx Hvx]. unfold boundary_of, G_neighbors. rewrite Hvx. simpl.
  apply for_each_returns. intros s a _. by repeat case_match; eauto.
Qed.

Lemma score_candidate_returns (acc : list (node * float)) (c : node) :
  in_buffer m G disaster_node disaster_radius c →
  ∃ t, score_candidate m G disaster_node disaster_radius acc c = Return t.
Proof.
  intros (nd & ny & nx & d & Hnd & Hy & Hx & Hw & Hd & _).
  unfold score_candidate. destruct disaster_node as [lat lon].
  rewrite Hnd. simpl. rewrite Hw, Hy, Hx. simpl in *. rewrite Hd. simpl. eauto.
Qed.

Lemma exit_discovery_outcome :
  (∃ acc, for_each (classify_node m disaster_node disaster_radius) G ([], [])
          = Return acc
          ∧ ∃ exit_nodes,
              get_disaster_exit_nodes m set_iter G disaster_node disaster_radius
              = Return exit_nodes)
  ∨ (for_each (classify_node m disaster_node disaster_radius) G ([], [])
     = Raise ValueError
     ∧ get_disaster_exit_nodes m set_iter G disaster_node disaster_radius
       = Raise ValueError).
Proof.
  destruct (for_each_failure (classify_node m disaster_node disaster_radius) G
              ([], []) (λ e, e = ValueError))
    as [[[ins outs] Hclass]|(e & Hclass & ->)].
  { intros s a _. apply classify_node_cases. }
  - left. exists (ins, outs). split; [done|].
    pose proof (classify_inside m G disaster_node disaster_radius _ _ G_keys Hclass)
      as Hins.
    rewrite Forall_forall in Hins.
    destruct (for_each_returns (boundary_of G outs) (set_iter ins) [])
      as [bs Hbs].
    { intros s a Ha. apply boundary_of_returns.
      destruct (Hins a (set_iter_sound _ _ Ha)) as (nd & _ & _ & _ & Hnd & _).
      apply G_nodes_Return in Hnd as (vx & -> & _). eauto. }
    assert (Hcands : exit_node_candidates m set_iter G disaster_node
                       disaster_radius = Return (set_iter bs.*2)).
    { unfold exit_node_candidates. rewrite Hclass.
      cbn [mbind outcome_bind obind]. by rewrite Hbs. }
    pose proof (candidates_in_buffer m set_iter G disaster_node disaster_radius
                  set_iter_sound G_keys _ Hcands) as Hbuf.
    rewrite Forall_forall in Hbuf.
    destruct (for_each_returns
                (score_candidate m G disaster_node disaster_radius)
                (set_iter bs.*2) []) as [scored Hscored].
    { intros s a Ha. apply score_candidate_returns. by apply Hbuf. }
    unfold get_disaster_exit_nodes. rewrite Hcands.
    cbn [mbind outcome_bind obind]. rewrite Hscored.
    cbn [mbind outcome_bind obind]. by repeat case_match; eauto.
  - right. split; [done|].
    unfold get_disaster_exit_nodes, exit_node_candidates. by rewrite Hclass.
Qed.
End ExitNodesFail.

(** X19: exit-node discovery either returns or raises [ValueError] (from
    a distance computation of the first pass): the lookups of the later
    passes ([G.neighbors], [G.nodes[node_id]], [node_data['y']]) never
    fail. *)
Theorem exit_discovery_fails_only_on_distance (m : libm)
    (set_iter : list node → list node) (G : graph)
    (disaster_node : float * float) (disaster_radius : float) :
  (∀ l x, x ∈ set_iter l → x ∈ l) →
  NoDup G.*1 →
  (∃ exit_nodes,
     get_disaster_exit_nodes m set_iter G disaster_node disaster_radius
     = Return exit_nodes)
  ∨ get_disaster_exit_nodes m set_iter G disaster_node disaster_radius
    = Raise ValueError.
Proof.
  intros Hiter Hkeys.
  destruct (exit_discovery_outcome m set_iter G disaster_node disaster_radius
              Hiter Hkeys) as [(acc & _ & Hret)|[_ Hraise]]; [by left|by right].
Qed.

(** ** A route visits no node twice *)

Lemma chain_functional (cf : gmap node node) (c : node) (l1 l2 : list node) :
  chain cf c l1 → chain cf c l2 → l1 = l2.
Proof.
  intros H1. revert l2. induction H1 as [c Hnone|c p l Hp _ IH]; intros l2 H2.
  - inversion H2; [done|congruence].
  - inversion H2 as [|c' p' l' Hp' Hl']; [congruence|]. subst.
    assert (p' = p) as -> by congruence. f_equal. by apply IH.
Qed.

Lemma chain_suffix (cf : gmap node node) (c x : node) (l : list node) :
  chain cf c l → x ∈ l → ∃ pre post, l = pre ++ x :: post ∧ chain cf x (x :: post).
Proof.
  induction 1 as [c Hnone|c p l Hp Hl IH]; intros Hx;
    [by apply elem_of_nil in Hx|].
  destruct (decide (x = c)) as [->|Hne].
  - exists [], l. split; [done|by eapply chain_step].
  - apply elem_of_cons in Hx as [?|Hx]; [done|].
    destruct (IH Hx) as (pre & post & -> & Hpost).
    by exists (c :: pre), post.
Qed.

Lemma chain_NoDup (cf : gmap node node) (c : node) (l : list node) :
  chain cf c l → NoDup l.
Proof.
  induction 1 as [c Hnone|c p l Hp Hl IH]; [constructor|].
  constructor; [|done]. intros Hc.
  assert (Hcl : chain cf c (c :: l)) by by eapply chain_step.
  destruct (chain_suffix _ _ _ _ Hcl (list_elem_of_further _ _ _ Hc))
    as (pre & post & Heq & Hpost).
  destruct pre as [|a pre].
  - simpl in Heq. injection Heq as Heq. subst post.
    by apply chain_suffix with (x := c) in Hl as (pre' & post' & -> & Hl');
      [|done];
      pose proof (chain_functional _ _ _ _ Hcl Hl') as Hsame;
      apply (f_equal length) in Hsame; simpl in Hsame;
      rewrite length_app in Hsame; simpl in Hsame; lia.
  - simpl in Heq. injection Heq as -> ->.
    pose proof (chain_functional _ _ _ _ Hcl Hpost) as Hsame.
    apply (f_equal length) in Hsame. simpl in Hsame.
    rewrite length_app in Hsame. simpl in Hsame. lia.
Qed.

Lemma chain_keys (cf : gmap node node) (c : node) (l : list node) :
  chain cf c l → Forall (λ x, is_Some (cf !! x)) l.
Proof.
  induction 1 as [c Hnone|c p l Hp Hl IH]; constructor; eauto.
Qed.

Section Simple.
Context (m : libm) (G : graph) (start_node : node)
        (disaster_node : float * float) (disaster_radius : float)
        (exit_nodes : list node).

Lemma chain_start (st : search) (c : node) (l : list node) :
  search_inv G start_node st →
  c = start_node ∨ is_Some (came_from st !! c) →
  chain (came_from st) c l →
  came_from st !! start_node = None.
Proof.
  intros [Hcf _] Hc Hchain. induction Hchain as [c Hnone|c p l Hp Hchain IH].
  - destruct Hc as [->|[? Hc]]; [done|congruence].
  - destruct (Hcf _ _ Hp) as (_ & _ & Hp'). by apply IH.
Qed.

Lemma a_star_loop_simple (fuel : nat) (st : search) (path : list node) :
  search_inv G start_node st →
  a_star_loop m G start_node disaster_node disaster_radius exit_nodes fuel st
  = Return (Some path) →
  NoDup path.
Proof.
  revert st. induction fuel as [|fuel IH]; intros st Hinv H; [done|].
  simpl in H. destruct (pq_get (open_set st)) as [[[f current] q']|] eqn:Hget;
    [|by simplify_eq].
  apply pq_get_elem in Hget as [Hin Hsub].
  apply bind_Return in H as (hash' & _ & H).
  assert (Hcur : current = start_node ∨ is_Some (came_from st !! current)).
  { destruct Hinv as [_ Hopen]. apply (Hopen _ Hin). }
  destruct (bool_decide (current ∈ exit_nodes)) eqn:Hgoal.
  - apply bind_Return in H as (p & Hp & H). simplify_eq.
    unfold reconstruct_path in Hp. apply bind_Return in Hp as (w & Hw & Hp).
    simplify_eq. apply walk_back_chain in Hw as (l & -> & Hl). simpl.
    rewrite reverse_Permutation. apply NoDup_app. split_and!.
    + by eapply chain_NoDup.
    + intros x Hx ->%list_elem_of_singleton.
      pose proof (chain_start st current l Hinv Hcur Hl) as Hnone.
      apply chain_keys in Hl. rewrite Forall_forall in Hl.
      destruct (Hl _ Hx) as [? ?]. congruence.
    + apply NoDup_singleton.
  - apply bind_Return in H as (ns & Hns & H).
    apply bind_Return in H as (st' & Hloop & H).
    apply (IH st'); [|done].
    refine (proj1 (for_each_inv
      (relax m G disaster_node disaster_radius exit_nodes current)
      (λ s, search_inv G start_node s
            ∧ (current = start_node ∨ is_Some (came_from s !! current)))
      ns _ st' _ _ Hloop)).
    + split; [|done]. destruct Hinv as [Hcf Hopen]. split; [done|].
      simpl. intros e He. apply Hopen, Hsub, He.
    + intros a s t Ha Hs Hrel.
      eapply (relax_inv m G start_node); [|done..]. by exists ns.
Qed.
End Simple.

(** X20: a route the search returns visits no node twice. *)
Theorem route_is_simple (m : libm) (set_iter : list node → list node)
    (fuel : nat) (G : graph) (start_node : option node)
    (disaster_node : float * float) (disaster_radius : float)
    (path : list node) :
  a_star_evacuation m set_iter fuel G start_node disaster_node
    disaster_radius = Return (Some path) →
  NoDup path.
Proof.
  intros H. destruct start_node as [start_node|]; [|done].
  unfold a_star_evacuation in H.
  apply bind_Return in H as ([|] & Hin & H); simpl in H;
    [|simplify_eq; constructor].
  apply bind_Return in H as (exits & Hexits & H).
  destruct exits as [|e exits]; [by simplify_eq|].
  apply bind_Return in H as (h & _ & H).
  eapply a_star_loop_simple; [|exact H]. apply search_inv_initial.
Qed.

(** ** The frontier of the search *)

Lemma pq_get_Permutation (q r : list (float * node)) (e : float * node) :
  pq_get q = Some (e, r) → q ≡ₚ e :: r.
Proof.
  revert e r. induction q as [|a q IH]; intros e r H; [done|].
  simpl in H. destruct (pq_get q) as [[e' r']|] eqn:Hq.
  - pose proof (IH _ _ eq_refl) as Hperm.
    destruct (tuple_lt e' a); simplify_eq.
    + rewrite Hperm. apply perm_swap.
    + done.
  - simplify_eq. destruct q as [|b q]; [done|]. simpl in Hq.
    by destruct (pq_get q) as [[? ?]|]; [destruct (tuple_lt _ _)|].
Qed.

Section Frontier.
Context (m : libm) (G : graph) (start_node : node)
        (disaster_node : float * float) (disaster_radius : float)
        (exit_nodes : list node).

Lemma frontier_sync_initial (h_start : float) :
  frontier_sync (initial_search G start_node h_start).
Proof.
  split; simpl.
  - apply NoDup_singleton.
  - intros n. rewrite list_elem_of_singleton, elem_of_singleton. done.
Qed.

Lemma frontier_sync_relax (current neighbor : node) (st st' : search) :
  frontier_sync st →
  relax m G disaster_node disaster_radius exit_nodes current st neighbor
  = Return st' →
  frontier_sync st'.
Proof.
  intros [Hnd Hsync] H. unfold relax in H.
  apply bind_Return in H as (nd & _ & H).
  destruct (get_is_water_node nd); [by simplify_eq|].
  apply bind_Return in H as (gc & _ & H).
  apply bind_Return in H as (gn & _ & H).
  destruct (_ <? gn)%float; [|by simplify_eq].
  apply bind_Return in H as (h & _ & H).
  case_bool_decide as Hin; simplify_eq; [done|].
  split; simpl; unfold pq_put; rewrite fmap_app; simpl.
  - apply NoDup_app. split_and!; [done| |apply NoDup_singleton].
    intros x Hx ->%list_elem_of_singleton. by apply Hin, Hsync.
  - intros n. rewrite elem_of_app, list_elem_of_singleton, elem_of_union,
      elem_of_singleton, Hsync. done.
Qed.

Lemma frontier_sync_get (st : search) (f : float) (current : node)
    (open_set' : list (float * node)) :
  frontier_sync st →
  pq_get (open_set st) = Some ((f, current), open_set') →
  set_remove current (open_set_hash st) = Return (open_set_hash st ∖ {[current]})
  ∧ frontier_sync (Search open_set' (open_set_hash st ∖ {[current]})
                          (came_from st) (g_score st) (f_score st)).
Proof.
  intros [Hnd Hsync] Hget. apply pq_get_Permutation in Hget.
  assert (Hperm : (open_set st).*2 ≡ₚ current :: open_set'.*2).
  { by rewrite Hget. }
  rewrite Hperm in Hnd. apply NoDup_cons in Hnd as [Hfresh Hnd'].
  assert (Hcur : current ∈ open_set_hash st).
  { apply Hsync. rewrite Hperm. left. }
  split.
  - unfold set_remove. by rewrite bool_decide_eq_true_2.
  - split; simpl; [done|]. intros n.
    rewrite elem_of_difference, elem_of_singleton, <- Hsync, Hperm, elem_of_cons.
    split; [|by intros [[?|?] ?]].
    intros Hn. split; [by right|]. by intros ->.
Qed.

End Frontier.

(** X21: the priority queue and the set [open_set_hash] hold the same
    nodes, each once in the queue: this holds when the loop is entered and
    after every round that relaxes the neighbours of the node popped, and
    [open_set_hash.remove(current)] then never raises. *)
Theorem frontier_stays_in_sync (m : libm) (G : graph) (start_node : node)
    (disaster_node : float * float) (disaster_radius : float)
    (exit_nodes : list node) (h_start : float) :
  frontier_sync (initial_search G start_node h_start)
  ∧ ∀ (st st' : search) (f : float) (current : node)
      (open_set' : list (float * node)) (ns : list node),
      frontier_sync st →
      pq_get (open_set st) = Some ((f, current), open_set') →
      set_remove current (open_set_hash st)
      = Return (open_set_hash st ∖ {[current]})
      ∧ (for_each (relax m G disaster_node disaster_radius exit_nodes current)
           ns (Search open_set' (open_set_hash st ∖ {[current]})
                      (came_from st) (g_score st) (f_score st))
         = Return st' →
         frontier_sync st').
Proof.
  split; [apply frontier_sync_initial|].
  intros st st' f current open_set' ns Hsync Hget.
  destruct (frontier_sync_get st f current open_set' Hsync Hget) as [Hrem Hsync'].
  split; [done|]. intros Hloop.
  refine (for_each_inv _ frontier_sync ns _ st' Hsync' _ Hloop).
  intros a s t _ Hs Hrel. by eapply frontier_sync_relax.
Qed.

(** ** The further properties on the example networks *)

Lemma set_iter_sorted_elem_of (l : list node) (x : node) :
  x ∈ set_iter_sorted l ↔ x ∈ l.
Proof.
  unfold set_iter_sorted. rewrite merge_sort_Permutation.
  apply elem_of_remove_dups.
Qed.

Lemma set_iter_sorted_NoDup (l : list node) : NoDup (set_iter_sorted l).
Proof.
  unfold set_iter_sorted. rewrite merge_sort_Permutation.
  apply NoDup_remove_dups.
Qed.

Lemma fork_keys : NoDup fork.*1.
Proof. apply (bool_decide_unpack _). vm_compute. exact I. Qed.

Lemma chain_from_water_keys : NoDup chain_from_water.*1.
Proof. apply (bool_decide_unpack _). vm_compute. exact I. Qed.

Lemma river_crossing_allocated : allocated river_crossing_store river_crossing.
Proof. repeat constructor; simpl; eexists; reflexivity. Qed.

Lemma membership_tests_agree_witness :
  is_in_disaster_radius small_angle_libm 2%Z hazard_center hazard_radius
    chain_from_water
  = check_if_in_radius small_angle_libm (0, 0.008)%float hazard_center
      hazard_radius.
Proof.
  apply (proj2 (membership_tests_agree small_angle_libm chain_from_water 2%Z
                  (node_at 0 0.008 false) 0%float 0.008%float hazard_center
                  hazard_radius));
    reflexivity.
Defined.

Lemma exit_nodes_on_boundary_witness :
  get_disaster_exit_nodes small_angle_libm set_iter_sorted ford hazard_center
    hazard_radius = Return [2%Z]
  ∧ G_edges_of ford 1%Z = [(1%Z, 2%Z, road "residential" 167 true)]
  ∧ in_buffer small_angle_libm ford hazard_center hazard_radius 2%Z
  ∧ ∃ a, inside_on_land small_angle_libm ford hazard_center hazard_radius a
         ∧ adjacent ford a 2%Z.
Proof.
  assert (Hrun : get_disaster_exit_nodes small_angle_libm set_iter_sorted ford
                   hazard_center hazard_radius = Return [2%Z]).
  { vm_compute. reflexivity. }
  split; [exact Hrun|]. split; [reflexivity|].
  apply (λ Hkeys, proj1 (exit_nodes_on_boundary small_angle_libm set_iter_sorted ford
           hazard_center hazard_radius [2%Z] 2%Z set_iter_sorted_elem_of Hkeys Hrun)).
  - apply (bool_decide_unpack _). vm_compute. exact I.
  - left.
Defined.

Lemma exit_nodes_distinct_witness : NoDup [3; 2]%Z.
Proof.
  apply (exit_nodes_distinct small_angle_libm set_iter_sorted fork
           hazard_center hazard_radius [3; 2]%Z set_iter_sorted_NoDup).
  vm_compute. reflexivity.
Defined.

Lemma exit_nodes_count_witness :
  ∃ candidates scored,
    exit_node_candidates small_angle_libm set_iter_sorted fork hazard_center
      hazard_radius = Return candidates
    ∧ for_each (score_candidate small_angle_libm fork hazard_center
                  hazard_radius) candidates [] = Return scored
    ∧ scored.*1 = candidates
    ∧ [3; 2]%Z = (take 10 (sort_by_score_desc scored)).*1
    ∧ length [3; 2]%Z = length candidates `min` 10.
Proof.
  apply (exit_nodes_count small_angle_libm set_iter_sorted fork hazard_center
           hazard_radius [3; 2]%Z set_iter_sorted_sound fork_keys).
  vm_compute. reflexivity.
Defined.

Lemma route_leads_out_witness :
  ∃ goal,
    head [1; 2; 3]%Z = Some 1%Z
    ∧ last [1; 2; 3]%Z = Some goal
    ∧ is_in_disaster_radius small_angle_libm 1%Z hazard_center hazard_radius
        chain_from_water = Return true
    ∧ in_buffer small_angle_libm chain_from_water hazard_center hazard_radius
        goal
    ∧ goal ≠ 1%Z
    ∧ 2 ≤ length [1; 2; 3]%Z.
Proof.
  apply (route_leads_out small_angle_libm set_iter_sorted 10 chain_from_water
           1%Z hazard_center hazard_radius [1; 2; 3]%Z set_iter_sorted_sound
           chain_from_water_keys).
  - vm_compute. reflexivity.
  - discriminate.
Defined.

Lemma route_materializes_witness :
  get_path_coordinates chain_from_water (Some [1; 2; 3]%Z)
  = Return (omap (coordinates_of chain_from_water) [1; 2; 3]%Z)
  ∧ length (omap (coordinates_of chain_from_water) [1; 2; 3]%Z)
    ≤ length [1; 2; 3]%Z.
Proof.
  apply (route_materializes small_angle_libm set_iter_sorted 10
           chain_from_water 1%Z hazard_center hazard_radius [1; 2; 3]%Z).
  vm_compute. reflexivity.
Defined.

Lemma materialized_route_endpoints_witness :
  ∃ coordinates goal first_point last_point,
    get_path_coordinates chain_from_water (Some [1; 2; 3]%Z)
    = Return coordinates
    ∧ last [1; 2; 3]%Z = Some goal
    ∧ coordinates_of chain_from_water 1%Z = Some first_point
    ∧ coordinates_of chain_from_water goal = Some last_point
    ∧ head coordinates = Some first_point
    ∧ last coordinates = Some last_point
    ∧ 2 ≤ length coordinates.
Proof.
  apply (materialized_route_endpoints small_angle_libm set_iter_sorted 10
           chain_from_water 1%Z hazard_center hazard_radius [1; 2; 3]%Z
           set_iter_sorted_sound chain_from_water_keys).
  - vm_compute. reflexivity.
  - discriminate.
Defined.

Lemma zero_radius_raises_witness :
  ∃ e, a_star_evacuation small_angle_libm set_iter_sorted 10 doorstep
         (Some 1%Z) hazard_center 0%float = Raise e.
Proof.
  apply (zero_radius_raises small_angle_libm set_iter_sorted 10 doorstep 1%Z
           hazard_center 0%float [2]%Z).
  - reflexivity.
  - vm_compute. reflexivity.
  - exists (node_at 0 0 false). split; reflexivity.
  - vm_compute. reflexivity.
  - discriminate.
Defined.

Lemma nearest_node_is_nearest_witness :
  ∃ d, usable_at small_angle_libm chain_from_water 0 0 1%Z d
       ∧ (d <? infinity)%float = true
       ∧ ∀ k dk, usable_at small_angle_libm chain_from_water 0 0 k dk →
                 (dk <? d)%float = false.
Proof.
  apply (nearest_node_is_nearest small_angle_libm chain_from_water 0%float
           0%float NetworkXError 1%Z).
  vm_compute. reflexivity.
Defined.

Lemma nearest_node_absent_witness :
  get_nearest_node (Raise NetworkXError) small_angle_libm
    (take 1 chain_without_coordinates) 0 0 = Return None.
Proof.
  apply (proj1 (nearest_node_absent small_angle_libm
                  (take 1 chain_without_coordinates) 0%float 0%float
                  NetworkXError)).
  constructor; [left; reflexivity|constructor].
Defined.

Lemma nearest_node_has_coordinates_witness :
  ∃ ny nx,
    coordinates_of chain_from_water 1%Z = Some (ny, nx)
    ∧ is_in_disaster_radius small_angle_libm 1%Z hazard_center hazard_radius
        chain_from_water
      = check_if_in_radius small_angle_libm (ny, nx) hazard_center hazard_radius
    ∧ is_in_disaster_radius small_angle_libm 1%Z hazard_center hazard_radius
        chain_from_water ≠ Raise KeyError.
Proof.
  apply (nearest_node_has_coordinates small_angle_libm chain_from_water
           0%float 0%float NetworkXError 1%Z hazard_center hazard_radius
           chain_from_water_keys).
  vm_compute. reflexivity.
Defined.

Lemma node_flag_rule_witness :
  ∃ s' G' vx',
    filter_road_network river_crossing_store river_crossing = Return (s', G')
    ∧ snapshot s' G' !! 0 = Some (1%Z, vx')
    ∧ Node.is_water (data vx') = Some true.
Proof.
  destruct (filter_road_network river_crossing_store river_crossing)
    as [[s' G']| |] eqn:Hrun.
  - destruct (node_flag_rule river_crossing_store s' river_crossing G' 0 1%Z
                (Vertex (node_dict river_crossing_store 1%positive)
                   [(2%Z, edge_dict river_crossing_store 1%positive)])
                river_crossing_allocated Hrun eq_refl)
      as (vx' & Hi & _ & Hflag & _).
    exists s', G', vx'. split; [reflexivity|]. split; [exact Hi|exact Hflag].
  - vm_compute in Hrun. discriminate Hrun.
  - vm_compute in Hrun. discriminate Hrun.
Defined.

Lemma edge_flag_rule_witness :
  ∃ s' G' vx' d',
    filter_road_network river_crossing_store river_crossing = Return (s', G')
    ∧ snapshot s' G' !! 0 = Some (1%Z, vx')
    ∧ nbrs vx' !! 0 = Some (2%Z, d')
    ∧ Edge.is_water d' = Some false.
Proof.
  destruct (filter_road_network river_crossing_store river_crossing)
    as [[s' G']| |] eqn:Hrun.
  - destruct (edge_flag_rule river_crossing_store s' river_crossing G' 0 0
                1%Z 2%Z
                (Vertex (node_dict river_crossing_store 1%positive)
                   [(2%Z, edge_dict river_crossing_store 1%positive)])
                (edge_dict river_crossing_store 1%positive)
                river_crossing_allocated Hrun eq_refl eq_refl)
      as (vx' & d' & wu & wv & Hi & Hj & _ & _ & Hflag & _).
    exists s', G', vx', d'. split; [reflexivity|].
    split; [exact Hi|]. split; [exact Hj|exact Hflag].
  - vm_compute in Hrun. discriminate Hrun.
  - vm_compute in Hrun. discriminate Hrun.
Defined.

Lemma annotation_idempotent_witness :
  ∃ s' G' s'' G'',
    filter_road_network river_crossing_store river_crossing = Return (s', G')
    ∧ filter_road_network s' G' = Return (s'', G'')
    ∧ snapshot s'' G'' = snapshot s' G'.
Proof.
  destruct (filter_road_network river_crossing_store river_crossing)
    as [[s' G']| |] eqn:Hrun;
    [|vm_compute in Hrun; discriminate Hrun..].
  destruct (filter_road_network s' G') as [[s'' G'']| |] eqn:Hrun2.
  - exists s', G', s'', G''. split; [reflexivity|]. split; [exact Hrun2|].
    exact (annotation_idempotent river_crossing_store s' s'' river_crossing
             G' G'' river_crossing_allocated Hrun Hrun2).
  - vm_compute in Hrun. injection Hrun as Hs HG. subst s' G'.
    vm_compute in Hrun2. discriminate Hrun2.
  - vm_compute in Hrun. injection Hrun as Hs HG. subst s' G'.
    vm_compute in Hrun2. discriminate Hrun2.
Defined.

Lemma find_exit_nodes_spec_witness :
  2%Z ∈ [2; 3]%Z ↔
  ∃ w, (joined fork w 2%Z ∨ joined fork 2%Z w)
       ∧ straddles small_angle_libm fork hazard_center hazard_radius w 2%Z.
Proof.
  apply (find_exit_nodes_spec small_angle_libm set_iter_sorted fork
           hazard_center hazard_radius [2; 3]%Z set_iter_sorted_elem_of).
  vm_compute. reflexivity.
Defined.

Lemma exit_nodes_are_border_nodes_witness : 3%Z ∈ [2; 3]%Z.
Proof.
  assert (Hsub : [3; 2]%Z ⊆ [2; 3]%Z).
  { apply (exit_nodes_are_border_nodes small_angle_libm set_iter_sorted fork
             hazard_center hazard_radius [3; 2]%Z [2; 3]%Z
             set_iter_sorted_elem_of fork_keys).
    - vm_compute. reflexivity.
    - vm_compute. reflexivity. }
  apply Hsub. left.
Defined.

Lemma river_crossing_closed : closed river_crossing.
Proof.
  intros u v d Hin. apply elem_of_G_edges in Hin as (vx & HG & Hnb).
  unfold river_crossing in HG.
  apply elem_of_cons in HG as [HG|HG%list_elem_of_singleton]; simplify_eq;
    simpl in Hnb; apply list_elem_of_singleton in Hnb; simplify_eq;
    by eexists.
Qed.

Lemma annotation_returns_iff_closed_witness :
  ∃ s' G', filter_road_network river_crossing_store river_crossing
           = Return (s', G').
Proof.
  apply (proj2 (proj1 (annotation_returns_iff_closed river_crossing_store
                         river_crossing))).
  exact river_crossing_closed.
Defined.

Lemma exit_discovery_fails_only_on_distance_witness :
  (∃ exit_nodes,
     get_disaster_exit_nodes small_angle_libm set_iter_sorted fork
       hazard_center hazard_radius = Return exit_nodes)
  ∨ get_disaster_exit_nodes small_angle_libm set_iter_sorted fork
      hazard_center hazard_radius = Raise ValueError.
Proof.
  exact (exit_discovery_fails_only_on_distance small_angle_libm
           set_iter_sorted fork hazard_center hazard_radius
           set_iter_sorted_sound fork_keys).
Defined.

Lemma route_is_simple_witness : NoDup [1; 2; 3]%Z.
Proof.
  apply (route_is_simple small_angle_libm set_iter_sorted 10 chain_from_water
           (Some 1%Z) hazard_center hazard_radius [1; 2; 3]%Z).
  vm_compute. reflexivity.
Defined.

Lemma frontier_stays_in_sync_witness :
  ∃ st',
    for_each (relax small_angle_libm chain_from_water hazard_center
                hazard_radius [3]%Z 1%Z) [2]%Z
      (Search [] (open_set_hash (initial_search chain_from_water 1%Z 0)
                  ∖ {[1%Z]})
              (came_from (initial_search chain_from_water 1%Z 0))
              (g_score (initial_search chain_from_water 1%Z 0))
              (f_score (initial_search chain_from_water 1%Z 0)))
    = Return st'
    ∧ frontier_sync st'.
Proof.
  destruct (for_each (relax small_angle_libm chain_from_water hazard_center
                        hazard_radius [3]%Z 1%Z) [2]%Z
              (Search [] (open_set_hash (initial_search chain_from_water 1%Z 0)
                          ∖ {[1%Z]})
                      (came_from (initial_search chain_from_water 1%Z 0))
                      (g_score (initial_search chain_from_water 1%Z 0))
                      (f_score (initial_search chain_from_water 1%Z 0))))
    as [st'| |] eqn:Hrun.
  - exists st'. split; [reflexivity|].
    destruct (frontier_stays_in_sync small_angle_libm chain_from_water 1%Z
                hazard_center hazard_radius [3]%Z 0%float) as [Hinit Hround].
    exact (proj2 (Hround (initial_search chain_from_water 1%Z 0) st' 0%float
                    1%Z [] [2]%Z Hinit eq_refl) Hrun).
  - vm_compute in Hrun. discriminate Hrun.
  - vm_compute in Hrun. discriminate Hrun.
Defined.
